(** * Host context of the TFRT runtime (host_context.cc)

    A shallow embedding of [HostContext] and of the helpers defined next to
    it: the parallel-for scheduler, the [RunWhenReady] join, cancellation,
    the shared-context registry, blocking-task submission and the global
    table of host contexts.

    Concurrency is modelled by interleaving: every thread is a small
    deterministic machine whose steps are the atomic actions of the C++
    code, and a scheduler relation picks which thread moves next. *)

From Stdlib Require Import ZArith Lia List.
From stdpp Require Import base list relations.

Open Scope Z_scope.

(** ** Machine integers *)

Module Cxx.

(** [size_t] is a 64-bit unsigned integer: conversion to it, which is also
    the result of every [size_t] operation, is reduction modulo 2^64. *)
Definition to_size_t (z : Z) : Z := z mod 2 ^ 64.

(** [int] is a 32-bit signed integer: the narrowing conversion to it. *)
Definition to_int (z : Z) : Z := (z + 2 ^ 31) mod 2 ^ 32 - 2 ^ 31.

Definition is_int (z : Z) : Prop := - 2 ^ 31 <= z < 2 ^ 31.

End Cxx.

(** ** ParallelFor *)

Module PF.
Import Cxx.

(** What an observer of one [ParallelFor] call can see. *)
Inductive event :=
| EvCompute (lo hi : Z)      (* compute(lo, hi) is entered *)
| EvComputeRet (lo hi : Z)   (* that call has returned *)
| EvEnqueue (mid_block end_block : Z)  (* host_->EnqueueWork(...) *)
| EvOnDone.                  (* on_done() is run *)

Inductive fault :=
| AssertionFailed
| UseAfterDelete
| DivisionByZero.

(** [ParallelForExecutionContext]; the two closures are observed through
    the events they produce. *)
Record ParallelForExecutionContext := MkCtx {
  n_ : Z;
  block_size_ : Z;
  pending_blocks_ : Z
}.

(** The part of the state all threads share: the heap cell of the
    execution context ([None] when there is none, in particular after
    [delete this]), the closures [[this, mid_block, end_block]] handed to
    [EnqueueWork] and not started yet, and the log. *)
Record shared := MkShared {
  ctx : option ParallelForExecutionContext;
  work_queue : list (Z * Z);
  trace : list event;            (* newest event first *)
  crashed : option fault
}.

(** Where a thread stands inside [EvalBlocks]. *)
Inductive frame :=
| AtLoop (start_block end_block : Z)   (* at the head of the while loop *)
| InCompute (lo hi : Z)                (* inside compute_(lo, hi) *)
| AtFetchSub.                          (* before pending_blocks_.fetch_sub(1) *)

Definition config : Type := list frame * shared.

Definition log (e : event) (σ : shared) : shared :=
  MkShared (ctx σ) (work_queue σ) (e :: trace σ) (crashed σ).

Definition crash (f : fault) (σ : shared) : shared :=
  MkShared (ctx σ) (work_queue σ) (trace σ) (Some f).

(** [host_->EnqueueWork([this, mid_block, end_block] { EvalBlocks(mid_block, end_block); })] *)
Definition EnqueueWork (mid_block end_block : Z) (σ : shared) : shared :=
  MkShared (ctx σ) (work_queue σ ++ [(mid_block, end_block)])
           (EvEnqueue mid_block end_block :: trace σ) (crashed σ).

Definition set_ctx (c : option ParallelForExecutionContext) (σ : shared) : shared :=
  MkShared c (work_queue σ) (trace σ) (crashed σ).

Definition DivUp (x y : Z) : Z := to_size_t (x + y - 1) / y.

Section Build.
(** Whether the program was built with [NDEBUG], which turns every [assert]
    into nothing. *)
Variable NDEBUG : bool.

(** One atomic action of a thread running [EvalBlocks].  The result is the
    thread's next frame ([None]: the call has returned) and the new shared
    state. *)
Definition EvalBlocks_step (f : frame) (σ : shared) : option frame * shared :=
  match ctx σ with
  | None => (Some f, crash UseAfterDelete σ)
  | Some c =>
    match f with
    | AtLoop start_block end_block =>
      if 1 <? to_size_t (end_block - start_block) then
        let mid_block :=
          to_size_t (start_block + to_size_t (end_block - start_block) / 2) in
        (Some (AtLoop start_block mid_block), EnqueueWork mid_block end_block σ)
      else if NDEBUG || (to_size_t (end_block - start_block) =? 1) then
        let lo := to_size_t (start_block * block_size_ c) in
        let hi := Z.min (n_ c) (to_size_t (end_block * block_size_ c)) in
        (Some (InCompute lo hi), log (EvCompute lo hi) σ)
      else (Some f, crash AssertionFailed σ)
    | InCompute lo hi => (Some AtFetchSub, log (EvComputeRet lo hi) σ)
    | AtFetchSub =>
      let prev := pending_blocks_ c in
      if prev =? 1 then
        (* delete this: the destructor runs on_done_() *)
        (None, log EvOnDone (set_ctx None σ))
      else
        (None, set_ctx (Some (MkCtx (n_ c) (block_size_ c) (to_size_t (prev - 1)))) σ)
    end
  end.

Definition resume (f : option frame) (ts : list frame) : list frame :=
  match f with Some f' => f' :: ts | None => ts end.

(** Modelled from the spec: the work queue ([ConcurrentWorkQueue]) is an
    interface whose implementations are not among the sources.  A submitted
    closure is run once, to completion, at some later point and on some
    thread; closures are started in no particular order.

    The scheduler: a running thread performs its next action, or the work
    queue starts one of the closures it holds on a fresh thread. *)
Inductive step : config -> config -> Prop :=
| step_thread t1 f t2 σ f' σ' :
    crashed σ = None ->
    EvalBlocks_step f σ = (f', σ') ->
    step (t1 ++ f :: t2, σ) (t1 ++ resume f' t2, σ')
| step_start ts σ q1 s e q2 :
    crashed σ = None ->
    work_queue σ = q1 ++ (s, e) :: q2 ->
    step (ts, σ)
         (AtLoop s e :: ts, MkShared (ctx σ) (q1 ++ q2) (trace σ) (crashed σ)).

(** Nothing is left to do: no thread is running and the queue is empty, or
    the process has been brought down. *)
Definition final (c : config) : Prop :=
  crashed (snd c) <> None \/ (fst c = [] /\ work_queue (snd c) = []).

Definition kMaxOversharding : Z := 4.

Definition Allocate (n block_size : Z) : ParallelForExecutionContext :=
  MkCtx n block_size (DivUp n block_size).

(** [int PendingBlocks() { return pending_blocks_; }] *)
Definition PendingBlocks (c : ParallelForExecutionContext) : Z :=
  to_int (pending_blocks_ c).

Definition block_size_of (num_worker_threads n min_block_size : Z) : Z :=
  Z.max min_block_size
        (n / to_size_t (kMaxOversharding * to_size_t num_worker_threads)).

(** [HostContext::ParallelFor], up to the point where the caller either has
    returned (single block) or enters [EvalBlocks].  [num_worker_threads]
    is what [GetNumWorkerThreads()] returns.  [DivUp] divides by the block
    size, which only its assertions keep from being zero. *)
Definition ParallelFor (num_worker_threads n min_block_size : Z) : config :=
  let idle := MkShared None [] [] None in
  if to_size_t (kMaxOversharding * to_size_t num_worker_threads) =? 0 then
    ([], crash DivisionByZero idle)
  else
    let block_size := block_size_of num_worker_threads n min_block_size in
    if negb (NDEBUG || (1 <=? min_block_size)) then ([], crash AssertionFailed idle)
    else if negb (NDEBUG || (1 <=? block_size)) then ([], crash AssertionFailed idle)
    else if n <=? block_size then
      ([], log EvOnDone (log (EvComputeRet 0 n) (log (EvCompute 0 n) idle)))
    else if block_size =? 0 then ([], crash DivisionByZero idle)
    else
      let c := Allocate n block_size in
      ([AtLoop 0 (to_size_t (PendingBlocks c))], set_ctx (Some c) idle).

(** A deterministic schedule, for running examples: the first thread moves
    if there is one, otherwise the oldest queued closure is started. *)
Fixpoint run (fuel : nat) (c : config) : config :=
  match fuel with
  | O => c
  | S fuel' =>
    match crashed (snd c) with
    | Some _ => c
    | None =>
      match fst c with
      | f :: ts =>
        let '(f', σ') := EvalBlocks_step f (snd c) in
        run fuel' (resume f' ts, σ')
      | [] =>
        match work_queue (snd c) with
        | (s, e) :: q =>
          run fuel' ([AtLoop s e],
                     MkShared (ctx (snd c)) q (trace (snd c)) (crashed (snd c)))
        | [] => c
        end
      end
    end
  end.

(** A thread performs [k] of its actions with no other thread in between. *)
Fixpoint own_steps (k : nat) (f : frame) (σ : shared) : option frame * shared :=
  match k with
  | O => (Some f, σ)
  | S k' =>
    match EvalBlocks_step f σ with
    | (Some f', σ') => own_steps k' f' σ'
    | r => r
    end
  end.

End Build.

End PF.


(** ** RunWhenReady *)

Module RWR.
Import Cxx.

(** Modelled from the spec: the [AsyncValue] class (async_value.h) is not
    among the sources.  An async value is a set-once cell that is
    unresolved, concrete or an error, with the continuations attached
    while it was unresolved; [AndThen] runs its argument at once on the
    calling thread when the value is resolved and pushes it on the waiter
    stack otherwise; resolving a value detaches its waiters, each of which
    is then run exactly once. *)
Inductive av_state := Unresolved | Concrete | Error.

(** The continuations that can sit on a value: the two lambdas built by
    [RunWhenReady], and those of other clients. *)
Inductive waiter :=
| RunCallee          (* [callee = std::move(callee)]() mutable { callee(); } *)
| DecrementAndTest   (* [data]() { if (data->counter.fetch_sub(1) != 1) return; ... } *)
| Foreign.

Record AsyncValue := MkAV {
  state : av_state;
  waiters : list waiter
}.

(** Modelled from the spec: [AsyncValue::IsAvailable], true for a concrete
    value and for an error. *)
Definition IsAvailable (v : AsyncValue) : bool :=
  match state v with Unresolved => false | _ => true end.

(** [struct CounterAndCallee]; the callee is observed through the number
    of times it has run. *)
Record CounterAndCallee := MkData { counter : Z }.

Inductive fault := InvalidPointer | UseAfterDelete.

(** An [AsyncValue*] is an index into [heap]. *)
Record world := MkWorld {
  heap : list AsyncValue;
  data : option CounterAndCallee;   (* the record behind [data], while it lives *)
  firing : list waiter;             (* detached by a resolution, not run yet *)
  callee_runs : nat;
  crashed : option fault
}.

Definition crash (f : fault) (σ : world) : world :=
  MkWorld (heap σ) (data σ) (firing σ) (callee_runs σ) (Some f).

Definition callee (σ : world) : world :=
  MkWorld (heap σ) (data σ) (firing σ) (S (callee_runs σ)) (crashed σ).

Definition set_data (d : option CounterAndCallee) (σ : world) : world :=
  MkWorld (heap σ) d (firing σ) (callee_runs σ) (crashed σ).

Definition set_heap (h : list AsyncValue) (σ : world) : world :=
  MkWorld h (data σ) (firing σ) (callee_runs σ) (crashed σ).

Definition set_firing (ws : list waiter) (σ : world) : world :=
  MkWorld (heap σ) (data σ) ws (callee_runs σ) (crashed σ).

(** Running a continuation. *)
Definition run_waiter (w : waiter) (σ : world) : world :=
  match w with
  | RunCallee => callee σ
  | DecrementAndTest =>
    match data σ with
    | None => crash UseAfterDelete σ
    | Some d =>
      (* data->counter.fetch_sub(1) *)
      let prev := counter d in
      if negb (prev =? 1) then set_data (Some (MkData (to_size_t (prev - 1)))) σ
      else
        (* data->callee(); delete data; *)
        set_data None (callee σ)
    end
  | Foreign => σ
  end.

(** Modelled from the spec: [AsyncValue::AndThen]. *)
Definition AndThen (p : nat) (w : waiter) (σ : world) : world :=
  match heap σ !! p with
  | None => crash InvalidPointer σ
  | Some v =>
    if IsAvailable v then run_waiter w σ
    else set_heap (<[p := MkAV (state v) (w :: waiters v)]> (heap σ)) σ
  end.

(** Where the calling thread stands inside [RunWhenReady]. *)
Inductive frame :=
| Scanning (rest unavailable_values : list nat)  (* in the first for loop *)
| Attaching (rest : list nat)                    (* in the second for loop *)
| Returned.

(** One atomic action of the thread running [RunWhenReady]. *)
Definition RunWhenReady_step (f : frame) (σ : world) : frame * world :=
  match f with
  | Scanning (i :: rest) unavailable_values =>
    match heap σ !! i with
    | None => (Returned, crash InvalidPointer σ)
    | Some v =>
      if negb (IsAvailable v)
      then (Scanning rest (unavailable_values ++ [i]), σ)
      else (Scanning rest unavailable_values, σ)
    end
  | Scanning [] [] => (Returned, callee σ)
  | Scanning [] [p] => (Returned, AndThen p RunCallee σ)
  | Scanning [] unavailable_values =>
    (Attaching unavailable_values,
     set_data (Some (MkData (Z.of_nat (length unavailable_values)))) σ)
  | Attaching (val :: rest) => (Attaching rest, AndThen val DecrementAndTest σ)
  | Attaching [] => (Returned, σ)
  | Returned => (Returned, σ)
  end.

Definition config : Type := frame * world.

(** Modelled from the spec: resolution of an [AsyncValue] (set-once, to a
    concrete value or an error, by whatever thread produces it) and the
    flush of its waiters.

    The caller moves, some producer resolves an unresolved value, or a
    detached continuation is run. *)
Inductive step : config -> config -> Prop :=
| step_caller f σ f' σ' :
    crashed σ = None -> f <> Returned ->
    RunWhenReady_step f σ = (f', σ') ->
    step (f, σ) (f', σ')
| step_resolve f σ p v s :
    crashed σ = None ->
    heap σ !! p = Some v -> state v = Unresolved -> s <> Unresolved ->
    step (f, σ)
         (f, set_firing (waiters v ++ firing σ)
                        (set_heap (<[p := MkAV s []]> (heap σ)) σ))
| step_fire f σ w1 w w2 :
    crashed σ = None ->
    firing σ = w1 ++ w :: w2 ->
    step (f, σ) (f, run_waiter w (set_firing (w1 ++ w2) σ)).



Definition available (σ : world) (p : nat) : Prop :=
  exists v, heap σ !! p = Some v /\ IsAvailable v = true.

Definition is_join (w : waiter) : bool :=
  match w with Foreign => false | _ => true end.

End RWR.

(** ** Cancellation *)

Module Cancel.
Import Cxx.

Inductive memory_order :=
| memory_order_relaxed
| memory_order_acquire
| memory_order_release
| memory_order_acq_rel
| memory_order_seq_cst.

(** The accesses made to the atomic [cancel_value_], with the orderings
    the code passes. *)
Inductive atomic_access :=
| compare_exchange_strong (success failure : memory_order) (succeeded : bool)
| exchange (order : memory_order).

(** Modelled from the spec: [ErrorAsyncValue] and its reference count
    (async_value.h) are not among the sources.  A value is created with
    one reference, [DropRef] gives one up, and the value is destroyed
    when none is left. *)
Record ErrorAsyncValue := MkError {
  message : list Byte.byte;
  refcount : Z
}.

(** An [AsyncValue*] is an index into [values]; [cancel_value_] holds such
    a pointer or null. *)
Record HostContext := MkHost {
  values : list ErrorAsyncValue;
  cancel_value_ : option nat;
  accesses : list atomic_access     (* newest first *)
}.

(** Modelled from the spec: [AsyncValue::DropRef]. *)
Definition DropRef (p : nat) (vs : list ErrorAsyncValue) : list ErrorAsyncValue :=
  match vs !! p with
  | Some v => <[p := MkError (message v) (refcount v - 1)]> vs
  | None => vs
  end.

(** [MakeErrorAsyncValueRef(msg).release()]: the new value and the heap
    that holds it. *)
Definition MakeErrorAsyncValueRef (msg : list Byte.byte) (vs : list ErrorAsyncValue)
  : nat * list ErrorAsyncValue :=
  (length vs, vs ++ [MkError msg 1]).

(** Where a thread stands inside [CancelExecution] or [Restart]. *)
Inductive frame :=
| CancelEnter (msg : list Byte.byte)  (* before MakeErrorAsyncValueRef(msg).release() *)
| CancelExchange (error_value : nat)  (* before cancel_value_.compare_exchange_strong *)
| CancelDrop (error_value : nat)      (* the exchange failed: before error_value->DropRef() *)
| RestartEnter                        (* before cancel_value_.exchange(nullptr) *)
| RestartDrop (value : nat).          (* value is not null: before value->DropRef() *)

(** One atomic action of a thread: the next frame ([None]: the call has
    returned) and the new state. *)
Definition call_step (f : frame) (h : HostContext) : option frame * HostContext :=
  match f with
  | CancelEnter msg =>
    let '(error_value, vs) := MakeErrorAsyncValueRef msg (values h) in
    (Some (CancelExchange error_value), MkHost vs (cancel_value_ h) (accesses h))
  | CancelExchange error_value =>
    match cancel_value_ h with
    | None =>
      (None,
       MkHost (values h) (Some error_value)
              (compare_exchange_strong memory_order_release memory_order_relaxed true
                 :: accesses h))
    | Some expected_value =>
      (Some (CancelDrop error_value),
       MkHost (values h) (Some expected_value)
              (compare_exchange_strong memory_order_release memory_order_relaxed false
                 :: accesses h))
    end
  | CancelDrop error_value =>
    (None, MkHost (DropRef error_value (values h)) (cancel_value_ h) (accesses h))
  | RestartEnter =>
    match cancel_value_ h with
    | Some value =>
      (Some (RestartDrop value),
       MkHost (values h) None (exchange memory_order_acq_rel :: accesses h))
    | None =>
      (None, MkHost (values h) None (exchange memory_order_acq_rel :: accesses h))
    end
  | RestartDrop value =>
    (None, MkHost (DropRef value (values h)) (cancel_value_ h) (accesses h))
  end.

Definition resume (f : option frame) (ts : list frame) : list frame :=
  match f with Some f' => f' :: ts | None => ts end.

(** Threads inside the two calls, interleaved at their atomic actions. *)
Inductive step : list frame * HostContext -> list frame * HostContext -> Prop :=
| step_call t1 f t2 h f' h' :
    call_step f h = (f', h') ->
    step (t1 ++ f :: t2, h) (t1 ++ resume f' t2, h').

(** A call run from [f] to its end with no other thread in between. *)
Fixpoint finish (fuel : nat) (f : frame) (h : HostContext) : HostContext :=
  match fuel with
  | O => h
  | S fuel' =>
    match call_step f h with
    | (Some f', h') => finish fuel' f' h'
    | (None, h') => h'
    end
  end.

Definition CancelExecution (msg : list Byte.byte) (h : HostContext) : HostContext :=
  finish 3 (CancelEnter msg) h.

Definition Restart (h : HostContext) : HostContext :=
  finish 2 RestartEnter h.

(** The message of the installed cancel value, if there is one. *)
Definition cancel_message (h : HostContext) : option (list Byte.byte) :=
  match cancel_value_ h with
  | Some p => message <$> values h !! p
  | None => None
  end.

Inductive call := DoCancel (msg : list Byte.byte) | DoRestart.

Definition perform (c : call) (h : HostContext) : HostContext :=
  match c with
  | DoCancel msg => CancelExecution msg h
  | DoRestart => Restart h
  end.

(** Calls one after the other. *)
Definition perform_all (cs : list call) (h : HostContext) : HostContext :=
  fold_left (fun h c => perform c h) cs h.

(** What the slot should hold after a history: the message of the first
    cancel since the last restart. *)
Fixpoint first_cancel (cs : list call) (current : option (list Byte.byte))
  : option (list Byte.byte) :=
  match cs with
  | [] => current
  | DoCancel msg :: cs' =>
    first_cancel cs' (match current with None => Some msg | Some m => Some m end)
  | DoRestart :: cs' => first_cancel cs' None
  end.

Definition fresh : HostContext := MkHost [] None [].

(** A thread that has just called [CancelExecution] or [Restart]. *)
Definition entering (f : frame) : bool :=
  match f with CancelEnter _ | RestartEnter => true | _ => false end.

(** A schedule: at each turn the thread at the given position performs its
    next action. *)
Fixpoint schedule (turns : list nat) (c : list frame * HostContext)
  : option (list frame * HostContext) :=
  match turns with
  | [] => Some c
  | i :: turns' =>
    match fst c !! i with
    | Some f =>
      let '(f', h') := call_step f (snd c) in
      schedule turns' (take i (fst c) ++ resume f' (drop (S i) (fst c)), h')
    | None => None
    end
  end.

End Cancel.

(** ** Shared contexts *)

Module Shared.
Import Cxx.

Section Manager.
(** The objects the factories build, and the host handed to them. *)
Variable SharedContext : Type.
Variable Host : Type.

Definition SharedContextFactory : Type := Host -> SharedContext.

(** [std::pair<std::unique_ptr<SharedContext>, std::once_flag>] *)
Record item := MkItem {
  first : option SharedContext;
  second : bool                (* the once_flag has been set *)
}.

Record SharedContextManager := MkManager {
  host_ : Host;
  shared_context_instances_ : list item;
  factory_calls : list nat     (* the ids a factory was run for, newest first *)
}.

Definition new_manager (host : Host) : SharedContextManager :=
  MkManager host (replicate 256 (MkItem None false)) [].

Inductive result :=
| Ref (id : nat) (instance : SharedContext)   (* *item.first of slot id *)
| AssertionFailed
| NullDereference.

(** [shared_context_id] is an [int]; the comparison with [size()]
    converts it to [size_t].  The assertions are compiled in.  The active
    call of [std::call_once] runs with every other caller of the slot
    waiting, so a call is one step. *)
Definition GetOrCreateSharedContext (shared_context_id : Z)
           (factory : SharedContextFactory) (m : SharedContextManager)
  : result * SharedContextManager :=
  if negb (to_size_t shared_context_id
           <? Z.of_nat (length (shared_context_instances_ m)))
  then (AssertionFailed, m)
  else
    let id := Z.to_nat shared_context_id in
    match shared_context_instances_ m !! id with
    | None => (AssertionFailed, m)
    | Some it =>
      if second it then
        match first it with
        | Some inst => (Ref id inst, m)
        | None => (NullDereference, m)
        end
      else
        (* the active call of std::call_once *)
        match first it with
        | Some _ => (AssertionFailed, m)
        | None =>
          let inst := factory (host_ m) in
          (Ref id inst,
           MkManager (host_ m)
                     (<[id := MkItem (Some inst) true]> (shared_context_instances_ m))
                     (id :: factory_calls m))
        end
    end.

(** A history of calls, in the order in which they pass the once flag. *)
Fixpoint call_all (cs : list (Z * SharedContextFactory)) (m : SharedContextManager)
  : list result * SharedContextManager :=
  match cs with
  | [] => ([], m)
  | (id, factory) :: cs' =>
    let '(r, m') := GetOrCreateSharedContext id factory m in
    let '(rs, m'') := call_all cs' m' in
    (r :: rs, m'')
  end.

End Manager.

Arguments Ref {SharedContext}.
Arguments AssertionFailed {SharedContext}.
Arguments NullDereference {SharedContext}.
Arguments first {SharedContext}.
Arguments second {SharedContext}.
Arguments host_ {SharedContext Host}.
Arguments shared_context_instances_ {SharedContext Host}.
Arguments factory_calls {SharedContext Host}.
Arguments new_manager {SharedContext Host}.
Arguments GetOrCreateSharedContext {SharedContext Host}.
Arguments call_all {SharedContext Host}.

End Shared.

(** ** Shared contexts: callers that race *)

Module SharedRace.
Import Cxx.

Section Manager.
Variable SharedContext : Type.
Variable Host : Type.

Definition SharedContextFactory : Type := Host -> SharedContext.

(** A [std::once_flag]: no call has been made through it, the callable of
    one call is being run (the active execution), or that callable has
    returned. *)
Inductive once_flag := NotCalled | Active | Returned.

(** [std::pair<std::unique_ptr<SharedContext>, std::once_flag>] *)
Record item := MkItem {
  first : option SharedContext;
  second : once_flag
}.

Inductive fault := AssertionFailed | NullDereference.

Record SharedContextManager := MkManager {
  host_ : Host;
  shared_context_instances_ : list item;
  factory_calls : list nat;                   (* the ids a factory was run for *)
  returned : list (nat * SharedContext);      (* slot and instance of the calls that have returned *)
  crashed : option fault
}.

Definition new_manager (host : Host) : SharedContextManager :=
  MkManager host (replicate 256 (MkItem None NotCalled)) [] [] None.

Definition crash (f : fault) (m : SharedContextManager) : SharedContextManager :=
  MkManager (host_ m) (shared_context_instances_ m) (factory_calls m) (returned m) (Some f).

Definition set_item (id : nat) (it : item) (m : SharedContextManager) : SharedContextManager :=
  MkManager (host_ m) (<[id := it]> (shared_context_instances_ m)) (factory_calls m)
            (returned m) (crashed m).

(** Where a thread stands inside [GetOrCreateSharedContext]. *)
Inductive frame :=
| AtAssert (shared_context_id : Z) (factory : SharedContextFactory)
| AtCallOnce (id : nat) (factory : SharedContextFactory)  (* before std::call_once *)
| InCallable (id : nat) (factory : SharedContextFactory)  (* the active execution, in the lambda *)
| LeavingCallOnce (id : nat)                              (* the lambda has returned *)
| AtReturn (id : nat).                                    (* before return *item.first *)

(** One atomic action of a thread: [None] when the thread has to wait, else
    its next frame ([None]: the call has returned) and the new state.
    [std::call_once] lets one caller run the callable while the other
    callers of the same flag wait; when the callable has returned the flag
    is set and every caller goes on. *)
Definition call_step (f : frame) (m : SharedContextManager)
  : option (option frame * SharedContextManager) :=
  match f with
  | AtAssert shared_context_id factory =>
    if negb (to_size_t shared_context_id
             <? Z.of_nat (length (shared_context_instances_ m)))
    then Some (Some f, crash AssertionFailed m)
    else Some (Some (AtCallOnce (Z.to_nat shared_context_id) factory), m)
  | AtCallOnce id factory =>
    match shared_context_instances_ m !! id with
    | None => Some (Some f, crash AssertionFailed m)
    | Some it =>
      match second it with
      | NotCalled => Some (Some (InCallable id factory), set_item id (MkItem (first it) Active) m)
      | Active => None
      | Returned => Some (Some (AtReturn id), m)
      end
    end
  | InCallable id factory =>
    match shared_context_instances_ m !! id with
    | None => Some (Some f, crash AssertionFailed m)
    | Some it =>
      match first it with
      | Some _ => Some (Some f, crash AssertionFailed m)      (* assert(!item.first) *)
      | None =>
        (* item.first = factory(host_) *)
        Some (Some (LeavingCallOnce id),
              MkManager (host_ m)
                        (<[id := MkItem (Some (factory (host_ m))) (second it)]>
                           (shared_context_instances_ m))
                        (id :: factory_calls m) (returned m) (crashed m))
      end
    end
  | LeavingCallOnce id =>
    match shared_context_instances_ m !! id with
    | None => Some (Some f, crash AssertionFailed m)
    | Some it => Some (Some (AtReturn id), set_item id (MkItem (first it) Returned) m)
    end
  | AtReturn id =>
    match shared_context_instances_ m !! id with
    | Some (MkItem (Some inst) _) =>
      Some (None,
            MkManager (host_ m) (shared_context_instances_ m) (factory_calls m)
                      ((id, inst) :: returned m) (crashed m))
    | _ => Some (Some f, crash NullDereference m)
    end
  end.

Definition resume (f : option frame) (ts : list frame) : list frame :=
  match f with Some f' => f' :: ts | None => ts end.

(** Threads inside the call, interleaved at their atomic actions. *)
Inductive step : list frame * SharedContextManager -> list frame * SharedContextManager -> Prop :=
| step_call t1 f t2 m f' m' :
    crashed m = None ->
    call_step f m = Some (f', m') ->
    step (t1 ++ f :: t2, m) (t1 ++ resume f' t2, m').

(** One thread per call. *)
Definition callers (cs : list (Z * SharedContextFactory)) : list frame :=
  map (fun c => AtAssert (fst c) (snd c)) cs.

(** A schedule: at each turn the thread at the given position performs its
    next action; a turn given to a waiting thread is lost. *)
Fixpoint schedule (turns : list nat) (c : list frame * SharedContextManager)
  : list frame * SharedContextManager :=
  match turns with
  | [] => c
  | i :: turns' =>
    match crashed (snd c), fst c !! i with
    | None, Some f =>
      match call_step f (snd c) with
      | Some (f', m') => schedule turns' (take i (fst c) ++ resume f' (drop (S i) (fst c)), m')
      | None => schedule turns' c
      end
    | _, _ => schedule turns' c
    end
  end.

End Manager.

Arguments MkItem {SharedContext}.
Arguments first {SharedContext}.
Arguments second {SharedContext}.
Arguments host_ {SharedContext Host}.
Arguments shared_context_instances_ {SharedContext Host}.
Arguments factory_calls {SharedContext Host}.
Arguments returned {SharedContext Host}.
Arguments crashed {SharedContext Host}.
Arguments new_manager {SharedContext Host}.
Arguments AtAssert {SharedContext Host}.
Arguments AtCallOnce {SharedContext Host}.
Arguments InCallable {SharedContext Host}.
Arguments LeavingCallOnce {SharedContext Host}.
Arguments AtReturn {SharedContext Host}.
Arguments call_step {SharedContext Host}.
Arguments resume {SharedContext Host}.
Arguments step {SharedContext Host}.
Arguments callers {SharedContext Host}.
Arguments schedule {SharedContext Host}.

End SharedRace.

(** ** Blocking work *)

Module Blocking.

(** A closure is known by its identity; [TaskFunction] wraps one. *)
Definition closure : Type := nat.
Inductive TaskFunction := MkTask (work : closure).

Definition task_work (t : TaskFunction) : closure :=
  match t with MkTask w => w end.

(** The interface of [ConcurrentWorkQueue] as far as [HostContext] uses
    it.  [AddBlockingTask] hands the task back when it is rejected. *)
Class ConcurrentWorkQueue (Q : Type) := {
  AddTask : TaskFunction -> Q -> Q;
  AddBlockingTask : TaskFunction -> bool -> Q -> option TaskFunction * Q;
  GetParallelismLevel : Q -> Z
}.

(** What has become of the closures passed in so far. *)
Record HostContext (Q : Type) := MkHost {
  work_queue_ : Q;
  destroyed : list closure   (* destructor run without the closure being called *)
}.
Arguments MkHost {Q}.
Arguments work_queue_ {Q}.
Arguments destroyed {Q}.

(** The result is the [bool]; the [Optional<TaskFunction>] local dies at
    the end of the body, and with it the task the queue handed back. *)
Definition EnqueueBlockingWork {Q} `{ConcurrentWorkQueue Q}
           (work : closure) (h : HostContext Q) : bool * HostContext Q :=
  let '(task, q) := AddBlockingTask (MkTask work) true (work_queue_ h) in
  match task with
  | Some t => (false, MkHost q (task_work t :: destroyed h))
  | None => (true, MkHost q (destroyed h))
  end.

Definition EnqueueWork {Q} `{ConcurrentWorkQueue Q}
           (work : closure) (h : HostContext Q) : HostContext Q :=
  MkHost (AddTask (MkTask work) (work_queue_ h)) (destroyed h).

Definition GetNumWorkerThreads {Q} `{ConcurrentWorkQueue Q} (h : HostContext Q) : Z :=
  GetParallelismLevel (work_queue_ h).

(** A queue that keeps at most [capacity] blocking tasks. *)
Record bounded_queue := MkBounded {
  capacity : nat;
  tasks : list TaskFunction;
  blocking_tasks : list TaskFunction
}.

#[export] Instance bounded_work_queue : ConcurrentWorkQueue bounded_queue := {
  AddTask t q := MkBounded (capacity q) (tasks q ++ [t]) (blocking_tasks q);
  AddBlockingTask t allow_queuing q :=
    if (allow_queuing && (length (blocking_tasks q) <? capacity q)%nat)%bool
    then (None, MkBounded (capacity q) (tasks q) (blocking_tasks q ++ [t]))
    else (Some t, q);
  GetParallelismLevel _ := 1
}.

End Blocking.

(** ** The table of host contexts *)

Module Registry.
Import Cxx.

Section Table.
(** [HostContextPtr::kDummyIndex], the size of [all_host_contexts_]; the
    class [HostContextPtr] is not among the sources. *)
Variable kDummyIndex : Z.

(** A [HostContext*]. *)
Definition address : Type := nat.

Record process := MkProcess {
  next_host_context_index : Z;               (* std::atomic<int> *)
  all_host_contexts_ : list (option address);
  aborted : bool
}.

Definition start : process :=
  MkProcess 0 (replicate (Z.to_nat kDummyIndex) None) false.

(** The part of a [HostContext] the table is concerned with. *)
Record HostContext := MkHost {
  this : address;
  instance_ptr_ : Z
}.

(** Modelled from the spec: [instance_index()] is declared with
    [HostContextPtr]; it is the index the context was given at
    construction. *)
Definition instance_index (h : HostContext) : Z := instance_ptr_ h.

(** The constructor, for the object at [self]; the assertion is compiled
    in and brings the process down. *)
Definition HostContext_new (self : address) (p : process) : option HostContext * process :=
  let index := next_host_context_index p in           (* fetch_add(1) *)
  let counter := to_int (index + 1) in
  let h := MkHost self index in
  if negb (instance_index h <? kDummyIndex) then
    (None, MkProcess counter (all_host_contexts_ p) true)
  else
    (Some h,
     MkProcess counter
               (<[Z.to_nat (instance_index h) := Some self]> (all_host_contexts_ p))
               (aborted p)).

(** The destructor. *)
Definition HostContext_delete (h : HostContext) (p : process) : process :=
  MkProcess (next_host_context_index p)
            (<[Z.to_nat (instance_index h) := None]> (all_host_contexts_ p))
            (aborted p).

Inductive action :=
| Construct (self : address)
| Destruct (h : HostContext).

(** A run of the process: the contexts constructed so far (newest
    first) and the state.  Nothing happens after an abort. *)
Definition act (a : action) (s : list HostContext * process)
  : list HostContext * process :=
  let '(made, p) := s in
  if aborted p then s
  else
    match a with
    | Construct self =>
      match HostContext_new self p with
      | (Some h, p') => (h :: made, p')
      | (None, p') => (made, p')
      end
    | Destruct h => (made, HostContext_delete h p)
    end.

Definition act_all (acts : list action) (s : list HostContext * process)
  : list HostContext * process :=
  fold_left (fun s a => act a s) acts s.

End Table.

End Registry.

(** ** The table of host contexts: constructors that race *)

Module RegistryRace.
Import Cxx Registry.

Section Table.
Variable kDummyIndex : Z.

(** The process, with the contexts whose constructor has returned: those
    that are still there and those that have been destroyed. *)
Record world := MkWorld {
  proc : process;
  kept : list HostContext;
  destroyed : list HostContext
}.

(** Where a thread stands.  A thread constructs a context at [self];
    [destroy] tells whether it destroys the context later on.  The actions
    followed are those on the counter and on the table. *)
Inductive frame :=
| AtFetchAdd (self : address) (destroy : bool)  (* before next_host_context_index.fetch_add(1) *)
| AtAssert (h : HostContext) (destroy : bool)   (* before the assertion of the constructor *)
| AtStore (h : HostContext) (destroy : bool)    (* before all_host_contexts_[instance_index()] = this *)
| AtClear (h : HostContext).                    (* before all_host_contexts_[instance_index()] = nullptr *)

(** One atomic action of a thread: its next frame ([None]: the thread is
    done) and the new state. *)
Definition thread_step (f : frame) (w : world) : option frame * world :=
  let p := proc w in
  match f with
  | AtFetchAdd self destroy =>
    let index := next_host_context_index p in
    (Some (AtAssert (MkHost self index) destroy),
     MkWorld (MkProcess (to_int (index + 1)) (all_host_contexts_ p) (aborted p))
             (kept w) (destroyed w))
  | AtAssert h destroy =>
    if negb (instance_index h <? kDummyIndex) then
      (Some f,
       MkWorld (MkProcess (next_host_context_index p) (all_host_contexts_ p) true)
               (kept w) (destroyed w))
    else (Some (AtStore h destroy), w)
  | AtStore h destroy =>
    let p' := MkProcess (next_host_context_index p)
                        (<[Z.to_nat (instance_index h) := Some (this h)]> (all_host_contexts_ p))
                        (aborted p) in
    if destroy then (Some (AtClear h), MkWorld p' (kept w) (destroyed w))
    else (None, MkWorld p' (h :: kept w) (destroyed w))
  | AtClear h =>
    (None, MkWorld (HostContext_delete h p) (kept w) (h :: destroyed w))
  end.

Definition resume (f : option frame) (ts : list frame) : list frame :=
  match f with Some f' => f' :: ts | None => ts end.

(** Threads interleaved at their atomic actions; nothing moves once the
    process has been brought down. *)
Inductive step : list frame * world -> list frame * world -> Prop :=
| step_thread t1 f t2 w f' w' :
    aborted (proc w) = false ->
    thread_step f w = (f', w') ->
    step (t1 ++ f :: t2, w) (t1 ++ resume f' t2, w').

Definition begin : world := MkWorld (start kDummyIndex) [] [].

(** One thread per context to construct. *)
Definition constructors (cs : list (address * bool)) : list frame :=
  map (fun c => AtFetchAdd (fst c) (snd c)) cs.

(** A schedule: at each turn the thread at the given position performs its
    next action. *)
Fixpoint schedule (turns : list nat) (c : list frame * world) : list frame * world :=
  match turns with
  | [] => c
  | i :: turns' =>
    match aborted (proc (snd c)), fst c !! i with
    | false, Some f =>
      let '(f', w') := thread_step f (snd c) in
      schedule turns' (take i (fst c) ++ resume f' (drop (S i) (fst c)), w')
    | _, _ => schedule turns' c
    end
  end.

End Table.

End RegistryRace.

(** * Properties *)

(** ** Arithmetic of the machine integers *)

Section MachineArith.
Import Cxx.

Lemma to_size_t_small z : 0 <= z < 2 ^ 64 -> to_size_t z = z.
Proof. intros Hz. unfold to_size_t. now apply Z.mod_small. Qed.

Lemma to_size_t_range z : 0 <= to_size_t z < 2 ^ 64.
Proof. unfold to_size_t. apply Z.mod_pos_bound. lia. Qed.

Lemma to_int_small z : - 2 ^ 31 <= z < 2 ^ 31 -> to_int z = z.
Proof. intros Hz. unfold to_int. rewrite Z.mod_small; lia. Qed.

(** The two halves of a split, whatever the operands: the differences are
    taken modulo 2^64 as the code takes them. *)
Lemma split_left s e :
  let d := to_size_t (e - s) in
  to_size_t (to_size_t (s + d / 2) - s) = d / 2.
Proof.
  intros d. pose proof (to_size_t_range (e - s)) as Hd. fold d in Hd.
  unfold to_size_t at 1 2. rewrite Zminus_mod_idemp_l.
  replace (s + d / 2 - s) with (d / 2) by lia.
  apply Z.mod_small.
  assert (0 <= d / 2) by (apply Z.div_pos; lia).
  assert (d / 2 <= d) by (apply Z.div_le_upper_bound; lia).
  lia.
Qed.

Lemma split_right s e :
  let d := to_size_t (e - s) in
  to_size_t (e - to_size_t (s + d / 2)) = d - d / 2.
Proof.
  intros d. pose proof (to_size_t_range (e - s)) as Hd. fold d in Hd.
  unfold to_size_t at 1 2. rewrite Zminus_mod_idemp_r.
  replace (e - (s + d / 2)) with ((e - s) - d / 2) by lia.
  rewrite <- Zminus_mod_idemp_l. fold (to_size_t (e - s)). fold d.
  apply Z.mod_small.
  assert (0 <= d / 2) by (apply Z.div_pos; lia).
  assert (d / 2 <= d) by (apply Z.div_le_upper_bound; lia).
  lia.
Qed.

End MachineArith.

(** ** Sums and counts over lists *)

Section Tally.
Context {A : Type}.

Fixpoint sumZ (w : A -> Z) (l : list A) : Z :=
  match l with
  | [] => 0
  | x :: l' => w x + sumZ w l'
  end.

Fixpoint tally (p : A -> bool) (l : list A) : nat :=
  match l with
  | [] => O
  | x :: l' => ((if p x then 1 else 0) + tally p l')%nat
  end.

Lemma sumZ_app w l1 l2 : sumZ w (l1 ++ l2) = sumZ w l1 + sumZ w l2.
Proof. induction l1 as [|x l1 IH]; simpl; lia. Qed.

Lemma tally_app p l1 l2 : tally p (l1 ++ l2) = (tally p l1 + tally p l2)%nat.
Proof. induction l1 as [|x l1 IH]; simpl; lia. Qed.

Lemma sumZ_lower w l k :
  Forall (fun x => k <= w x) l -> k * Z.of_nat (length l) <= sumZ w l.
Proof. induction 1 as [|x l' Hx _ IH]; simpl length; simpl sumZ; lia. Qed.

Lemma sumZ_positive_nil w l :
  Forall (fun x => 1 <= w x) l -> sumZ w l <= 0 -> l = [].
Proof.
  intros Hall Hsum. apply sumZ_lower in Hall.
  destruct l; [reflexivity | simpl length in Hall; lia].
Qed.

Lemma tally_none p l : Forall (fun x => p x = false) l -> tally p l = O.
Proof. induction 1 as [|x l' Hx _ IH]; simpl; [|rewrite Hx]; lia. Qed.

End Tally.

(** ** ParallelFor: every schedule terminates *)

Section EvalBlocksTermination.
Import Cxx PF.
Variable NDEBUG : bool.
Abbreviation EvalBlocks_step := (PF.EvalBlocks_step NDEBUG).
Abbreviation step := (PF.step NDEBUG).
Abbreviation run := (PF.run NDEBUG).
Abbreviation ParallelFor := (PF.ParallelFor NDEBUG).

(** The number of blocks of a range as the loop test sees it. *)
Definition span (s e : Z) : Z := Z.max 1 (to_size_t (e - s)).

(** The actions a thread, or a queued closure, still has to perform. *)
Definition frame_work (f : frame) : Z :=
  match f with
  | AtLoop s e => 5 * span s e - 2
  | InCompute _ _ => 2
  | AtFetchSub => 1
  end.

Definition queued_work (r : Z * Z) : Z := 5 * span (fst r) (snd r) - 1.

Definition work_left (c : config) : Z :=
  sumZ frame_work (fst c) + sumZ queued_work (work_queue (snd c))
  + (match crashed (snd c) with Some _ => 0 | None => 1 end).

Lemma span_pos s e : 1 <= span s e.
Proof. unfold span. lia. Qed.

Lemma frame_work_pos f : 1 <= frame_work f.
Proof. destruct f as [s e| |]; simpl; try lia. pose proof (span_pos s e). lia. Qed.

Lemma queued_work_pos r : 1 <= queued_work r.
Proof. unfold queued_work. pose proof (span_pos (fst r) (snd r)). lia. Qed.

Lemma work_left_nonneg c : 0 <= work_left c.
Proof.
  unfold work_left.
  pose proof (sumZ_lower frame_work (fst c) 0) as H1.
  pose proof (sumZ_lower queued_work (work_queue (snd c)) 0) as H2.
  assert (sumZ frame_work (fst c) >= 0).
  { enough (0 * Z.of_nat (length (fst c)) <= sumZ frame_work (fst c)) by lia.
    apply sumZ_lower, Forall_forall. intros x _. pose proof (frame_work_pos x). lia. }
  assert (sumZ queued_work (work_queue (snd c)) >= 0).
  { enough (0 * Z.of_nat (length (work_queue (snd c))) <= sumZ queued_work (work_queue (snd c))) by lia.
    apply sumZ_lower, Forall_forall. intros x _. pose proof (queued_work_pos x). lia. }
  destruct (crashed (snd c)); lia.
Qed.

(** A split leaves two non-empty halves that add up to the range. *)
Lemma span_split s e :
  1 < to_size_t (e - s) ->
  let mid := to_size_t (s + to_size_t (e - s) / 2) in
  span s mid + span mid e = span s e /\ span mid e < span s e.
Proof.
  intros Hd mid. unfold span, mid.
  rewrite split_left, split_right.
  set (d := to_size_t (e - s)) in *.
  assert (1 <= d / 2) by (apply Z.div_le_lower_bound; lia).
  assert (d / 2 < d) by (apply Z.div_lt; lia).
  lia.
Qed.

Lemma thread_step_work f σ f' σ' :
  crashed σ = None ->
  EvalBlocks_step f σ = (f', σ') ->
  sumZ frame_work (resume f' []) + sumZ queued_work (work_queue σ')
  + (match crashed σ' with Some _ => 0 | None => 1 end)
  < frame_work f + sumZ queued_work (work_queue σ) + 1.
Proof.
  intros Hlive. unfold EvalBlocks_step.
  destruct (ctx σ) as [c|].
  2:{ intros [= <- <-]. simpl. lia. }
  destruct f as [s e|lo hi|].
  - destruct (1 <? to_size_t (e - s)) eqn:Hloop.
    + apply Z.ltb_lt in Hloop. intros [= <- <-]. simpl. rewrite Hlive.
      rewrite sumZ_app. simpl. unfold queued_work. simpl.
      destruct (span_split s e Hloop) as [Hsum _]. lia.
    + apply Z.ltb_ge in Hloop.
      destruct (NDEBUG || (to_size_t (e - s) =? 1)); intros [= <- <-]; simpl;
        rewrite ?Hlive; unfold span; lia.
  - intros [= <- <-]. simpl. rewrite Hlive. lia.
  - destruct (pending_blocks_ c =? 1); intros [= <- <-]; simpl; rewrite Hlive; lia.
Qed.

Lemma step_work c c' : step c c' -> work_left c' < work_left c.
Proof.
  intros Hstep. destruct Hstep as [t1 f t2 σ f' σ' Hlive Hf | ts σ q1 s e q2 Hlive Hq].
  - pose proof (thread_step_work _ _ _ _ Hlive Hf) as Hw.
    unfold work_left. simpl fst. simpl snd. rewrite Hlive.
    rewrite !sumZ_app. destruct f'; simpl in *; lia.
  - unfold work_left. simpl. rewrite Hlive, Hq. rewrite !sumZ_app. simpl.
    unfold queued_work. simpl. lia.
Qed.

Lemma nsteps_work k c c' :
  nsteps step k c c' -> Z.of_nat k + work_left c' <= work_left c.
Proof.
  induction 1 as [c | k c1 c2 c3 Hstep _ IH]; [lia|].
  apply step_work in Hstep. lia.
Qed.

(** A configuration that is not final can move. *)
Lemma step_progress c : ~ final c -> exists c', step c c'.
Proof.
  destruct c as [ts σ]. unfold final. simpl. intros Hnot.
  destruct (crashed σ) as [x|] eqn:Hlive.
  { exfalso. apply Hnot. left. discriminate. }
  destruct ts as [|f ts].
  - destruct (work_queue σ) as [|[s e] q] eqn:Hq.
    { exfalso. apply Hnot. right. split; reflexivity. }
    eexists. apply (step_start NDEBUG [] σ [] s e q Hlive Hq).
  - destruct (EvalBlocks_step f σ) as [f' σ'] eqn:Hf.
    eexists. apply (step_thread NDEBUG [] f ts σ f' σ' Hlive Hf).
Qed.

End EvalBlocksTermination.

(** ** ParallelFor: the invariant of a bisection *)

Section EventTests.
Import PF.

Definition is_compute (e : event) : bool :=
  match e with EvCompute _ _ => true | _ => false end.

Definition is_enqueue (e : event) : bool :=
  match e with EvEnqueue _ _ => true | _ => false end.

Definition is_ondone (e : event) : bool :=
  match e with EvOnDone => true | _ => false end.

Definition is_call (lo hi : Z) (e : event) : bool :=
  match e with EvCompute a b => (a =? lo) && (b =? hi) | _ => false end.

Definition is_ret (lo hi : Z) (e : event) : bool :=
  match e with EvComputeRet a b => (a =? lo) && (b =? hi) | _ => false end.

(** [compute(lo, hi)] is entered with [lo <= i < hi]. *)
Definition covering (i : Z) (e : event) : bool :=
  match e with EvCompute lo hi => (lo <=? i) && (i <? hi) | _ => false end.

Definition is_loop (f : frame) : bool :=
  match f with AtLoop _ _ => true | _ => false end.

Definition in_compute (lo hi : Z) (f : frame) : bool :=
  match f with InCompute a b => (a =? lo) && (b =? hi) | _ => false end.

End EventTests.

Section EvalBlocksInvariant.
Import Cxx PF.
Variable NDEBUG : bool.
Abbreviation EvalBlocks_step := (PF.EvalBlocks_step NDEBUG).
Abbreviation step := (PF.step NDEBUG).
Abbreviation run := (PF.run NDEBUG).
Abbreviation ParallelFor := (PF.ParallelFor NDEBUG).

(** [EvalBlocks(lo0, hi0)] is entered on a context for [n] items in blocks
    of [B] whose counter holds [hi0 - lo0]. *)
Variables n B lo0 hi0 : Z.
Hypothesis range0 : 0 <= lo0 < hi0 /\ hi0 < 2 ^ 64.

Definition entered : config :=
  ([AtLoop lo0 hi0], MkShared (Some (MkCtx n B (hi0 - lo0))) [] [] None).

Definition range_ok (r : Z * Z) : Prop := lo0 <= fst r < snd r /\ snd r <= hi0.

Definition frame_ok (f : frame) : Prop :=
  match f with AtLoop s e => range_ok (s, e) | _ => True end.

(** Blocks a thread or a queued closure still owes to the counter. *)
Definition frame_blocks (f : frame) : Z :=
  match f with AtLoop s e => e - s | _ => 1 end.

Definition task_blocks (r : Z * Z) : Z := snd r - fst r.

(** Blocks whose [compute] call has not been made yet. *)
Definition frame_unstarted (f : frame) : Z :=
  match f with AtLoop s e => e - s | _ => 0 end.

Definition outstanding (c : config) : Z :=
  sumZ frame_blocks (fst c) + sumZ task_blocks (work_queue (snd c)).

Record Inv (c : config) : Prop := {
  inv_live : crashed (snd c) = None;
  inv_frames : Forall frame_ok (fst c);
  inv_tasks : Forall range_ok (work_queue (snd c));
  inv_bound : outstanding c <= hi0 - lo0;
  inv_ctx :
    match ctx (snd c) with
    | Some x =>
      n_ x = n /\ block_size_ x = B /\ pending_blocks_ x = outstanding c
      /\ 1 <= outstanding c
      /\ tally is_ondone (trace (snd c)) = O
    | None =>
      fst c = [] /\ work_queue (snd c) = []
      /\ exists tr, trace (snd c) = EvOnDone :: tr /\ tally is_ondone tr = O
    end;
  inv_calls :
    Z.of_nat (tally is_compute (trace (snd c)))
    + sumZ frame_unstarted (fst c) + sumZ task_blocks (work_queue (snd c))
    = hi0 - lo0;
  inv_invocations :
    (tally is_compute (trace (snd c)) + tally is_loop (fst c)
     + length (work_queue (snd c)) = S (tally is_enqueue (trace (snd c))))%nat;
  inv_returns : forall lo hi,
    (tally (is_ret lo hi) (trace (snd c)) + tally (in_compute lo hi) (fst c)
     = tally (is_call lo hi) (trace (snd c)))%nat
}.

Lemma Inv_entered : Inv entered.
Proof.
  split; simpl; unfold outstanding; simpl.
  - reflexivity.
  - repeat constructor; simpl; lia.
  - constructor.
  - lia.
  - repeat split; lia.
  - lia.
  - reflexivity.
  - reflexivity.
Qed.

Lemma frame_ok_blocks f : frame_ok f -> 1 <= frame_blocks f.
Proof. destruct f; simpl; unfold range_ok; simpl; lia. Qed.

Lemma frames_blocks_pos ts : Forall frame_ok ts -> Forall (fun f => 1 <= frame_blocks f) ts.
Proof. intros H. eapply Forall_impl; [exact H | exact frame_ok_blocks]. Qed.

Lemma tasks_blocks_pos q : Forall range_ok q -> Forall (fun r => 1 <= task_blocks r) q.
Proof.
  intros H. eapply Forall_impl; [exact H |].
  intros r [H1 H2]. unfold task_blocks. lia.
Qed.

Lemma frames_blocks_nonneg ts : Forall frame_ok ts -> 0 <= sumZ frame_blocks ts.
Proof.
  intros H. apply frames_blocks_pos in H.
  apply (sumZ_lower frame_blocks ts 1) in H. lia.
Qed.

Lemma tasks_blocks_nonneg q : Forall range_ok q -> 0 <= sumZ task_blocks q.
Proof.
  intros H. apply tasks_blocks_pos in H.
  apply (sumZ_lower task_blocks q 1) in H. lia.
Qed.

(** Inside a valid range the code's modular arithmetic is exact. *)
Lemma range_exact s e :
  range_ok (s, e) ->
  to_size_t (e - s) = e - s
  /\ to_size_t (s + (e - s) / 2) = s + (e - s) / 2.
Proof.
  unfold range_ok. simpl. intros [H1 H2].
  assert (0 <= (e - s) / 2) by (apply Z.div_pos; lia).
  assert ((e - s) / 2 <= e - s) by (apply Z.div_le_upper_bound; lia).
  split; apply to_size_t_small; lia.
Qed.

Lemma range_mid s e :
  range_ok (s, e) -> 1 < e - s ->
  let mid := s + (e - s) / 2 in s < mid /\ mid < e.
Proof.
  unfold range_ok. simpl. intros [H1 H2] Hd.
  assert (1 <= (e - s) / 2) by (apply Z.div_le_lower_bound; lia).
  assert ((e - s) / 2 < e - s) by (apply Z.div_lt; lia).
  lia.
Qed.


(** A queued closure is started. *)
Lemma Inv_start ts σ q1 s e q2 :
  Inv (ts, σ) -> work_queue σ = q1 ++ (s, e) :: q2 ->
  Inv (AtLoop s e :: ts, MkShared (ctx σ) (q1 ++ q2) (trace σ) (crashed σ)).
Proof.
  intros [Hlive Hfr Htk Hbd Hctx Hcalls Hinv Hret] Hq.
  unfold outstanding in *. simpl in *. rewrite Hq in *.
  apply Forall_app in Htk as [Htk1 Htk2]. apply Forall_cons in Htk2 as [Hse Htk2].
  rewrite sumZ_app in *. rewrite length_app in *. simpl in *.
  change (task_blocks (s, e)) with (e - s) in *.
  split; unfold outstanding; simpl; rewrite ?sumZ_app, ?length_app.
  - assumption.
  - constructor; assumption.
  - apply Forall_app; split; assumption.
  - lia.
  - destruct (ctx σ) as [x|].
    + destruct Hctx as (? & ? & ? & ? & ?). repeat split; try assumption; lia.
    + destruct Hctx as (_ & Habs & _). destruct q1; discriminate.
  - lia.
  - lia.
  - intros lo hi. apply Hret.
Qed.


(** A thread performs one action. *)
Lemma Inv_thread t1 f t2 σ f' σ' :
  Inv (t1 ++ f :: t2, σ) -> EvalBlocks_step f σ = (f', σ') ->
  Inv (t1 ++ resume f' t2, σ').
Proof.
  intros [Hlive Hfr Htk Hbd Hctx Hcalls Hinv Hret].
  unfold outstanding in *. simpl in *.
  apply Forall_app in Hfr as [Hfr1 Hfr2]. apply Forall_cons in Hfr2 as [Hf Hfr2].
  rewrite !sumZ_app, ?tally_app in *. simpl in Hbd, Hctx, Hcalls, Hinv.
  assert (Hret' : forall lo hi,
    (tally (is_ret lo hi) (trace σ)
     + (tally (in_compute lo hi) t1
        + ((if in_compute lo hi f then 1 else 0) + tally (in_compute lo hi) t2))
     = tally (is_call lo hi) (trace σ))%nat).
  { intros lo hi. specialize (Hret lo hi). rewrite tally_app in Hret. exact Hret. }
  clear Hret.
  pose proof (frames_blocks_nonneg _ Hfr1) as Hn1.
  pose proof (frames_blocks_nonneg _ Hfr2) as Hn2.
  pose proof (tasks_blocks_nonneg _ Htk) as Hn3.
  unfold EvalBlocks_step.
  destruct (ctx σ) as [x|] eqn:Hx.
  2:{ destruct Hctx as (Habs & _). destruct t1; discriminate. }
  destruct Hctx as (Hxn & HxB & Hpend & Hge & Hnod).
  destruct f as [s e|lo hi|].
  - (* at the loop head *)
    simpl in Hf. destruct (range_exact s e Hf) as [Hd Hm]. rewrite Hd, Hm.
    simpl in Hbd, Hcalls, Hinv, Hpend.
    destruct (1 <? e - s) eqn:Hloop.
    + apply Z.ltb_lt in Hloop.
      destruct (range_mid s e Hf Hloop) as [Hlo Hhi].
      set (mid := s + (e - s) / 2) in *.
      intros [= <- <-].
      split; unfold outstanding; simpl; rewrite ?Hx, ?sumZ_app, ?tally_app, ?length_app;
        simpl; change (task_blocks (mid, e)) with (e - mid).
      * assumption.
      * apply Forall_app; split; [assumption|].
        constructor; [|assumption].
        simpl. unfold range_ok in *. simpl in *. lia.
      * apply Forall_app; split; [assumption|].
        repeat constructor; unfold range_ok in *; simpl in *; lia.
      * lia.
      * repeat split; try assumption; lia.
      * lia.
      * lia.
      * intros lo hi. specialize (Hret' lo hi). rewrite ?tally_app. simpl in *. lia.
    + apply Z.ltb_ge in Hloop.
      assert (He : e - s = 1) by (unfold range_ok in Hf; simpl in Hf; lia).
      rewrite He. simpl Z.eqb. rewrite orb_true_r.
      intros [= <- <-].
      split; unfold outstanding; simpl; rewrite ?Hx, ?sumZ_app, ?tally_app; simpl.
      * assumption.
      * apply Forall_app; split; [assumption|]. constructor; [exact I|assumption].
      * assumption.
      * lia.
      * repeat split; try assumption; lia.
      * lia.
      * lia.
      * intros lo hi. specialize (Hret' lo hi). rewrite ?tally_app. simpl in *.
        destruct ((to_size_t (s * block_size_ x) =? lo)
                  && (Z.min (n_ x) (to_size_t (e * block_size_ x)) =? hi))%bool; lia.
  - (* compute returns *)
    intros [= <- <-].
    split; unfold outstanding; simpl; rewrite ?Hx, ?sumZ_app, ?tally_app; simpl.
    + assumption.
    + apply Forall_app; split; [assumption|]. constructor; [exact I|assumption].
    + assumption.
    + simpl in Hbd. lia.
    + repeat split; try assumption; simpl in Hpend; lia.
    + simpl in Hcalls. lia.
    + simpl in Hinv. lia.
    + intros lo' hi'. specialize (Hret' lo' hi'). rewrite ?tally_app. simpl in *.
      destruct ((lo =? lo') && (hi =? hi'))%bool; lia.
  - (* the counter is decremented *)
    simpl in Hbd, Hcalls, Hinv, Hpend.
    destruct (pending_blocks_ x =? 1) eqn:Hone.
    + apply Z.eqb_eq in Hone.
      assert (Ht1 : t1 = []).
      { apply (sumZ_positive_nil frame_blocks); [now apply frames_blocks_pos | lia]. }
      assert (Ht2 : t2 = []).
      { apply (sumZ_positive_nil frame_blocks); [now apply frames_blocks_pos | lia]. }
      assert (Hq : work_queue σ = []).
      { apply (sumZ_positive_nil task_blocks); [now apply tasks_blocks_pos | lia]. }
      subst t1 t2. intros [= <- <-].
      split; unfold outstanding; simpl; rewrite ?Hq; simpl.
      * assumption.
      * constructor.
      * constructor.
      * lia.
      * repeat split. exists (trace σ). split; [reflexivity | assumption].
      * rewrite Hq in Hcalls. simpl in Hcalls. lia.
      * rewrite Hq in Hinv. simpl in Hinv. lia.
      * intros lo hi. specialize (Hret' lo hi). rewrite ?tally_app. simpl in *. lia.
    + apply Z.eqb_neq in Hone. intros [= <- <-].
      split; unfold outstanding; simpl; rewrite ?sumZ_app, ?tally_app; simpl.
      * assumption.
      * apply Forall_app; split; assumption.
      * assumption.
      * lia.
      * repeat split; try assumption; try lia. rewrite Hpend. rewrite to_size_t_small; lia.
      * lia.
      * lia.
      * intros lo hi. specialize (Hret' lo hi). rewrite ?tally_app. simpl in *. lia.
Qed.

Lemma Inv_step c c' : Inv c -> step c c' -> Inv c'.
Proof.
  intros HI Hstep. destruct Hstep as [t1 f t2 σ f' σ' Hlive Hf | ts σ q1 s e q2 Hlive Hq].
  - eapply Inv_thread; eassumption.
  - apply Inv_start; assumption.
Qed.

Lemma Inv_reachable c : rtc step entered c -> Inv c.
Proof.
  revert c. apply rtc_ind_r.
  - exact Inv_entered.
  - intros c c' _ Hstep HI. eapply Inv_step; eassumption.
Qed.

End EvalBlocksInvariant.

(** ** ParallelFor: termination of the bisection *)

Section EvalBlocksTotal.
Import Cxx PF.
Variable NDEBUG : bool.
Abbreviation EvalBlocks_step := (PF.EvalBlocks_step NDEBUG).
Abbreviation step := (PF.step NDEBUG).
Abbreviation run := (PF.run NDEBUG).
Abbreviation ParallelFor := (PF.ParallelFor NDEBUG).

Lemma work_left_entered n B lo hi :
  0 <= lo < hi /\ hi < 2 ^ 64 ->
  work_left (entered n B lo hi) = 5 * (hi - lo) - 1.
Proof.
  intros Hr. unfold work_left, entered. simpl. unfold span.
  rewrite to_size_t_small by lia. lia.
Qed.

(** C9: a call [EvalBlocks(lo, hi)] with [lo < hi] terminates under every
    schedule: no execution has more than [5 * (hi - lo) - 1] actions and none
    gets stuck before everything is done.  At each split
    [mid = lo + (hi - lo) / 2] lies in [[lo, hi)] (strictly above [lo], in
    fact), the thread keeps [[lo, mid)] and the closure it enqueues gets the
    strictly smaller range [[mid, hi)]; when all is done, every invocation
    (the first one and one per enqueued closure) has made exactly one
    [compute] call, [hi - lo] calls in all. *)
Theorem EvalBlocks_terminates n B lo hi :
  0 <= lo < hi /\ hi < 2 ^ 64 ->
  forall k c, nsteps step k (entered n B lo hi) c ->
    Z.of_nat k <= 5 * (hi - lo) - 1
    /\ (~ final c -> exists c', step c c')
    /\ crashed (snd c) = None
    /\ (forall s e, AtLoop s e ∈ fst c ->
          lo <= s < e /\ e <= hi
          /\ (1 < to_size_t (e - s) ->
              let mid := s + (e - s) / 2 in
              s <= mid < e /\ e - mid < e - s
              /\ forall x, ctx (snd c) = Some x ->
                   EvalBlocks_step (AtLoop s e) (snd c)
                   = (Some (AtLoop s mid), EnqueueWork mid e (snd c))))
    /\ (forall s e, (s, e) ∈ work_queue (snd c) -> lo <= s < e /\ e <= hi)
    /\ (final c ->
          tally is_compute (trace (snd c)) = S (tally is_enqueue (trace (snd c)))
          /\ Z.of_nat (tally is_compute (trace (snd c))) = hi - lo).
Proof.
  intros Hr k c Hk.
  pose proof (nsteps_work _ _ _ _ Hk) as Hwork.
  rewrite (work_left_entered n B lo hi Hr) in Hwork.
  pose proof (work_left_nonneg c) as Hpos.
  assert (HI : Inv n B lo hi c).
  { apply (Inv_reachable NDEBUG); [exact Hr|]. eapply rtc_nsteps_2. exact Hk. }
  destruct HI as [Hlive Hfr Htk Hbd Hctx Hcalls Hinv Hret].
  split; [lia|]. split; [apply step_progress|]. split; [exact Hlive|].
  split; [|split].
  - intros s e Hin.
    rewrite Forall_forall in Hfr. specialize (Hfr _ Hin).
    simpl in Hfr. destruct Hfr as [H1 H2]. simpl in H1, H2.
    split; [lia|]. split; [lia|].
    intros Hloop mid.
    assert (Hse : range_ok lo hi (s, e)) by (unfold range_ok; simpl; lia).
    destruct (range_exact lo hi Hr s e Hse) as [Hd Hm].
    rewrite Hd in Hloop.
    destruct (range_mid lo hi s e Hse Hloop) as [Hlo Hhi]. fold mid in Hlo, Hhi, Hm.
    split; [lia|]. split; [lia|].
    intros x Hx. unfold EvalBlocks_step. rewrite Hx, Hd.
    fold mid. rewrite Hm.
    destruct (1 <? e - s) eqn:Hb; [reflexivity|]. apply Z.ltb_ge in Hb. lia.
  - intros s e Hin.
    rewrite Forall_forall in Htk. specialize (Htk _ Hin).
    unfold range_ok in Htk. simpl in Htk. lia.
  - intros [Hcrash | [Hts Hq]]; [congruence|].
    rewrite Hts, Hq in *. simpl in *. split; lia.
Qed.

(** The deterministic schedule is one of the schedules. *)
Lemma run_reaches fuel c : rtc step c (run fuel c).
Proof.
  revert c. induction fuel as [|fuel IH]; intros [ts σ]; simpl; [apply rtc_refl|].
  destruct (crashed σ) eqn:Hlive; [apply rtc_refl|].
  destruct ts as [|f ts].
  - destruct (work_queue σ) as [|[s e] q] eqn:Hq; [apply rtc_refl|].
    eapply rtc_l; [|apply IH].
    pose proof (step_start NDEBUG [] σ [] s e q Hlive Hq) as Hs.
    simpl in Hs. rewrite Hlive in Hs. exact Hs.
  - destruct (EvalBlocks_step f σ) as [f' σ'] eqn:Hf.
    eapply rtc_l; [|apply IH].
    apply (step_thread NDEBUG [] f ts σ f' σ' Hlive Hf).
Qed.

End EvalBlocksTotal.

(** [EvalBlocks(0, 3)] on a context for three single-item blocks, under the
    deterministic schedule, assertions compiled in. *)
Lemma EvalBlocks_terminates_witness :
  (0 <= 0 < 3 /\ 3 < 2 ^ 64)
  /\ PF.final (PF.run false 14 (entered 3 1 0 3))
  /\ Z.of_nat (tally is_compute (PF.trace (snd (PF.run false 14 (entered 3 1 0 3))))) = 3.
Proof.
  assert (Hr : 0 <= 0 < 3 /\ 3 < 2 ^ 64) by lia.
  assert (Hfin : PF.final (PF.run false 14 (entered 3 1 0 3))).
  { right. vm_compute. split; reflexivity. }
  split; [exact Hr|]. split; [exact Hfin|].
  destruct (rtc_nsteps_1 _ _ (run_reaches false 14 (entered 3 1 0 3))) as [k Hk].
  destruct (EvalBlocks_terminates false 3 1 0 3 Hr k _ Hk) as (_ & _ & _ & _ & _ & Hdone).
  apply Hdone. exact Hfin.
Defined.

(** ** ParallelFor: the blocks cover the index range *)

Section BlockCover.
Import Cxx PF.
Variable NDEBUG : bool.
Abbreviation EvalBlocks_step := (PF.EvalBlocks_step NDEBUG).
Abbreviation step := (PF.step NDEBUG).
Abbreviation run := (PF.run NDEBUG).
Abbreviation ParallelFor := (PF.ParallelFor NDEBUG).

(** [hi0] blocks of [B] items reach [n] and stay below 2^64. *)
Variables n B hi0 : Z.
Hypothesis block_pos : 1 <= B.
Hypothesis blocks_pos : 0 < hi0.
Hypothesis blocks_reach : n <= hi0 * B.
Hypothesis blocks_fit : hi0 * B < 2 ^ 64.

(** Item [i] lies in one of the blocks [s .. e-1]. *)
Definition range_covers (i : Z) (r : Z * Z) : bool :=
  (fst r * B <=? i) && (i <? Z.min n (snd r * B)).

Definition frame_covers (i : Z) (f : frame) : bool :=
  match f with AtLoop s e => range_covers i (s, e) | _ => false end.

(** Each item is in exactly one place: a [compute] call already made, the
    range of a thread at its loop, or the range of a queued closure. *)
Definition Cover (c : config) : Prop :=
  forall i, 0 <= i < n ->
    (tally (covering i) (trace (snd c)) + tally (frame_covers i) (fst c)
     + tally (range_covers i) (work_queue (snd c)) = 1)%nat.

Lemma hi0_range : 0 <= 0 < hi0 /\ hi0 < 2 ^ 64.
Proof. nia. Qed.

Lemma Cover_entered : Cover (entered n B 0 hi0).
Proof.
  intros i Hi. simpl. unfold range_covers. simpl fst. simpl snd.
  destruct (Z.leb_spec (0 * B) i); [|lia].
  destruct (Z.ltb_spec i (Z.min n (hi0 * B))); [reflexivity | lia].
Qed.

Lemma range_covers_split i s mid e :
  s <= mid <= e ->
  ((if range_covers i (s, e) then 1 else 0)
   = (if range_covers i (s, mid) then 1 else 0)
     + (if range_covers i (mid, e) then 1 else 0))%nat.
Proof.
  intros Hm. unfold range_covers. simpl.
  assert (s * B <= mid * B) by nia.
  assert (mid * B <= e * B) by nia.
  destruct (Z.leb_spec (s * B) i), (Z.leb_spec (mid * B) i),
    (Z.ltb_spec i (Z.min n (e * B))), (Z.ltb_spec i (Z.min n (mid * B)));
    simpl; lia.
Qed.

Lemma Cover_thread t1 f t2 σ f' σ' :
  Inv n B 0 hi0 (t1 ++ f :: t2, σ) -> Cover (t1 ++ f :: t2, σ) ->
  EvalBlocks_step f σ = (f', σ') ->
  Cover (t1 ++ resume f' t2, σ').
Proof.
  intros [_ Hfr _ _ Hctx _ _ _] Hcov. simpl in Hfr, Hctx.
  apply Forall_app in Hfr as [_ Hfr]. apply Forall_cons in Hfr as [Hf _].
  unfold EvalBlocks_step.
  destruct (ctx σ) as [x|] eqn:Hx.
  2:{ destruct Hctx as (Habs & _). destruct t1; discriminate. }
  destruct Hctx as (Hxn & HxB & _).
  destruct f as [s e|lo hi|].
  - simpl in Hf. destruct (range_exact 0 hi0 hi0_range s e Hf) as [Hd Hm]. rewrite Hd, Hm.
    destruct (1 <? e - s) eqn:Hloop.
    + apply Z.ltb_lt in Hloop.
      destruct (range_mid 0 hi0 s e Hf Hloop) as [Hlo Hhi].
      set (mid := s + (e - s) / 2) in *.
      intros [= <- <-] i Hi. specialize (Hcov i Hi). simpl in *.
      rewrite !tally_app in *. simpl in *.
      pose proof (range_covers_split i s mid e ltac:(lia)). lia.
    + apply Z.ltb_ge in Hloop.
      assert (He : e = s + 1) by (unfold range_ok in Hf; simpl in Hf; lia).
      subst e. replace (s + 1 - s) with 1 by lia. simpl Z.eqb. rewrite orb_true_r.
      intros [= <- <-] i Hi. specialize (Hcov i Hi). simpl in *.
      rewrite !tally_app in *. simpl in *.
      rewrite Hxn, HxB.
      unfold range_ok in Hf. simpl in Hf.
      rewrite !to_size_t_small by nia.
      unfold range_covers in *. simpl in *. lia.
  - intros [= <- <-] i Hi. specialize (Hcov i Hi). simpl in *.
    rewrite !tally_app in *. simpl in *. lia.
  - destruct (pending_blocks_ x =? 1); intros [= <- <-] i Hi;
      specialize (Hcov i Hi); simpl in *; rewrite !tally_app in *; simpl in *; lia.
Qed.

Lemma Cover_step c c' :
  Inv n B 0 hi0 c -> Cover c -> step c c' -> Cover c'.
Proof.
  intros HI Hcov Hstep.
  destruct Hstep as [t1 f t2 σ f' σ' Hlive Hf | ts σ q1 s e q2 Hlive Hq].
  - eapply Cover_thread; eassumption.
  - intros i Hi. specialize (Hcov i Hi). simpl in *. rewrite Hq in Hcov.
    rewrite !tally_app in *. simpl in *. lia.
Qed.

Lemma Cover_reachable c :
  rtc step (entered n B 0 hi0) c -> Inv n B 0 hi0 c /\ Cover c.
Proof.
  revert c. apply rtc_ind_r.
  - split; [apply Inv_entered, hi0_range | apply Cover_entered].
  - intros c c' _ Hstep [HI Hcov]. split.
    + eapply Inv_step; [apply hi0_range | eassumption | eassumption].
    + eapply Cover_step; eassumption.
Qed.

(** When all is done, [on_done] has run once, as the last event, after every
    [compute] call has returned, and each item was passed to one call. *)
Lemma EvalBlocks_covers c :
  rtc step (entered n B 0 hi0) c ->
  crashed (snd c) = None
  /\ (final c ->
      exists tr, trace (snd c) = EvOnDone :: tr
        /\ tally is_ondone tr = O
        /\ (forall lo hi, tally (is_ret lo hi) tr = tally (is_call lo hi) tr)
        /\ (forall i, 0 <= i < n -> tally (covering i) tr = 1%nat)).
Proof.
  intros Hreach. destruct (Cover_reachable c Hreach) as [HI Hcov].
  destruct HI as [Hlive Hfr Htk Hbd Hctx Hcalls Hinv Hret].
  split; [exact Hlive|].
  intros [Hcrash | [Hts Hq]]; [congruence|].
  unfold Cover in Hcov. unfold outstanding in *. rewrite Hts, Hq in *. simpl in *.
  destruct (ctx (snd c)) as [x|].
  { pose proof hi0_range. lia. }
  destruct Hctx as (_ & _ & tr & Htr & Hnod).
  exists tr. rewrite Htr in *. simpl in *.
  split; [reflexivity|]. split; [exact Hnod|]. split.
  - intros lo hi. specialize (Hret lo hi). lia.
  - intros i Hi. specialize (Hcov i Hi). lia.
Qed.

End BlockCover.

(** ** ParallelFor: the call itself *)

Section ParallelForCall.
Import Cxx PF.
Variable NDEBUG : bool.
Abbreviation EvalBlocks_step := (PF.EvalBlocks_step NDEBUG).
Abbreviation step := (PF.step NDEBUG).
Abbreviation run := (PF.run NDEBUG).
Abbreviation ParallelFor := (PF.ParallelFor NDEBUG).

(** The exact quotient, rounded up. *)
Definition ceil_div (n B : Z) : Z := (n + B - 1) / B.

Lemma oversharding_divisor P :
  1 <= P < 2 ^ 31 -> to_size_t (kMaxOversharding * to_size_t P) = 4 * P.
Proof.
  intros HP. unfold kMaxOversharding.
  rewrite (to_size_t_small P) by lia. apply to_size_t_small. lia.
Qed.

Lemma block_size_of_spec P n mb :
  1 <= P < 2 ^ 31 -> block_size_of P n mb = Z.max mb (n / (4 * P)).
Proof. intros HP. unfold block_size_of. now rewrite oversharding_divisor. Qed.

(** The single-block path. *)
Lemma ParallelFor_single_block P n mb :
  1 <= P < 2 ^ 31 -> 1 <= mb -> n <= block_size_of P n mb ->
  ParallelFor P n mb
  = ([], MkShared None [] [EvOnDone; EvComputeRet 0 n; EvCompute 0 n] None).
Proof.
  intros HP Hmb Hn. unfold PF.ParallelFor.
  rewrite oversharding_divisor by exact HP.
  destruct (Z.eqb_spec (4 * P) 0) as [H0|_]; [lia|].
  destruct (Z.leb_spec 1 mb) as [_|]; [|lia]. rewrite orb_true_r. simpl negb. cbv iota.
  destruct (Z.leb_spec 1 (block_size_of P n mb)) as [_|Hb].
  2:{ unfold block_size_of in Hb. lia. }
  rewrite orb_true_r. simpl negb. cbv iota.
  destruct (Z.leb_spec n (block_size_of P n mb)) as [_|]; [reflexivity | lia].
Qed.

(** The path through the heap context, as long as [n + B - 1] does not wrap
    and the block count fits an [int]. *)
Lemma ParallelFor_spawns P n mb :
  1 <= P < 2 ^ 31 -> 1 <= mb ->
  let B := block_size_of P n mb in
  B < n -> n + B - 1 < 2 ^ 64 -> (n + B - 1) / B < 2 ^ 31 ->
  ParallelFor P n mb = entered n B 0 ((n + B - 1) / B).
Proof.
  intros HP Hmb B Hn Hfit Hint. unfold PF.ParallelFor.
  rewrite oversharding_divisor by exact HP.
  destruct (Z.eqb_spec (4 * P) 0) as [H0|_]; [lia|].
  destruct (Z.leb_spec 1 mb) as [_|]; [|lia]. rewrite orb_true_r. simpl negb. cbv iota.
  fold B.
  assert (HB : 1 <= B) by (unfold B, block_size_of; lia).
  destruct (Z.leb_spec 1 B) as [_|]; [|lia]. rewrite orb_true_r. simpl negb. cbv iota.
  destruct (Z.leb_spec n B) as [|_]; [lia|].
  destruct (Z.eqb_spec B 0) as [|_]; [lia|].
  assert (Hnb : 0 <= (n + B - 1) / B) by (apply Z.div_pos; lia).
  unfold entered, Allocate, PendingBlocks, DivUp, set_ctx. simpl.
  rewrite (to_size_t_small (n + B - 1)) by lia.
  rewrite to_int_small by lia. rewrite to_size_t_small by lia.
  rewrite Z.sub_0_r. reflexivity.
Qed.

(** Nothing moves once the single-block path has returned. *)
Lemma idle_stays σ c :
  work_queue σ = [] -> rtc step ([], σ) c -> c = ([], σ).
Proof.
  intros Hq Hreach. remember ([], σ) as c0 eqn:Hc0.
  destruct Hreach as [|c1 c2 c3 Hstep _]; [reflexivity|]. subst c1.
  inversion Hstep as [t1 f t2 σ0 f' σ' Hlive Hf Heq | ts σ0 q1 s e q2 Hlive Hq' Heq].
  - destruct t1; discriminate.
  - rewrite Hq in Hq'. destruct q1; discriminate.
Qed.

(** The only move of a lone thread, with nothing queued, is its next action. *)
Lemma lone_thread_step f σ c' :
  work_queue σ = [] -> step ([f], σ) c' ->
  crashed σ = None
  /\ c' = (resume (fst (EvalBlocks_step f σ)) [], snd (EvalBlocks_step f σ)).
Proof.
  intros Hq Hstep.
  inversion Hstep as [t1 f0 t2 σ0 f' σ' Hlive Hf Heq | ts σ0 q1 s e q2 Hlive Hq' Heq].
  - destruct t1 as [|a t1].
    + simpl in Heq. injection Heq as Hf0 Ht2. subst f0 t2. rewrite Hf. simpl. auto.
    + destruct t1; discriminate Heq.
  - rewrite Hq in Hq'. destruct q1; discriminate Hq'.
Qed.

(** Ceiling division, when nothing wraps. *)
Lemma div_up_reaches n B : 1 <= B -> n <= (n + B - 1) / B * B.
Proof.
  intros HB. pose proof (Z.div_mod (n + B - 1) B ltac:(lia)) as Hdm.
  pose proof (Z.mod_pos_bound (n + B - 1) B ltac:(lia)). nia.
Qed.

Lemma div_up_fits n B : 1 <= B -> 0 <= n -> (n + B - 1) / B * B <= n + B - 1.
Proof.
  intros HB Hn. pose proof (Z.div_mod (n + B - 1) B ltac:(lia)) as Hdm.
  pose proof (Z.mod_pos_bound (n + B - 1) B ltac:(lia)). nia.
Qed.

(** X1: as long as [n + B - 1] does not wrap and the block count fits an
    [int], under every schedule nothing fails, the [compute] calls partition
    [[0, n)] and [on_done] runs once, after all of them have returned. *)
Theorem ParallelFor_partition P n mb :
  1 <= P < 2 ^ 31 -> 1 <= n -> 1 <= mb ->
  let B := block_size_of P n mb in
  n + B - 1 < 2 ^ 64 -> (n + B - 1) / B < 2 ^ 31 ->
  forall c, rtc step (ParallelFor P n mb) c ->
    crashed (snd c) = None
    /\ (final c ->
        exists tr, trace (snd c) = EvOnDone :: tr
          /\ tally is_ondone tr = O
          /\ (forall lo hi, tally (is_ret lo hi) tr = tally (is_call lo hi) tr)
          /\ (forall i, 0 <= i < n -> tally (covering i) tr = 1%nat)).
Proof.
  intros HP Hn Hmb B Hfit Hint c Hreach.
  assert (HB : 1 <= B) by (unfold B, block_size_of; lia).
  destruct (Z.le_gt_cases n B) as [Hsync|Hasync].
  - rewrite (ParallelFor_single_block P n mb HP Hmb Hsync) in Hreach.
    apply idle_stays in Hreach; [|reflexivity]. subst c. simpl.
    split; [reflexivity|]. intros _.
    exists [EvComputeRet 0 n; EvCompute 0 n]. split; [reflexivity|].
    split; [reflexivity|]. split.
    + intros lo hi. simpl. lia.
    + intros i Hi. simpl.
      destruct (Z.leb_spec 0 i); [|lia]. destruct (Z.ltb_spec i n); [reflexivity|lia].
  - rewrite (ParallelFor_spawns P n mb HP Hmb Hasync Hfit Hint) in Hreach. fold B in Hreach.
    pose proof (div_up_reaches n B HB) as Hreachn.
    pose proof (div_up_fits n B HB ltac:(lia)) as Hfits.
    assert (Hpos : 0 < (n + B - 1) / B).
    { apply Z.div_str_pos. lia. }
    apply (EvalBlocks_covers NDEBUG n B ((n + B - 1) / B) HB Hpos Hreachn ltac:(lia) c Hreach).
Qed.

(** C10: with [n = 0] the call takes the single-block path: [compute(0, 0)]
    is called once and returns, then [on_done()] is called once, all by the
    caller; no context is allocated, nothing is enqueued, and nothing else
    ever happens. *)
Theorem ParallelFor_empty P mb :
  1 <= P < 2 ^ 31 -> 1 <= mb ->
  ParallelFor P 0 mb
  = ([], MkShared None [] [EvOnDone; EvComputeRet 0 0; EvCompute 0 0] None)
  /\ forall c, rtc step (ParallelFor P 0 mb) c -> c = ParallelFor P 0 mb.
Proof.
  intros HP Hmb.
  assert (Hsync : 0 <= block_size_of P 0 mb) by (unfold block_size_of; lia).
  pose proof (ParallelFor_single_block P 0 mb HP Hmb Hsync) as Hcall.
  split; [exact Hcall|].
  intros c Hreach. rewrite Hcall in *.
  apply idle_stays in Hreach; [exact Hreach | reflexivity].
Qed.

End ParallelForCall.

(** 1000 items, [min_block_size = 1], four worker threads, under the
    deterministic schedule: 17 blocks of 62 items (the last one shorter). *)
Lemma ParallelFor_partition_witness :
  (1 <= 4 < 2 ^ 31 /\ 1 <= 1000 /\ 1 <= 1
   /\ 1000 + PF.block_size_of 4 1000 1 - 1 < 2 ^ 64
   /\ (1000 + PF.block_size_of 4 1000 1 - 1) / PF.block_size_of 4 1000 1 < 2 ^ 31)
  /\ PF.final (PF.run false 100 (PF.ParallelFor false 4 1000 1))
  /\ exists tr,
       PF.trace (snd (PF.run false 100 (PF.ParallelFor false 4 1000 1))) = PF.EvOnDone :: tr
       /\ tally is_ondone tr = O
       /\ forall i, 0 <= i < 1000 -> tally (covering i) tr = 1%nat.
Proof.
  assert (Hfin : PF.final (PF.run false 100 (PF.ParallelFor false 4 1000 1))).
  { right. vm_compute. split; reflexivity. }
  split; [vm_compute; intuition discriminate|]. split; [exact Hfin|].
  assert (Hpart := ParallelFor_partition false 4 1000 1).
  destruct Hpart with (c := PF.run false 100 (PF.ParallelFor false 4 1000 1))
    as [_ Hdone]; try (vm_compute; intuition discriminate).
  { apply run_reaches. }
  destruct (Hdone Hfin) as (tr & Htr & Hnone & _ & Hcover).
  exists tr. split; [exact Htr|]. split; [exact Hnone | exact Hcover].
Defined.

(** X2: what the call does before any block runs: the block size, the
    single-block path, and, as long as [n + B - 1] does not wrap and the
    block count fits an [int], the context with its counter and the range
    [EvalBlocks] is entered with. *)
Theorem ParallelFor_dispatch (ndebug : bool) (P n mb : Z) :
  1 <= P < 2 ^ 31 -> 1 <= mb ->
  let B := PF.block_size_of P n mb in
  B = Z.max mb (n / (4 * P))
  /\ (n <= B ->
      PF.ParallelFor ndebug P n mb
      = ([], PF.MkShared None [] [PF.EvOnDone; PF.EvComputeRet 0 n; PF.EvCompute 0 n] None))
  /\ (B < n -> n + B - 1 < 2 ^ 64 -> ceil_div n B < 2 ^ 31 ->
      PF.ParallelFor ndebug P n mb
      = ([PF.AtLoop 0 (ceil_div n B)],
         PF.MkShared (Some (PF.MkCtx n B (ceil_div n B))) [] [] None)).
Proof.
  intros HP Hmb B. split; [apply block_size_of_spec, HP|]. split.
  - intros Hn. apply ParallelFor_single_block; assumption.
  - intros Hn Hfit Hint.
    rewrite (ParallelFor_spawns ndebug P n mb HP Hmb Hn Hfit Hint).
    unfold entered, ceil_div. fold B. rewrite Z.sub_0_r. reflexivity.
Qed.

Lemma ParallelFor_dispatch_witness :
  (1 <= 4 < 2 ^ 31 /\ 1 <= 1)
  /\ PF.block_size_of 4 1000 1 = 62
  /\ PF.ParallelFor false 4 1000 1
     = ([PF.AtLoop 0 17], PF.MkShared (Some (PF.MkCtx 1000 62 17)) [] [] None).
Proof.
  split; [lia|].
  destruct (ParallelFor_dispatch false 4 1000 1 ltac:(lia) ltac:(lia)) as (HB & _ & Hheap).
  split; [vm_compute; reflexivity|].
  rewrite Hheap by (vm_compute; reflexivity). vm_compute. reflexivity.
Defined.

Lemma ParallelFor_empty_witness :
  (1 <= 4 < 2 ^ 31 /\ 1 <= 1)
  /\ PF.ParallelFor false 4 0 1
     = ([], PF.MkShared None [] [PF.EvOnDone; PF.EvComputeRet 0 0; PF.EvCompute 0 0] None).
Proof.
  split; [lia|].
  exact (proj1 (ParallelFor_empty false 4 1 ltac:(lia) ltac:(lia))).
Defined.

(** ** ParallelFor: where the machine integers give way *)

Section ParallelForWraps.
Import Cxx PF.

(** C1 fails on the code: [ParallelFor(SIZE_MAX, ..., min_block_size = 1)]
    with one worker thread.  The block size is 2^62 - 1, so the call takes the
    heap path, but [DivUp] wraps and the context is built with no pending
    block.  [EvalBlocks(0, 0)] then runs into its assertion; without the
    assertion it calls [compute(0, 0)] and takes the counter from 0 to
    2^64 - 1.  Either way, under every schedule no item is ever passed to
    [compute] and [on_done] never runs. *)
Theorem ParallelFor_wraps_never_done (ndebug : bool) :
  ParallelFor ndebug 1 (2 ^ 64 - 1) 1
  = ([AtLoop 0 0], MkShared (Some (MkCtx (2 ^ 64 - 1) (2 ^ 62 - 1) 0)) [] [] None)
  /\ forall c, rtc (step ndebug) (ParallelFor ndebug 1 (2 ^ 64 - 1) 1) c ->
       tally is_ondone (trace (snd c)) = O
       /\ (forall i, tally (covering i) (trace (snd c)) = O)
       /\ (final c ->
           if ndebug
           then ctx (snd c) = Some (MkCtx (2 ^ 64 - 1) (2 ^ 62 - 1) (2 ^ 64 - 1))
           else crashed (snd c) = Some AssertionFailed).
Proof.
  assert (Hcall : ParallelFor ndebug 1 (2 ^ 64 - 1) 1
    = ([AtLoop 0 0], MkShared (Some (MkCtx (2 ^ 64 - 1) (2 ^ 62 - 1) 0)) [] [] None))
    by (destruct ndebug; vm_compute; reflexivity).
  split; [exact Hcall|]. rewrite Hcall.
  assert (Hcover : forall i, (0 <=? i) && (i <? 0) = false).
  { intros i. destruct (Z.leb_spec 0 i), (Z.ltb_spec i 0); simpl; try reflexivity. lia. }
  set (x0 := MkCtx (2 ^ 64 - 1) (2 ^ 62 - 1) 0).
  set (σ0 := MkShared (Some x0) [] [] None).
  destruct ndebug.
  - (* assertions compiled out *)
    set (σ1 := log (EvCompute 0 0) σ0).
    set (σ2 := log (EvComputeRet 0 0) σ1).
    set (σ3 := set_ctx (Some (MkCtx (2 ^ 64 - 1) (2 ^ 62 - 1) (2 ^ 64 - 1))) σ2).
    assert (Hall : forall c, rtc (step true) ([AtLoop 0 0], σ0) c ->
              c = ([AtLoop 0 0], σ0) \/ c = ([InCompute 0 0], σ1)
              \/ c = ([AtFetchSub], σ2) \/ c = ([], σ3)).
    { apply rtc_ind_r; [left; reflexivity|].
      intros c c' _ Hstep [-> | [-> | [-> | ->]]].
      - right. left. apply lone_thread_step in Hstep as [_ ->]; reflexivity.
      - right. right. left. apply lone_thread_step in Hstep as [_ ->]; reflexivity.
      - right. right. right. apply lone_thread_step in Hstep as [_ ->]; reflexivity.
      - right. right. right. apply (idle_stays true σ3 c' eq_refl).
        eapply rtc_l; [exact Hstep | apply rtc_refl]. }
    intros c Hreach.
    destruct (Hall c Hreach) as [-> | [-> | [-> | ->]]]; simpl;
      (split; [reflexivity|]); (split; [intros i; rewrite ?Hcover; reflexivity|]).
    + intros [Hcr | [Hts _]]; [now destruct Hcr | discriminate].
    + intros [Hcr | [Hts _]]; [now destruct Hcr | discriminate].
    + intros [Hcr | [Hts _]]; [now destruct Hcr | discriminate].
    + intros _. reflexivity.
  - (* assertions compiled in *)
    assert (Hall : forall c, rtc (step false) ([AtLoop 0 0], σ0) c ->
              c = ([AtLoop 0 0], σ0) \/ c = ([AtLoop 0 0], crash AssertionFailed σ0)).
    { apply rtc_ind_r; [left; reflexivity|].
      intros c c' _ Hstep [-> | ->].
      - right. apply lone_thread_step in Hstep as [_ ->]; reflexivity.
      - apply lone_thread_step in Hstep as [Hlive _]; [discriminate Hlive | reflexivity]. }
    intros c Hreach. destruct (Hall c Hreach) as [-> | ->]; simpl;
      (split; [reflexivity|]); (split; [intros i; reflexivity|]).
    + intros [Hcr | [Hts _]]; [now destruct Hcr | discriminate].
    + intros _. reflexivity.
Qed.

(** C4 fails on the same input: 2^62 - 1 < SIZE_MAX, so the heap path is
    taken and five blocks are needed, but the counter is initialised to 0.
    A second input, 2^31 single-item blocks with 2^29 worker threads: the
    counter is right, but [PendingBlocks()] returns an [int], and
    [EvalBlocks] is entered with 2^64 - 2^31 as its end block. *)
Theorem ParallelFor_pending_wraps (ndebug : bool) :
  (block_size_of 1 (2 ^ 64 - 1) 1 = 2 ^ 62 - 1
   /\ ceil_div (2 ^ 64 - 1) (2 ^ 62 - 1) = 5
   /\ ParallelFor ndebug 1 (2 ^ 64 - 1) 1
      = ([AtLoop 0 0], MkShared (Some (MkCtx (2 ^ 64 - 1) (2 ^ 62 - 1) 0)) [] [] None))
  /\ (block_size_of (2 ^ 29) (2 ^ 31) 1 = 1
      /\ ceil_div (2 ^ 31) 1 = 2 ^ 31
      /\ ParallelFor ndebug (2 ^ 29) (2 ^ 31) 1
         = ([AtLoop 0 (2 ^ 64 - 2 ^ 31)],
            MkShared (Some (MkCtx (2 ^ 31) 1 (2 ^ 31))) [] [] None)).
Proof. destruct ndebug; vm_compute; repeat split; reflexivity. Qed.

End ParallelForWraps.

(** ** ParallelFor: the number and the shape of the blocks *)

Section BlockCount.
Import Cxx PF.

Lemma DivUp_exact x y :
  0 <= x -> 1 <= y -> x + y - 1 < 2 ^ 64 -> DivUp x y = ceil_div x y.
Proof.
  intros Hx Hy Hfit. unfold DivUp, ceil_div. rewrite to_size_t_small by lia. reflexivity.
Qed.

(** X8: [DivUp] is the quotient rounded up as long as [x + y - 1] fits a
    [size_t], and 0 as soon as it does not. *)
Theorem DivUp_spec x y :
  0 <= x < 2 ^ 64 -> 1 <= y < 2 ^ 64 ->
  (x + y - 1 < 2 ^ 64 -> x <= DivUp x y * y < x + y)
  /\ (2 ^ 64 <= x + y - 1 -> DivUp x y = 0).
Proof.
  intros Hx Hy. split.
  - intros Hfit. rewrite DivUp_exact by lia. unfold ceil_div.
    pose proof (div_up_reaches x y ltac:(lia)).
    pose proof (div_up_fits x y ltac:(lia) ltac:(lia)). lia.
  - intros Hwrap. unfold DivUp, to_size_t.
    replace (x + y - 1) with ((x + y - 1 - 2 ^ 64) + 1 * 2 ^ 64) by lia.
    rewrite Z_mod_plus_full. rewrite Z.mod_small by lia.
    apply Z.div_small. lia.
Qed.

Lemma DivUp_spec_witness :
  (0 <= 1000 < 2 ^ 64 /\ 1 <= 62 < 2 ^ 64 /\ 1000 + 62 - 1 < 2 ^ 64)
  /\ 1000 <= DivUp 1000 62 * 62 < 1000 + 62
  /\ (0 <= 2 ^ 64 - 1 < 2 ^ 64 /\ 1 <= 2 < 2 ^ 64 /\ 2 ^ 64 <= 2 ^ 64 - 1 + 2 - 1)
  /\ DivUp (2 ^ 64 - 1) 2 = 0.
Proof.
  split; [lia|]. split.
  - exact (proj1 (DivUp_spec 1000 62 ltac:(lia) ltac:(lia)) ltac:(lia)).
  - split; [lia|].
    exact (proj2 (DivUp_spec (2 ^ 64 - 1) 2 ltac:(lia) ltac:(lia)) ltac:(lia)).
Defined.

Lemma quotient_below P n : 1 <= P -> 1 <= n -> n / (4 * P) < n.
Proof.
  intros HP Hn. apply Z.div_lt_upper_bound; nia.
Qed.

Lemma block_size_pos P n mb : 1 <= P < 2 ^ 31 -> 1 <= mb -> 1 <= block_size_of P n mb.
Proof. intros HP Hmb. rewrite block_size_of_spec by exact HP. lia. Qed.

Lemma inline_iff P n mb :
  1 <= P < 2 ^ 31 -> 1 <= mb -> 0 <= n ->
  (n <= block_size_of P n mb <-> n <= mb).
Proof.
  intros HP Hmb Hn. rewrite block_size_of_spec by exact HP.
  destruct (Z.eq_dec n 0) as [->|Hnz]; [rewrite Z.div_0_l by lia; lia|].
  pose proof (quotient_below P n ltac:(lia) ltac:(lia)). lia.
Qed.

(** X3: the call runs [compute] and [on_done] itself exactly when
    [n <= min_block_size]; the number of worker threads and the oversharding
    factor have no say in this. *)
Theorem ParallelFor_inline_iff (ndebug : bool) (P n mb : Z) :
  1 <= P < 2 ^ 31 -> 1 <= mb -> 0 <= n ->
  (ParallelFor ndebug P n mb
   = ([], MkShared None [] [EvOnDone; EvComputeRet 0 n; EvCompute 0 n] None)
   <-> n <= mb)
  /\ (mb < n -> exists end_block c,
        ParallelFor ndebug P n mb = ([AtLoop 0 end_block], MkShared (Some c) [] [] None)
        /\ n_ c = n /\ block_size_ c = Z.max mb (n / (4 * P))).
Proof.
  intros HP Hmb Hn.
  pose proof (inline_iff P n mb HP Hmb Hn) as Hiff.
  pose proof (block_size_pos P n mb HP Hmb) as HB.
  assert (Hheap : mb < n -> exists end_block c,
            ParallelFor ndebug P n mb = ([AtLoop 0 end_block], MkShared (Some c) [] [] None)
            /\ n_ c = n /\ block_size_ c = Z.max mb (n / (4 * P))).
  { intros Hbig. unfold ParallelFor.
    rewrite oversharding_divisor by exact HP.
    destruct (Z.eqb_spec (4 * P) 0) as [H0|_]; [lia|].
    destruct (Z.leb_spec 1 mb) as [_|]; [|lia]. rewrite orb_true_r. simpl negb. cbv iota.
    destruct (Z.leb_spec 1 (block_size_of P n mb)) as [_|]; [|lia].
    rewrite orb_true_r. simpl negb. cbv iota.
    destruct (Z.leb_spec n (block_size_of P n mb)) as [Hle|_]; [lia|].
    destruct (Z.eqb_spec (block_size_of P n mb) 0) as [|_]; [lia|].
    eexists. eexists. split; [reflexivity|]. simpl.
    split; [reflexivity | apply block_size_of_spec, HP]. }
  split; [|exact Hheap]. split.
  - intros Hcall. destruct (Z.le_gt_cases n mb) as [Hle|Hgt]; [exact Hle|].
    destruct (Hheap ltac:(lia)) as (e & c & Heq & _). rewrite Heq in Hcall. discriminate Hcall.
  - intros Hle. apply ParallelFor_single_block; [exact HP | exact Hmb | lia].
Qed.

(** 100 items with [min_block_size = 100] are computed by the caller, 101
    are not, whatever the number of worker threads. *)
Lemma ParallelFor_inline_iff_witness :
  (1 <= 64 < 2 ^ 31 /\ 1 <= 100 /\ 0 <= 100)
  /\ ParallelFor false 64 100 100
     = ([], MkShared None [] [EvOnDone; EvComputeRet 0 100; EvCompute 0 100] None)
  /\ (1 <= 64 < 2 ^ 31 /\ 1 <= 100 /\ 0 <= 101)
  /\ exists end_block c,
       ParallelFor false 64 101 100 = ([AtLoop 0 end_block], MkShared (Some c) [] [] None)
       /\ n_ c = 101 /\ block_size_ c = Z.max 100 (101 / (4 * 64)).
Proof.
  split; [lia|]. split.
  - exact (proj2 (proj1 (ParallelFor_inline_iff false 64 100 100
                           ltac:(lia) ltac:(lia) ltac:(lia))) ltac:(lia)).
  - split; [lia|].
    exact (proj2 (ParallelFor_inline_iff false 64 101 100 ltac:(lia) ltac:(lia) ltac:(lia))
                 ltac:(lia)).
Defined.

(** Fewer than [2 * kMaxOversharding * P] blocks. *)
Lemma block_count_bound P n mb :
  1 <= P < 2 ^ 31 -> 1 <= mb ->
  let B := block_size_of P n mb in
  B < n -> 2 <= ceil_div n B <= 2 * kMaxOversharding * P - 1.
Proof.
  intros HP Hmb B Hn.
  assert (HB : 1 <= B) by (apply block_size_pos; assumption).
  assert (HBq : n / (4 * P) <= B /\ mb <= B).
  { unfold B. rewrite block_size_of_spec by exact HP. lia. }
  unfold ceil_div, kMaxOversharding. split.
  - apply Z.div_le_lower_bound; lia.
  - enough ((n + B - 1) / B < 8 * P) by lia.
    apply Z.div_lt_upper_bound; [lia|].
    pose proof (Z.div_mod n (4 * P) ltac:(lia)) as Hdm.
    pose proof (Z.mod_pos_bound n (4 * P) ltac:(lia)) as Hmod.
    nia.
Qed.

End BlockCount.

Section BlockShape.
Import Cxx PF.
Variable NDEBUG : bool.
Abbreviation EvalBlocks_step := (PF.EvalBlocks_step NDEBUG).
Abbreviation step := (PF.step NDEBUG).
Abbreviation run := (PF.run NDEBUG).
Abbreviation ParallelFor := (PF.ParallelFor NDEBUG).

(** [hi0] blocks of [B] items reach [n] and stay below 2^64, and the last
    block is not empty. *)
Variables n B hi0 : Z.
Hypothesis size_pos : 1 <= B.
Hypothesis count_pos : 0 < hi0.
Hypothesis count_reach : n <= hi0 * B.
Hypothesis count_fit : hi0 * B < 2 ^ 64.
Hypothesis last_block : (hi0 - 1) * B < n.

(** The items of block [k]. *)
Definition block_lo (k : Z) : Z := k * B.
Definition block_hi (k : Z) : Z := Z.min n ((k + 1) * B).

(** A [compute] call is made for one of the blocks. *)
Definition block_call (e : event) : Prop :=
  match e with
  | EvCompute lo hi => exists k, 0 <= k < hi0 /\ lo = block_lo k /\ hi = block_hi k
  | _ => True
  end.

Lemma Shape_thread t1 f t2 σ f' σ' :
  Inv n B 0 hi0 (t1 ++ f :: t2, σ) -> Forall block_call (trace σ) ->
  EvalBlocks_step f σ = (f', σ') ->
  Forall block_call (trace σ').
Proof.
  intros [_ Hfr _ _ Hctx _ _ _] Hshape. simpl in Hfr, Hctx.
  apply Forall_app in Hfr as [_ Hfr]. apply Forall_cons in Hfr as [Hf _].
  unfold PF.EvalBlocks_step.
  destruct (ctx σ) as [x|] eqn:Hx.
  2:{ intros [= <- <-]. exact Hshape. }
  destruct Hctx as (Hxn & HxB & _).
  destruct f as [s e|lo hi|].
  - simpl in Hf.
    destruct (range_exact 0 hi0 (hi0_range B hi0 size_pos count_pos count_fit) s e Hf)
      as [Hd Hm].
    rewrite Hd. unfold range_ok in Hf. simpl in Hf.
    destruct (1 <? e - s) eqn:Hloop.
    + intros [= <- <-]. simpl. constructor; [exact I | exact Hshape].
    + apply Z.ltb_ge in Hloop.
      assert (He : e = s + 1) by lia. subst e.
      replace (s + 1 - s) with 1 by lia. simpl Z.eqb. rewrite orb_true_r.
      intros [= <- <-]. simpl. constructor; [|exact Hshape].
      exists s. rewrite Hxn, HxB. unfold block_lo, block_hi.
      rewrite !to_size_t_small by nia. repeat split; lia.
  - intros [= <- <-]. simpl. constructor; [exact I | exact Hshape].
  - destruct (pending_blocks_ x =? 1); intros [= <- <-]; simpl;
      [constructor; [exact I | exact Hshape] | exact Hshape].
Qed.

Lemma Shape_reachable c :
  rtc step (entered n B 0 hi0) c ->
  Inv n B 0 hi0 c /\ Cover n B c /\ Forall block_call (trace (snd c)).
Proof.
  revert c. apply rtc_ind_r.
  - split; [apply Inv_entered, (hi0_range B hi0 size_pos count_pos count_fit)|].
    split; [apply Cover_entered; assumption | constructor].
  - intros c c' Hreach Hstep (HI & Hcov & Hshape).
    split; [|split].
    + eapply Inv_step;
        [apply (hi0_range B hi0 size_pos count_pos count_fit) | eassumption | eassumption].
    + eapply (Cover_step NDEBUG n B hi0); eassumption.
    + destruct Hstep as [t1 f t2 σ f' σ' Hlive Hf | ts σ q1 s e q2 Hlive Hq].
      * eapply Shape_thread; eassumption.
      * exact Hshape.
Qed.

Lemma tally_agree {A} (Q : A -> Prop) (p q : A -> bool) l :
  Forall Q l -> (forall x, Q x -> p x = q x) -> tally p l = tally q l.
Proof.
  intros Hall Hpq. induction Hall as [|x l Hx _ IH]; simpl; [reflexivity|].
  rewrite (Hpq x Hx), IH. reflexivity.
Qed.

(** A call for a block is the one call that covers the block's first item. *)
Lemma block_call_covering k e :
  0 <= k < hi0 -> block_call e ->
  is_call (block_lo k) (block_hi k) e = covering (block_lo k) e.
Proof.
  intros Hk. destruct e as [lo hi|lo hi|m e'|]; simpl; try reflexivity.
  intros (k' & Hk' & -> & ->). unfold block_lo, block_hi.
  assert (Hkn : k * B < n) by nia.
  destruct (Z.lt_trichotomy k' k) as [Hlt | [-> | Hgt]].
  - assert ((k' + 1) * B <= k * B) by nia.
    destruct (Z.eqb_spec (k' * B) (k * B)); [nia|].
    destruct (Z.leb_spec (k' * B) (k * B)); [|nia].
    destruct (Z.ltb_spec (k * B) (Z.min n ((k' + 1) * B))); [lia | reflexivity].
  - rewrite !Z.eqb_refl.
    destruct (Z.leb_spec (k * B) (k * B)); [|lia].
    destruct (Z.ltb_spec (k * B) (Z.min n ((k + 1) * B))); [reflexivity | nia].
  - assert (k * B < k' * B) by nia.
    destruct (Z.eqb_spec (k' * B) (k * B)); [lia|].
    destruct (Z.leb_spec (k' * B) (k * B)); [lia | reflexivity].
Qed.

Lemma block_nonempty k : 0 <= k < hi0 -> block_lo k < block_hi k <= block_lo k + B.
Proof. unfold block_lo, block_hi. intros Hk. nia. Qed.

(** When all is done, each block was passed to [compute] once, and nothing
    else was. *)
Lemma EvalBlocks_blocks_once c :
  rtc step (entered n B 0 hi0) c -> final c ->
  (forall k, 0 <= k < hi0 ->
     tally (is_call (block_lo k) (block_hi k)) (trace (snd c)) = 1%nat)
  /\ Forall block_call (trace (snd c))
  /\ Z.of_nat (tally is_compute (trace (snd c))) = hi0
  /\ Z.of_nat (tally is_enqueue (trace (snd c))) = hi0 - 1.
Proof.
  intros Hreach Hfin. destruct (Shape_reachable c Hreach) as (HI & Hcov & Hshape).
  destruct HI as [Hlive Hfr Htk Hbd Hctx Hcalls Hinv Hret].
  destruct Hfin as [Hcrash | [Hts Hq]]; [congruence|].
  unfold Cover in Hcov. rewrite Hts, Hq in *. simpl in *.
  split; [|split; [exact Hshape | split; lia]].
  intros k Hk.
  rewrite (tally_agree block_call _ (covering (block_lo k)) _ Hshape
             (fun e He => block_call_covering k e Hk He)).
  pose proof (block_nonempty k Hk) as Hne.
  assert (Hi : 0 <= block_lo k < n) by (unfold block_lo, block_hi in *; nia).
  specialize (Hcov _ Hi). lia.
Qed.

(** The counter holds the blocks not yet passed to [compute] and the
    threads between their [compute] call and their decrement. *)
Lemma EvalBlocks_counter c :
  rtc step (entered n B 0 hi0) c ->
  match ctx (snd c) with
  | Some x =>
    pending_blocks_ x
    = hi0 - Z.of_nat (tally is_compute (trace (snd c)))
      + Z.of_nat (tally (fun f => negb (is_loop f)) (fst c))
    /\ 1 <= pending_blocks_ x <= hi0
    /\ Z.of_nat (length (fst c) + length (work_queue (snd c))) <= pending_blocks_ x
    /\ tally is_ondone (trace (snd c)) = O
  | None =>
    fst c = [] /\ work_queue (snd c) = [] /\ tally is_ondone (trace (snd c)) = 1%nat
  end.
Proof.
  intros Hreach. destruct (Shape_reachable c Hreach) as (HI & _ & _).
  destruct HI as [Hlive Hfr Htk Hbd Hctx Hcalls Hinv Hret].
  destruct (ctx (snd c)) as [x|].
  - destruct Hctx as (_ & _ & Hpend & Hge & Hnod).
    unfold outstanding in *. rewrite Z.sub_0_r in *.
    assert (Hsplit : sumZ frame_blocks (fst c)
              = sumZ frame_unstarted (fst c)
                + Z.of_nat (tally (fun f => negb (is_loop f)) (fst c))).
    { clear. induction (fst c) as [|f ts IH]; simpl; [reflexivity|].
      destruct f; simpl; lia. }
    assert (Hthreads : Z.of_nat (length (fst c)) <= sumZ frame_blocks (fst c)).
    { pose proof (sumZ_lower frame_blocks (fst c) 1 (frames_blocks_pos 0 hi0 _ Hfr)). lia. }
    assert (Htasks : Z.of_nat (length (work_queue (snd c)))
                     <= sumZ task_blocks (work_queue (snd c))).
    { pose proof (sumZ_lower task_blocks _ 1 (tasks_blocks_pos 0 hi0 _ Htk)). lia. }
    split; [lia|]. split; [lia|]. split; [|exact Hnod].
    rewrite Nat2Z.inj_add. lia.
  - destruct Hctx as (Hts & Hq & tr & Htr & Hnod).
    split; [exact Hts|]. split; [exact Hq|]. rewrite Htr. simpl. rewrite Hnod. reflexivity.
Qed.

End BlockShape.

Section ParallelForBlocks.
Import Cxx PF.

(** With fewer than 2^28 worker threads and at most 2^63 items nothing
    wraps on the way into [EvalBlocks]. *)
Lemma ParallelFor_enters (ndebug : bool) (P n mb : Z) :
  1 <= P < 2 ^ 28 -> 1 <= mb ->
  let B := block_size_of P n mb in
  B < n -> n <= 2 ^ 63 ->
  ParallelFor ndebug P n mb = entered n B 0 (ceil_div n B)
  /\ 1 <= B /\ 0 < ceil_div n B /\ n <= ceil_div n B * B
  /\ ceil_div n B * B < 2 ^ 64 /\ (ceil_div n B - 1) * B < n.
Proof.
  intros HP Hmb B Hn Hfit.
  assert (HP' : 1 <= P < 2 ^ 31) by lia.
  assert (HB : 1 <= B) by (apply block_size_pos; assumption).
  pose proof (block_count_bound P n mb HP' Hmb Hn) as Hcount. fold B in Hcount.
  unfold kMaxOversharding in Hcount.
  pose proof (div_up_reaches n B HB) as Hreach.
  pose proof (div_up_fits n B HB ltac:(lia)) as Hfits.
  unfold ceil_div in *.
  split; [|repeat split; try lia; nia].
  apply (ParallelFor_spawns ndebug P n mb HP' Hmb Hn); fold B; lia.
Qed.

End ParallelForBlocks.

(** X4: on the heap path there are at least two blocks and fewer than
    [2 * kMaxOversharding] per worker thread; so with fewer than 2^28 worker
    threads and at most 2^63 items the counter is the exact block count and
    survives the passage through [int]. *)
Theorem ParallelFor_block_count (ndebug : bool) (P n mb : Z) :
  1 <= P < 2 ^ 31 -> 1 <= mb ->
  let B := PF.block_size_of P n mb in
  B < n ->
  2 <= ceil_div n B <= 2 * PF.kMaxOversharding * P - 1
  /\ (P < 2 ^ 28 -> n <= 2 ^ 63 ->
      PF.ParallelFor ndebug P n mb
      = ([PF.AtLoop 0 (ceil_div n B)],
         PF.MkShared (Some (PF.MkCtx n B (ceil_div n B))) [] [] None)).
Proof.
  intros HP Hmb B Hn. split; [apply block_count_bound; assumption|].
  intros HP' Hfit.
  destruct (ParallelFor_enters ndebug P n mb ltac:(lia) Hmb Hn Hfit) as [Hcall _].
  rewrite Hcall. unfold entered. fold B. rewrite Z.sub_0_r. reflexivity.
Qed.

(** Seven items and one worker thread: seven blocks, one short of
    [2 * kMaxOversharding]. *)
Lemma ParallelFor_block_count_witness :
  (1 <= 1 < 2 ^ 31 /\ 1 <= 1 /\ PF.block_size_of 1 7 1 < 7)
  /\ ceil_div 7 (PF.block_size_of 1 7 1) = 7
  /\ 2 <= ceil_div 7 (PF.block_size_of 1 7 1) <= 2 * PF.kMaxOversharding * 1 - 1.
Proof.
  split; [vm_compute; intuition discriminate|]. split; [reflexivity|].
  exact (proj1 (ParallelFor_block_count false 1 7 1 ltac:(lia) ltac:(lia)
                  ltac:(vm_compute; reflexivity))).
Defined.

(** X5: with fewer than 2^28 worker threads and at most 2^63 items, when
    all is done under whatever schedule, [compute] was called once for each
    block [k * B .. min(n, (k + 1) * B)], [k] below the block count, and for
    nothing else; no block is empty and none has more than [B] items; one
    closure was enqueued per block but the first. *)
Theorem ParallelFor_blocks_once (ndebug : bool) (P n mb : Z) :
  1 <= P < 2 ^ 28 -> 1 <= mb ->
  let B := PF.block_size_of P n mb in
  B < n -> n <= 2 ^ 63 ->
  forall c, rtc (PF.step ndebug) (PF.ParallelFor ndebug P n mb) c -> PF.final c ->
    (forall k, 0 <= k < ceil_div n B ->
       block_lo B k < block_hi n B k <= block_lo B k + B
       /\ tally (is_call (block_lo B k) (block_hi n B k)) (PF.trace (snd c)) = 1%nat)
    /\ Forall (block_call n B (ceil_div n B)) (PF.trace (snd c))
    /\ Z.of_nat (tally is_compute (PF.trace (snd c))) = ceil_div n B
    /\ Z.of_nat (tally is_enqueue (PF.trace (snd c))) = ceil_div n B - 1.
Proof.
  intros HP Hmb B Hn Hfit c Hreach Hfin.
  destruct (ParallelFor_enters ndebug P n mb HP Hmb Hn Hfit)
    as (Hcall & HB & Hpos & Hre & Hft & Hlast).
  fold B in Hcall, HB, Hpos, Hre, Hft, Hlast. rewrite Hcall in Hreach.
  destruct (EvalBlocks_blocks_once ndebug n B (ceil_div n B) HB Hpos Hre Hft Hlast c
              Hreach Hfin) as (Honce & Hshape & Hcalls & Henq).
  split; [|split; [exact Hshape | split; assumption]].
  intros k Hk. split; [|apply Honce, Hk].
  apply (block_nonempty n B (ceil_div n B)); assumption.
Qed.

Lemma ParallelFor_blocks_once_witness :
  (1 <= 4 < 2 ^ 28 /\ 1 <= 1 /\ PF.block_size_of 4 1000 1 < 1000 /\ 1000 <= 2 ^ 63
   /\ PF.final (PF.run false 100 (PF.ParallelFor false 4 1000 1)))
  /\ tally (is_call 992 1000) (PF.trace (snd (PF.run false 100 (PF.ParallelFor false 4 1000 1))))
     = 1%nat
  /\ Z.of_nat (tally is_compute
                 (PF.trace (snd (PF.run false 100 (PF.ParallelFor false 4 1000 1))))) = 17.
Proof.
  assert (Hfin : PF.final (PF.run false 100 (PF.ParallelFor false 4 1000 1))).
  { right. vm_compute. split; reflexivity. }
  split; [split; [lia | split; [lia | split; [vm_compute; reflexivity | split; [lia | exact Hfin]]]]|].
  destruct (ParallelFor_blocks_once false 4 1000 1 ltac:(lia) ltac:(lia)
              ltac:(vm_compute; reflexivity) ltac:(lia) _
              (run_reaches false 100 (PF.ParallelFor false 4 1000 1)) Hfin)
    as (Honce & _ & Hcalls & _).
  split; [|exact Hcalls].
  destruct (Honce 16 ltac:(vm_compute; intuition discriminate)) as [_ H16]. exact H16.
Defined.

(** X6: at every point of every schedule the counter of the context holds
    the number of blocks [compute] has not been called for yet plus the
    number of threads between their [compute] call and their decrement; it
    is never below the number of running threads and queued closures, so the
    context is there for each of them.  Once the context is deleted no
    thread and no closure is left, and [on_done] has run once. *)
Theorem ParallelFor_pending_counter (ndebug : bool) (P n mb : Z) :
  1 <= P < 2 ^ 28 -> 1 <= mb ->
  let B := PF.block_size_of P n mb in
  B < n -> n <= 2 ^ 63 ->
  forall c, rtc (PF.step ndebug) (PF.ParallelFor ndebug P n mb) c ->
    match PF.ctx (snd c) with
    | Some x =>
      PF.pending_blocks_ x
      = ceil_div n B - Z.of_nat (tally is_compute (PF.trace (snd c)))
        + Z.of_nat (tally (fun f => negb (is_loop f)) (fst c))
      /\ 1 <= PF.pending_blocks_ x <= ceil_div n B
      /\ Z.of_nat (length (fst c) + length (PF.work_queue (snd c))) <= PF.pending_blocks_ x
      /\ tally is_ondone (PF.trace (snd c)) = O
    | None =>
      fst c = [] /\ PF.work_queue (snd c) = []
      /\ tally is_ondone (PF.trace (snd c)) = 1%nat
    end.
Proof.
  intros HP Hmb B Hn Hfit c Hreach.
  destruct (ParallelFor_enters ndebug P n mb HP Hmb Hn Hfit)
    as (Hcall & HB & Hpos & Hre & Hft & Hlast).
  fold B in Hcall, HB, Hpos, Hre, Hft, Hlast. rewrite Hcall in Hreach.
  exact (EvalBlocks_counter ndebug n B (ceil_div n B) HB Hpos Hre Hft c Hreach).
Qed.

(** After nine actions of the deterministic schedule on 1000 items in 17
    blocks: the caller has enqueued four closures, computed block 0 and
    decremented, and the closure for block 1 is at its loop. *)
Lemma ParallelFor_pending_counter_witness :
  (1 <= 4 < 2 ^ 28 /\ 1 <= 1 /\ PF.block_size_of 4 1000 1 < 1000 /\ 1000 <= 2 ^ 63)
  /\ exists x, PF.ctx (snd (PF.run false 9 (PF.ParallelFor false 4 1000 1))) = Some x
       /\ PF.pending_blocks_ x = 16
       /\ Z.of_nat (length (fst (PF.run false 9 (PF.ParallelFor false 4 1000 1)))
                    + length (PF.work_queue (snd (PF.run false 9 (PF.ParallelFor false 4 1000 1)))))
          <= PF.pending_blocks_ x.
Proof.
  split; [split; [lia | split; [lia | split; [vm_compute; reflexivity | lia]]]|].
  pose proof (ParallelFor_pending_counter false 4 1000 1 ltac:(lia) ltac:(lia)
                ltac:(vm_compute; reflexivity) ltac:(lia) _
                (run_reaches false 9 (PF.ParallelFor false 4 1000 1))) as Hc.
  destruct (PF.ctx (snd (PF.run false 9 (PF.ParallelFor false 4 1000 1)))) as [x|] eqn:Hx;
    [|vm_compute in Hx; discriminate Hx].
  exists x. split; [reflexivity|].
  destruct Hc as (_ & _ & Hle & _). split; [|exact Hle].
  vm_compute in Hx. injection Hx as <-. reflexivity.
Defined.

(** X7: arguments the code does not guard against.  A work queue that
    reports no worker thread makes the block size a division by zero.  A
    [min_block_size] of 0 fails the assertion; when assertions are compiled
    out it is harmless for [n = 0] and for [n >= 4 * P], where the call
    does what it does for [min_block_size = 1], but with [0 < n < 4 * P] the
    block size is 0 and [DivUp] divides by it. *)
Theorem ParallelFor_degenerate :
  (forall ndebug n mb,
     PF.ParallelFor ndebug 0 n mb = ([], PF.MkShared None [] [] (Some PF.DivisionByZero)))
  /\ (forall P n, 1 <= P < 2 ^ 31 ->
        PF.ParallelFor false P n 0 = ([], PF.MkShared None [] [] (Some PF.AssertionFailed)))
  /\ (forall P n, 1 <= P < 2 ^ 31 -> 0 < n < 4 * P ->
        PF.ParallelFor true P n 0 = ([], PF.MkShared None [] [] (Some PF.DivisionByZero)))
  /\ (forall P, 1 <= P < 2 ^ 31 ->
        PF.ParallelFor true P 0 0
        = ([], PF.MkShared None [] [PF.EvOnDone; PF.EvComputeRet 0 0; PF.EvCompute 0 0] None))
  /\ (forall P n, 1 <= P < 2 ^ 31 -> 4 * P <= n ->
        PF.ParallelFor true P n 0 = PF.ParallelFor true P n 1).
Proof.
  split; [|split; [|split; [|split]]].
  - intros ndebug n mb. reflexivity.
  - intros P n HP. unfold PF.ParallelFor. rewrite oversharding_divisor by exact HP.
    destruct (Z.eqb_spec (4 * P) 0) as [H0|_]; [lia | reflexivity].
  - intros P n HP Hn. unfold PF.ParallelFor. rewrite oversharding_divisor by exact HP.
    destruct (Z.eqb_spec (4 * P) 0) as [H0|_]; [lia|]. simpl negb. cbv iota.
    rewrite block_size_of_spec by exact HP. rewrite Z.div_small by lia. rewrite Z.max_id.
    destruct (Z.leb_spec n 0) as [|_]; [lia | reflexivity].
  - intros P HP. unfold PF.ParallelFor. rewrite oversharding_divisor by exact HP.
    destruct (Z.eqb_spec (4 * P) 0) as [H0|_]; [lia|]. simpl negb. cbv iota.
    rewrite block_size_of_spec by exact HP. rewrite Z.div_0_l by lia. rewrite Z.max_id. reflexivity.
  - intros P n HP Hn. unfold PF.ParallelFor. rewrite oversharding_divisor by exact HP.
    destruct (Z.eqb_spec (4 * P) 0) as [H0|_]; [lia|]. simpl negb. cbv iota.
    rewrite !block_size_of_spec by exact HP.
    assert (1 <= n / (4 * P)) by (apply Z.div_le_lower_bound; lia).
    rewrite !Z.max_r by lia. reflexivity.
Qed.

(** ** ParallelFor: what one invocation of EvalBlocks does *)

Section Invocation.
Import Cxx PF.
Variable NDEBUG : bool.
Abbreviation EvalBlocks_step := (PF.EvalBlocks_step NDEBUG).

Abbreviation own_steps := (PF.own_steps NDEBUG).

Lemma halving d k :
  2 ^ Z.of_nat (S k) <= d < 2 ^ (Z.of_nat (S k) + 1) ->
  2 ^ Z.of_nat k <= d / 2 < 2 ^ (Z.of_nat k + 1).
Proof.
  rewrite Nat2Z.inj_succ. unfold Z.succ.
  rewrite !Z.pow_add_r by lia. change (2 ^ 1) with 2.
  intros Hd. pose proof (Z.pow_pos_nonneg 2 (Z.of_nat k) ltac:(lia) ltac:(lia)).
  split.
  - apply Z.div_le_lower_bound; lia.
  - apply Z.div_lt_upper_bound; lia.
Qed.

Lemma own_steps_loop k : forall s e σ x,
  ctx σ = Some x -> 0 <= s -> e < 2 ^ 64 ->
  2 ^ Z.of_nat k <= e - s < 2 ^ (Z.of_nat k + 1) ->
  exists q,
    own_steps k (AtLoop s e) σ
    = (Some (AtLoop s (s + 1)),
       MkShared (ctx σ) (work_queue σ ++ q)
                (rev (map (fun r => EvEnqueue (fst r) (snd r)) q) ++ trace σ) (crashed σ))
    /\ length q = k
    /\ Forall (fun r => s + 1 <= fst r < snd r /\ snd r <= e) q
    /\ sumZ task_blocks q = e - s - 1.
Proof.
  induction k as [|k IH]; intros s e σ x Hx Hs He Hd.
  - exists []. simpl in *. assert (e = s + 1) as -> by lia.
    rewrite app_nil_r. destruct σ; simpl. repeat split; try lia. constructor.
  - pose proof (halving (e - s) k Hd) as Hhalf.
    assert (Hpow : 1 <= 2 ^ Z.of_nat k)
      by (pose proof (Z.pow_pos_nonneg 2 (Z.of_nat k) ltac:(lia) ltac:(lia)); lia).
    assert (Hbig : 2 <= e - s).
    { rewrite Nat2Z.inj_succ in Hd. unfold Z.succ in Hd.
      rewrite Z.pow_add_r in Hd by lia. change (2 ^ 1) with 2 in Hd. lia. }
    assert (Hhalf' : (e - s) / 2 <= e - s) by (apply Z.div_le_upper_bound; lia).
    cbn [own_steps]. unfold PF.EvalBlocks_step. rewrite Hx.
    rewrite (to_size_t_small (e - s)) by lia.
    destruct (Z.ltb_spec 1 (e - s)) as [_|]; [|lia].
    rewrite (to_size_t_small (s + (e - s) / 2)) by lia.
    set (mid := s + (e - s) / 2).
    destruct (IH s mid (EnqueueWork mid e σ) x Hx Hs ltac:(unfold mid; lia)
                ltac:(unfold mid; replace (s + (e - s) / 2 - s) with ((e - s) / 2) by lia;
                      exact Hhalf))
      as (q & Hrun & Hlen & Hall & Hsum).
    exists ((mid, e) :: q). rewrite Hrun. simpl.
    rewrite <- !app_assoc. simpl. rewrite ?Hx.
    split; [reflexivity|]. split; [lia|]. split.
    + constructor; [simpl; unfold mid; lia|].
      eapply Forall_impl; [exact Hall|]. simpl. intros r Hr. unfold mid in Hr. lia.
    + unfold task_blocks at 1. simpl. unfold mid in *. lia.
Qed.

End Invocation.

(** X9: an invocation [EvalBlocks(s, e)] left to itself goes through its
    loop [log2 (e - s)] times (rounded down): it enqueues that many closures,
    whose ranges make up the blocks [s + 1 .. e - 1], and its next action is
    the [compute] call for block [s]. *)
Theorem EvalBlocks_enqueues_log2 (ndebug : bool) (s e : Z) (σ : PF.shared)
        (x : PF.ParallelForExecutionContext) :
  PF.ctx σ = Some x -> 0 <= s < e -> e < 2 ^ 64 ->
  exists q σ',
    PF.own_steps ndebug (Z.to_nat (Z.log2 (e - s))) (PF.AtLoop s e) σ
    = (Some (PF.AtLoop s (s + 1)), σ')
    /\ PF.work_queue σ' = PF.work_queue σ ++ q
    /\ PF.trace σ' = rev (map (fun r => PF.EvEnqueue (fst r) (snd r)) q) ++ PF.trace σ
    /\ PF.ctx σ' = PF.ctx σ /\ PF.crashed σ' = PF.crashed σ
    /\ Z.of_nat (length q) = Z.log2 (e - s)
    /\ Forall (fun r => s + 1 <= fst r < snd r /\ snd r <= e) q
    /\ sumZ task_blocks q = e - s - 1
    /\ PF.EvalBlocks_step ndebug (PF.AtLoop s (s + 1)) σ'
       = (Some (PF.InCompute (Cxx.to_size_t (s * PF.block_size_ x))
                  (Z.min (PF.n_ x) (Cxx.to_size_t ((s + 1) * PF.block_size_ x)))),
          PF.log (PF.EvCompute (Cxx.to_size_t (s * PF.block_size_ x))
                    (Z.min (PF.n_ x) (Cxx.to_size_t ((s + 1) * PF.block_size_ x)))) σ').
Proof.
  intros Hx Hs He.
  pose proof (Z.log2_nonneg (e - s)) as Hlog.
  pose proof (Z.log2_spec (e - s) ltac:(lia)) as Hspec.
  destruct (own_steps_loop ndebug (Z.to_nat (Z.log2 (e - s))) s e σ x Hx ltac:(lia) He)
    as (q & Hrun & Hlen & Hall & Hsum).
  { rewrite Z2Nat.id by exact Hlog. unfold Z.succ in Hspec. exact Hspec. }
  eexists q, _. split; [exact Hrun|]. simpl.
  repeat split; try assumption; try lia.
  unfold PF.EvalBlocks_step. simpl. rewrite Hx.
  replace (s + 1 - s) with 1 by lia.
  change (Cxx.to_size_t 1) with 1. simpl. rewrite orb_true_r. reflexivity.
Qed.

(** Seventeen blocks: four closures, for the blocks 8..16, 4..7, 2..3 and 1. *)
Lemma EvalBlocks_enqueues_log2_witness :
  (0 <= 0 < 17 /\ 17 < 2 ^ 64)
  /\ PF.work_queue (snd (PF.own_steps false 4 (PF.AtLoop 0 17)
                           (PF.MkShared (Some (PF.MkCtx 1000 62 17)) [] [] None)))
     = [(8, 17); (4, 8); (2, 4); (1, 2)]
  /\ exists (q : list (Z * Z)) σ',
       PF.own_steps false (Z.to_nat (Z.log2 (17 - 0))) (PF.AtLoop 0 17)
                 (PF.MkShared (Some (PF.MkCtx 1000 62 17)) [] [] None)
       = (Some (PF.AtLoop 0 (0 + 1)), σ')
       /\ Z.of_nat (length q) = Z.log2 (17 - 0).
Proof.
  split; [lia|]. split; [vm_compute; reflexivity|].
  destruct (EvalBlocks_enqueues_log2 false 0 17
              (PF.MkShared (Some (PF.MkCtx 1000 62 17)) [] [] None)
              (PF.MkCtx 1000 62 17) eq_refl ltac:(lia) ltac:(lia))
    as (q & σ' & Hrun & _ & _ & _ & _ & Hlen & _).
  exists q, σ'. split; [exact Hrun | exact Hlen].
Defined.

(** ** RunWhenReady: the invariant of the join *)

Section Totals.
Context {A : Type}.

Fixpoint total (w : A -> nat) (l : list A) : nat :=
  match l with
  | [] => O
  | x :: l' => (w x + total w l')%nat
  end.

Lemma total_app w l1 l2 : total w (l1 ++ l2) = (total w l1 + total w l2)%nat.
Proof. induction l1 as [|x l1 IH]; simpl; lia. Qed.

Lemma total_insert w (l : list A) i x y :
  l !! i = Some x ->
  (total w (<[i := y]> l) + w x = total w l + w y)%nat.
Proof.
  revert i. induction l as [|z l IH]; intros [|i] Hi; simpl in *; try discriminate.
  - injection Hi as ->. lia.
  - specialize (IH i Hi). lia.
Qed.

Lemma total_lookup w (l : list A) i x : l !! i = Some x -> (w x <= total w l)%nat.
Proof.
  revert i. induction l as [|z l IH]; intros [|i] Hi; simpl in *; try discriminate.
  - injection Hi as ->. lia.
  - specialize (IH i Hi). lia.
Qed.

Lemma total_zero w (l : list A) i x : total w l = O -> l !! i = Some x -> w x = O.
Proof. intros Hz Hi. pose proof (total_lookup w l i x Hi). lia. Qed.

End Totals.

(** ** More on counts over lists *)

Section Counting.
Context {A : Type}.

Lemma total_pos_elem (w : A -> nat) (l : list A) :
  (0 < total w l)%nat -> exists x, x ∈ l /\ (0 < w x)%nat.
Proof.
  induction l as [|x l IH]; simpl; [lia|]. intros Hpos.
  destruct (w x) as [|k] eqn:Hx.
  - destruct (IH ltac:(lia)) as (y & Hy & Hwy). exists y. split; [|exact Hwy].
    apply elem_of_cons. right. exact Hy.
  - exists x. split; [apply elem_of_cons; left; reflexivity | lia].
Qed.

Lemma total_le (w1 w2 : A -> nat) (l : list A) :
  (forall x, (w1 x <= w2 x)%nat) -> (total w1 l <= total w2 l)%nat.
Proof.
  intros Hle. induction l as [|x l IH]; simpl; [lia|]. specialize (Hle x). lia.
Qed.

Lemma total_elem (w : A -> nat) (l : list A) x : x ∈ l -> (w x <= total w l)%nat.
Proof.
  induction l as [|y l IH]; intros Hx; [apply elem_of_nil in Hx; contradiction|].
  simpl. apply elem_of_cons in Hx as [->|Hx]; [lia|]. specialize (IH Hx). lia.
Qed.

Lemma total_plus (w1 w2 : A -> nat) (l : list A) :
  total (fun x => (w1 x + w2 x)%nat) l = (total w1 l + total w2 l)%nat.
Proof. induction l as [|x l IH]; simpl; lia. Qed.

End Counting.

Section JoinInvariant.
Import Cxx RWR.

Definition is_dec (w : waiter) : bool :=
  match w with DecrementAndTest => true | _ => false end.

Definition is_rc (w : waiter) : bool :=
  match w with RunCallee => true | _ => false end.

Lemma is_join_split ws : tally is_join ws = (tally is_dec ws + tally is_rc ws)%nat.
Proof. induction ws as [|[] ws IH]; simpl; lia. Qed.

(** Continuations of a kind that are attached to a value or detached and
    not run yet. *)
Definition waiting (k : waiter -> bool) (σ : world) : nat :=
  (total (fun v => tally k (waiters v)) (heap σ) + tally k (firing σ))%nat.

(** The values the call was given. *)
Variable values : list nat.

(** Values the caller has not dealt with yet. *)
Definition in_hand (f : frame) (p : nat) : Prop :=
  match f with
  | Scanning rest unavailable_values => p ∈ rest \/ p ∈ unavailable_values
  | Attaching rest => p ∈ rest
  | Returned => False
  end.

Definition to_attach (f : frame) : nat :=
  match f with Attaching rest => length rest | _ => O end.

Definition to_dispatch (f : frame) : nat :=
  match f with Scanning _ _ => 1%nat | _ => O end.

Definition hand_size (f : frame) : nat :=
  match f with
  | Scanning rest unavailable_values => (length rest + length unavailable_values)%nat
  | Attaching rest => length rest
  | Returned => O
  end.

Definition has_join (σ : world) (p : nat) : Prop :=
  exists v, heap σ !! p = Some v /\ (0 < tally is_join (waiters v))%nat.

(** Where the inputs and the continuations are. *)
Record JoinShape (c : config) : Prop := {
  js_live : crashed (snd c) = None;
  js_valid : forall p, p ∈ values -> (p < length (heap (snd c)))%nat;
  js_hand : forall p, in_hand (fst c) p -> p ∈ values;
  js_short : Z.of_nat (hand_size (fst c)) < 2 ^ 64;
  js_unresolved : forall p v,
    heap (snd c) !! p = Some v -> IsAvailable v = true -> tally is_join (waiters v) = O;
  js_ours : forall p v,
    heap (snd c) !! p = Some v -> (0 < tally is_join (waiters v))%nat -> p ∈ values;
  js_inputs : forall p,
    p ∈ values -> available (snd c) p \/ in_hand (fst c) p \/ has_join (snd c) p
}.

(** Exactly one of these holds the right to run the callee: the caller
    before it dispatches, the continuation on the single pending value, the
    counter record, or the callee's one run.  [m] counts what the counter
    still waits for, [r] the other holders. *)
Definition Token (m r : nat) (σ : world) : Prop :=
  match data σ with
  | Some d =>
    counter d = Z.of_nat m /\ 1 <= counter d < 2 ^ 64
    /\ callee_runs σ = O /\ r = O
  | None => m = O /\ (callee_runs σ + r = 1)%nat
  end.

Definition JoinToken (c : config) : Prop :=
  Token (to_attach (fst c) + waiting is_dec (snd c))
        (waiting is_rc (snd c) + to_dispatch (fst c)) (snd c).

Definition JoinInv (c : config) : Prop := JoinShape c /\ JoinToken c.

(** The state a call may start from: nothing of this call is in it. *)
Definition clean (σ : world) : Prop :=
  crashed σ = None /\ data σ = None /\ callee_runs σ = O
  /\ waiting is_dec σ = O /\ waiting is_rc σ = O.


(** *** How the shape moves *)

(** The heap is left alone and the caller gives up only inputs that are
    available. *)
Lemma shape_same_heap f σ f' σ' :
  JoinShape (f, σ) ->
  heap σ' = heap σ -> crashed σ' = None ->
  (forall q, in_hand f' q -> in_hand f q) ->
  (hand_size f' <= hand_size f)%nat ->
  (forall q, in_hand f q -> in_hand f' q \/ available σ q) ->
  JoinShape (f', σ').
Proof.
  intros [Hlive Hvalid Hhand Hshort Hunres Hours Hin] Hheap Hlive' Hsub Hsize Hgive.
  simpl in *. split; simpl; rewrite ?Hheap; try assumption.
  - intros q Hq. apply Hhand, Hsub, Hq.
  - lia.
  - intros q Hq. unfold available, has_join. rewrite Hheap.
    destruct (Hin q Hq) as [Hav | [Hh | Hj]]; [left; exact Hav | | right; right; exact Hj].
    destruct (Hgive q Hh) as [Hh' | Hav]; [right; left; exact Hh' | left; exact Hav].
Qed.

(** A continuation of the join is pushed on an unresolved input. *)
Lemma shape_push f σ f' p v w :
  JoinShape (f, σ) ->
  heap σ !! p = Some v -> IsAvailable v = false -> p ∈ values -> is_join w = true ->
  (forall q, in_hand f' q -> in_hand f q) ->
  (hand_size f' <= hand_size f)%nat ->
  (forall q, in_hand f q -> in_hand f' q \/ q = p) ->
  JoinShape (f', set_heap (<[p := MkAV (state v) (w :: waiters v)]> (heap σ)) σ).
Proof.
  intros [Hlive Hvalid Hhand Hshort Hunres Hours Hin] Hp Hun Hpv Hw Hsub Hsize Hgive.
  simpl in *.
  assert (Hlt : (p < length (heap σ))%nat) by (eapply lookup_lt_Some; exact Hp).
  split; simpl.
  - assumption.
  - intros q Hq. rewrite length_insert. apply Hvalid, Hq.
  - intros q Hq. apply Hhand, Hsub, Hq.
  - lia.
  - intros q u Hq Hav. destruct (decide (p = q)) as [<-|Hne].
    + rewrite list_lookup_insert_eq in Hq by exact Hlt. injection Hq as <-.
      unfold IsAvailable in *. simpl in *. congruence.
    + rewrite list_lookup_insert_ne in Hq by exact Hne. eapply Hunres; eassumption.
  - intros q u Hq Hpos. destruct (decide (p = q)) as [<-|Hne]; [exact Hpv|].
    rewrite list_lookup_insert_ne in Hq by exact Hne. eapply Hours; eassumption.
  - intros q Hq. unfold available, has_join. simpl.
    destruct (decide (p = q)) as [<-|Hne].
    + right. right. rewrite list_lookup_insert_eq by exact Hlt.
      eexists. split; [reflexivity|]. simpl. rewrite Hw. lia.
    + rewrite list_lookup_insert_ne by exact Hne.
      destruct (Hin q Hq) as [Hav | [Hh | Hj]]; [left; exact Hav | | right; right; exact Hj].
      destruct (Hgive q Hh) as [Hh' | ->]; [right; left; exact Hh' | congruence].
Qed.

(** A producer resolves a value. *)
Lemma shape_resolve f σ p v s :
  JoinShape (f, σ) ->
  heap σ !! p = Some v -> s <> Unresolved ->
  JoinShape (f, set_firing (waiters v ++ firing σ)
                  (set_heap (<[p := MkAV s []]> (heap σ)) σ)).
Proof.
  intros [Hlive Hvalid Hhand Hshort Hunres Hours Hin] Hp Hs.
  simpl in *.
  assert (Hlt : (p < length (heap σ))%nat) by (eapply lookup_lt_Some; exact Hp).
  split; simpl.
  - assumption.
  - intros q Hq. rewrite length_insert. apply Hvalid, Hq.
  - assumption.
  - assumption.
  - intros q u Hq Hav. destruct (decide (p = q)) as [<-|Hne].
    + rewrite list_lookup_insert_eq in Hq by exact Hlt. injection Hq as <-. reflexivity.
    + rewrite list_lookup_insert_ne in Hq by exact Hne. eapply Hunres; eassumption.
  - intros q u Hq Hpos. destruct (decide (p = q)) as [<-|Hne].
    + rewrite list_lookup_insert_eq in Hq by exact Hlt. injection Hq as <-.
      simpl in Hpos. lia.
    + rewrite list_lookup_insert_ne in Hq by exact Hne. eapply Hours; eassumption.
  - intros q Hq. unfold available, has_join. simpl.
    destruct (decide (p = q)) as [<-|Hne].
    + left. rewrite list_lookup_insert_eq by exact Hlt.
      eexists. split; [reflexivity|]. unfold IsAvailable. simpl. destruct s; congruence.
    + rewrite list_lookup_insert_ne by exact Hne. apply Hin, Hq.
Qed.

(** *** How the continuations are counted *)

Lemma waiting_push k σ p v w :
  heap σ !! p = Some v ->
  waiting k (set_heap (<[p := MkAV (state v) (w :: waiters v)]> (heap σ)) σ)
  = (waiting k σ + (if k w then 1 else 0))%nat.
Proof.
  intros Hp. unfold waiting. simpl.
  pose proof (total_insert (fun v => tally k (waiters v)) (heap σ) p v
                (MkAV (state v) (w :: waiters v)) Hp) as Ht.
  simpl in Ht. lia.
Qed.

Lemma waiting_resolve k σ p v s :
  heap σ !! p = Some v ->
  waiting k (set_firing (waiters v ++ firing σ) (set_heap (<[p := MkAV s []]> (heap σ)) σ))
  = waiting k σ.
Proof.
  intros Hp. unfold waiting. simpl. rewrite tally_app.
  pose proof (total_insert (fun v => tally k (waiters v)) (heap σ) p v (MkAV s []) Hp) as Ht.
  simpl in Ht. lia.
Qed.

Lemma waiting_detach k σ w1 w w2 :
  firing σ = w1 ++ w :: w2 ->
  (waiting k (set_firing (w1 ++ w2) σ) + (if k w then 1 else 0))%nat = waiting k σ.
Proof.
  intros Hf. unfold waiting. simpl. rewrite Hf, !tally_app. simpl. lia.
Qed.


(** *** How the token moves *)

Lemma token_ext m r σ σ' :
  data σ' = data σ -> callee_runs σ' = callee_runs σ -> Token m r σ -> Token m r σ'.
Proof. unfold Token. intros -> ->. exact id. Qed.

Lemma token_run_dec m r σ :
  Token (S m) r σ ->
  let σ' := run_waiter DecrementAndTest σ in
  Token m r σ' /\ heap σ' = heap σ /\ firing σ' = firing σ /\ crashed σ' = crashed σ.
Proof.
  unfold Token. simpl. destruct (data σ) as [d|] eqn:Hd; [|intros [Habs _]; discriminate].
  intros (Hc & Hrange & Hruns & Hr).
  destruct (Z.eqb_spec (counter d) 1) as [Hone|Hmany]; simpl.
  - repeat split; lia.
  - rewrite to_size_t_small by lia. repeat split; lia.
Qed.

Lemma token_run_rc m r σ :
  Token m (S r) σ ->
  Token m r (callee σ) /\ crashed (callee σ) = crashed σ.
Proof.
  unfold Token. simpl. destruct (data σ) as [d|]; [intros (_ & _ & _ & Habs); discriminate|].
  intros [Hm Hruns]. repeat split; lia.
Qed.

Lemma waiting_same k σ σ' :
  heap σ' = heap σ -> firing σ' = firing σ -> waiting k σ' = waiting k σ.
Proof. unfold waiting. intros -> ->. reflexivity. Qed.


(** *** The invariant is kept *)

Lemma JoinInv_resolve f σ p v s :
  JoinInv (f, σ) -> heap σ !! p = Some v -> s <> Unresolved ->
  JoinInv (f, set_firing (waiters v ++ firing σ)
                (set_heap (<[p := MkAV s []]> (heap σ)) σ)).
Proof.
  intros [Hshape Htoken] Hp Hs. split.
  - apply shape_resolve; assumption.
  - unfold JoinToken in *. simpl in *.
    rewrite !waiting_resolve by exact Hp.
    eapply token_ext; [| |exact Htoken]; reflexivity.
Qed.

Lemma JoinInv_fire f σ w1 w w2 :
  JoinInv (f, σ) -> firing σ = w1 ++ w :: w2 ->
  JoinInv (f, run_waiter w (set_firing (w1 ++ w2) σ)).
Proof.
  intros [Hshape Htoken] Hf.
  set (σ1 := set_firing (w1 ++ w2) σ).
  assert (Hshape1 : JoinShape (f, σ1)).
  { eapply shape_same_heap; [exact Hshape | reflexivity | apply (js_live _ Hshape) | | | ];
      auto. }
  pose proof (waiting_detach is_dec σ w1 w w2 Hf) as Hdec.
  pose proof (waiting_detach is_rc σ w1 w w2 Hf) as Hrc.
  fold σ1 in Hdec, Hrc.
  assert (Htoken1 : Token (to_attach f + waiting is_dec σ)
                          (waiting is_rc σ + to_dispatch f) σ1).
  { eapply token_ext; [| |exact Htoken]; reflexivity. }
  destruct w; simpl in Hdec, Hrc.
  - (* the continuation on the single pending value *)
    change (run_waiter RunCallee σ1) with (callee σ1).
    replace (waiting is_rc σ + to_dispatch f)%nat
      with (S (waiting is_rc σ1 + to_dispatch f)) in Htoken1 by lia.
    replace (waiting is_dec σ) with (waiting is_dec σ1) in Htoken1 by lia.
    destruct (token_run_rc _ _ _ Htoken1) as [Ht Hlive]. split.
    + eapply shape_same_heap; [exact Hshape1 | reflexivity | | | | ]; auto.
      rewrite Hlive. apply (js_live _ Hshape1).
    + exact Ht.
  - (* a continuation of the counter record *)
    replace (to_attach f + waiting is_dec σ)%nat
      with (S (to_attach f + waiting is_dec σ1)) in Htoken1 by lia.
    replace (waiting is_rc σ) with (waiting is_rc σ1) in Htoken1 by lia.
    destruct (token_run_dec _ _ _ Htoken1) as (Ht & Hheap & Hfiring & Hlive). split.
    + eapply shape_same_heap; [exact Hshape1 | exact Hheap | | | | ]; auto.
      rewrite Hlive. apply (js_live _ Hshape1).
    + unfold JoinToken. simpl.
      rewrite !(waiting_same _ _ _ Hheap Hfiring). exact Ht.
  - (* somebody else's continuation *)
    change (run_waiter Foreign σ1) with σ1.
    split; [exact Hshape1|]. unfold JoinToken. simpl.
    replace (waiting is_dec σ1) with (waiting is_dec σ) by lia.
    replace (waiting is_rc σ1) with (waiting is_rc σ) by lia.
    exact Htoken1.
Qed.


Lemma input_lookup f σ p :
  JoinShape (f, σ) -> in_hand f p -> exists v, heap σ !! p = Some v /\ p ∈ values.
Proof.
  intros Hshape Hp. pose proof (js_hand _ Hshape p Hp) as Hv.
  pose proof (js_valid _ Hshape p Hv) as Hlt. simpl in Hlt.
  apply lookup_lt_is_Some_2 in Hlt as [v Hv']. exists v. split; assumption.
Qed.

(** [AndThen] with a continuation of the join, on an input in hand. *)
Lemma JoinInv_AndThen f σ f' p w m r :
  JoinShape (f, σ) -> crashed σ = None ->
  in_hand f p -> is_join w = true ->
  (forall q, in_hand f' q -> in_hand f q) ->
  (hand_size f' <= hand_size f)%nat ->
  (forall q, in_hand f q -> in_hand f' q \/ q = p) ->
  Token (m + (if is_dec w then 1 else 0) + waiting is_dec σ)
        (r + (if is_rc w then 1 else 0) + waiting is_rc σ) σ ->
  let σ' := AndThen p w σ in
  JoinShape (f', σ')
  /\ Token (m + waiting is_dec σ') (r + waiting is_rc σ') σ'.
Proof.
  intros Hshape Hlive Hp Hw Hsub Hsize Hgive Htoken.
  destruct (input_lookup f σ p Hshape Hp) as (v & Hv & Hpv).
  unfold AndThen. rewrite Hv.
  destruct (IsAvailable v) eqn:Hav.
  - (* resolved in the meantime: the continuation runs at once *)
    assert (Hgive' : forall q, in_hand f q -> in_hand f' q \/ available σ q).
    { intros q Hq. destruct (Hgive q Hq) as [Hq' | ->]; [left; exact Hq'|].
      right. exists v. split; assumption. }
    destruct w; try discriminate Hw; simpl in Htoken.
    + change (run_waiter RunCallee σ) with (callee σ).
      replace (r + 1 + waiting is_rc σ)%nat with (S (r + waiting is_rc σ)) in Htoken by lia.
      rewrite Nat.add_0_r in Htoken.
      destruct (token_run_rc _ _ _ Htoken) as [Ht Hlive']. split.
      * eapply shape_same_heap; [exact Hshape | reflexivity | | | | ]; auto.
      * exact Ht.
    + replace (m + 1 + waiting is_dec σ)%nat with (S (m + waiting is_dec σ)) in Htoken by lia.
      rewrite Nat.add_0_r in Htoken.
      destruct (token_run_dec _ _ _ Htoken) as (Ht & Hheap & Hfiring & Hlive'). split.
      * eapply shape_same_heap; [exact Hshape | exact Hheap | | | | ]; auto.
        rewrite Hlive'. exact Hlive.
      * rewrite !(waiting_same _ _ _ Hheap Hfiring). exact Ht.
  - (* still unresolved: the continuation is pushed *)
    split.
    + apply (shape_push f σ f' p v w); assumption.
    + rewrite !waiting_push by exact Hv.
      eapply token_ext; [| |]; [reflexivity | reflexivity |].
      replace (m + (waiting is_dec σ + (if is_dec w then 1 else 0)))%nat
        with (m + (if is_dec w then 1 else 0) + waiting is_dec σ)%nat by lia.
      replace (r + (waiting is_rc σ + (if is_rc w then 1 else 0)))%nat
        with (r + (if is_rc w then 1 else 0) + waiting is_rc σ)%nat by lia.
      exact Htoken.
Qed.

Lemma JoinInv_caller f σ f' σ' :
  JoinInv (f, σ) -> RunWhenReady_step f σ = (f', σ') -> JoinInv (f', σ').
Proof.
  intros [Hshape Htoken] Hstep.
  pose proof (js_live _ Hshape) as Hlive. simpl in Hlive.
  unfold JoinToken in Htoken. simpl in Htoken.
  destruct f as [[|i rest] acc | [|val rest] |].
  - (* the scan is over *)
    destruct acc as [|p [|p2 acc]]; simpl in Hstep; injection Hstep as <- <-.
    + (* nothing is pending *)
      simpl in Htoken.
      replace (waiting is_rc σ + 1)%nat with (S (waiting is_rc σ + 0)) in Htoken by lia.
      destruct (token_run_rc _ _ _ Htoken) as [Ht Hlive']. split.
      * eapply shape_same_heap; [exact Hshape | reflexivity | exact Hlive | | | ]; simpl.
        -- intros q Hq. contradiction.
        -- lia.
        -- intros q [Hq|Hq]; apply elem_of_nil in Hq; contradiction.
      * exact Ht.
    + (* one value is pending *)
      destruct (JoinInv_AndThen (Scanning [] [p]) σ Returned p RunCallee O O Hshape Hlive)
        as [Hs Ht].
      * right. apply list_elem_of_singleton. reflexivity.
      * reflexivity.
      * intros q Hq. contradiction.
      * simpl. lia.
      * intros q [Hq|Hq]; [apply elem_of_nil in Hq; contradiction|].
        right. apply list_elem_of_singleton in Hq. exact Hq.
      * simpl in Htoken. simpl.
        replace (S (waiting is_rc σ)) with (waiting is_rc σ + 1)%nat by lia.
        exact Htoken.
      * split; [exact Hs|]. unfold JoinToken. simpl.
        rewrite Nat.add_0_r. exact Ht.
    + (* several are pending: the counter record is allocated *)
      split.
      * eapply shape_same_heap; [exact Hshape | reflexivity | exact Hlive | | | ]; simpl.
        -- intros q Hq. right. exact Hq.
        -- lia.
        -- intros q [Hq|Hq]; [apply elem_of_nil in Hq; contradiction | left; exact Hq].
      * unfold JoinToken, Token in *. simpl in *.
        pose proof (js_short _ Hshape) as Hshort. simpl in Hshort.
        destruct (data σ) as [d|].
        { destruct Htoken as (_ & _ & _ & Habs). lia. }
        destruct Htoken as [Hdec Hruns].
        change (waiting is_dec (set_data (Some (MkData (Z.of_nat (S (S (length acc)))))) σ))
          with (waiting is_dec σ).
        change (waiting is_rc (set_data (Some (MkData (Z.of_nat (S (S (length acc)))))) σ))
          with (waiting is_rc σ).
        repeat split; lia.
  - (* one more value is scanned *)
    destruct (input_lookup _ σ i Hshape) as (v & Hv & Hiv).
    { left. apply elem_of_cons. left. reflexivity. }
    simpl in Hstep. rewrite Hv in Hstep.
    destruct (IsAvailable v) eqn:Hav; simpl in Hstep; injection Hstep as <- <-.
    + split; [|exact Htoken].
      eapply shape_same_heap; [exact Hshape | reflexivity | exact Hlive | | | ]; simpl.
      * intros q [Hq|Hq]; [left; apply elem_of_cons; right; exact Hq | right; exact Hq].
      * lia.
      * intros q [Hq|Hq]; [|left; right; exact Hq].
        apply elem_of_cons in Hq as [->|Hq]; [|left; left; exact Hq].
        right. exists v. split; assumption.
    + split; [|exact Htoken].
      eapply shape_same_heap; [exact Hshape | reflexivity | exact Hlive | | | ]; simpl.
      * intros q [Hq|Hq]; [left; apply elem_of_cons; right; exact Hq |].
        apply elem_of_app in Hq as [Hq|Hq]; [right; exact Hq|].
        apply list_elem_of_singleton in Hq as ->. left. apply elem_of_cons. left. reflexivity.
      * rewrite length_app. simpl. lia.
      * intros q [Hq|Hq]; left.
        -- apply elem_of_cons in Hq as [->|Hq]; [|left; exact Hq].
           right. apply elem_of_app. right. apply list_elem_of_singleton. reflexivity.
        -- right. apply elem_of_app. left. exact Hq.
  - (* the loop that attaches is over *)
    simpl in Hstep. injection Hstep as <- <-. split; [|exact Htoken].
    eapply shape_same_heap; [exact Hshape | reflexivity | exact Hlive | | | ]; simpl.
    + intros q Hq. contradiction.
    + lia.
    + intros q Hq. apply elem_of_nil in Hq. contradiction.
  - (* one more continuation is attached *)
    simpl in Hstep. injection Hstep as <- <-.
    destruct (JoinInv_AndThen (Attaching (val :: rest)) σ (Attaching rest) val
                DecrementAndTest (length rest) O Hshape Hlive)
      as [Hs Ht].
    + apply elem_of_cons. left. reflexivity.
    + reflexivity.
    + intros q Hq. apply elem_of_cons. right. exact Hq.
    + simpl. lia.
    + intros q Hq. apply elem_of_cons in Hq as [->|Hq]; [right; reflexivity | left; exact Hq].
    + simpl in Htoken. simpl.
      replace (length rest + 1 + waiting is_dec σ)%nat
        with (S (length rest + waiting is_dec σ)) by lia.
      replace (waiting is_rc σ) with (waiting is_rc σ + 0)%nat at 1 by lia.
      exact Htoken.
    + split; [exact Hs|]. unfold JoinToken. simpl.
      rewrite Nat.add_0_r. exact Ht.
  - simpl in Hstep. injection Hstep as <- <-. split; assumption.
Qed.


Lemma JoinInv_step c c' : JoinInv c -> step c c' -> JoinInv c'.
Proof.
  intros HI Hstep.
  destruct Hstep as [f σ f' σ' Hlive Hf Hstep | f σ p v s Hlive Hp Hv Hs | f σ w1 w w2 Hlive Hw].
  - eapply JoinInv_caller; eassumption.
  - apply JoinInv_resolve; assumption.
  - apply JoinInv_fire; assumption.
Qed.


Lemma JoinInv_start σ0 :
  clean σ0 ->
  (forall p, p ∈ values -> (p < length (heap σ0))%nat) ->
  Z.of_nat (length values) < 2 ^ 64 ->
  JoinInv (Scanning values [], σ0).
Proof.
  intros (Hlive & Hdata & Hruns & Hdec & Hrc) Hvalid Hshort.
  unfold waiting in Hdec, Hrc.
  assert (Hnone : forall p v, heap σ0 !! p = Some v -> tally is_join (waiters v) = O).
  { intros p v Hp. rewrite is_join_split.
    pose proof (total_lookup (fun v => tally is_dec (waiters v)) _ _ _ Hp).
    pose proof (total_lookup (fun v => tally is_rc (waiters v)) _ _ _ Hp).
    simpl in *. lia. }
  split; [split; simpl|].
  - exact Hlive.
  - exact Hvalid.
  - intros p [Hp|Hp]; [exact Hp | apply elem_of_nil in Hp; contradiction].
  - lia.
  - intros p v Hp _. eapply Hnone, Hp.
  - intros p v Hp Hpos. rewrite (Hnone p v Hp) in Hpos. lia.
  - intros p Hp. right. left. left. exact Hp.
  - unfold JoinToken, Token, waiting. simpl. rewrite Hdata. lia.
Qed.

End JoinInvariant.

(** ** RunWhenReady: the callee runs once, after all inputs *)

Section JoinBarrier.
Import Cxx RWR.



(** A schedule written down move by move. *)
Inductive move :=
| Caller                              (* the caller's next action *)
| Resolve (p : nat) (s : av_state)    (* a producer resolves value p *)
| Fire.                               (* the oldest detached continuation is run *)

Definition play (m : move) (c : config) : option config :=
  let '(f, σ) := c in
  match crashed σ with
  | Some _ => None
  | None =>
    match m with
    | Caller =>
      match f with
      | Returned => None
      | _ => Some (RunWhenReady_step f σ)
      end
    | Resolve p s =>
      match heap σ !! p, s with
      | Some (MkAV Unresolved ws), Concrete
      | Some (MkAV Unresolved ws), Error =>
        Some (f, set_firing (ws ++ firing σ) (set_heap (<[p := MkAV s []]> (heap σ)) σ))
      | _, _ => None
      end
    | Fire =>
      match firing σ with
      | w :: ws => Some (f, run_waiter w (set_firing ws σ))
      | [] => None
      end
    end
  end.

Fixpoint play_all (ms : list move) (c : config) : option config :=
  match ms with
  | [] => Some c
  | m :: ms' =>
    match play m c with
    | Some c' => play_all ms' c'
    | None => None
    end
  end.

Lemma play_step m c c' : play m c = Some c' -> step c c'.
Proof.
  destruct c as [f σ]. unfold play.
  destruct (crashed σ) eqn:Hlive; [discriminate|].
  destruct m as [|p s|].
  - destruct (RunWhenReady_step f σ) as [f' σ'] eqn:Hf.
    destruct f; intros [= <-]; apply step_caller; try assumption; discriminate.
  - destruct (heap σ !! p) as [[[] ws]|] eqn:Hp; try discriminate.
    destruct s; intros [= <-]; try discriminate.
    + apply (step_resolve f σ p (MkAV Unresolved ws) Concrete Hlive Hp eq_refl). discriminate.
    + apply (step_resolve f σ p (MkAV Unresolved ws) Error Hlive Hp eq_refl). discriminate.
  - destruct (firing σ) as [|w ws] eqn:Hw; intros [= <-].
    apply (step_fire f σ [] w ws Hlive Hw).
Qed.

Lemma play_all_steps ms c c' : play_all ms c = Some c' -> rtc step c c'.
Proof.
  revert c. induction ms as [|m ms IH]; intros c; simpl.
  - intros [= <-]. apply rtc_refl.
  - destruct (play m c) as [c1|] eqn:Hm; [|discriminate].
    intros Hrest. eapply rtc_l; [apply (play_step m); exact Hm | apply IH; exact Hrest].
Qed.

(** Three inputs, the first one an error already: the call attaches two
    continuations and returns; value 2 is resolved, then value 1 (to an
    error), and only then the callee runs. *)
Definition three_inputs : world :=
  MkWorld [MkAV Error []; MkAV Unresolved [Foreign]; MkAV Unresolved []] None [] O None.

Definition join_schedule : list move :=
  [Caller; Caller; Caller; Caller; Caller; Caller; Caller;
   Resolve 2 Concrete; Fire; Resolve 1 Error; Fire; Fire].


End JoinBarrier.

(** ** RunWhenReady: what the call itself does *)

Section JoinDispatch.
Import Cxx RWR.


















End JoinDispatch.

(** ** RunWhenReady: the life of the counter record *)

Section JoinRecord.
Import Cxx RWR.

(** X10: the record behind [data] is used only while it is there.  As long
    as it lives, its counter is the number of decrementing continuations
    that are still to be attached, sit on a value, or are detached and not
    run yet, and is at least 1; the callee has not run.  Once it is deleted
    no such continuation is left anywhere, so none can reach the freed
    record; and when the callee has run the record is gone. *)
Theorem RunWhenReady_record_lifetime values σ0 :
  clean σ0 ->
  (forall p, p ∈ values -> (p < length (heap σ0))%nat) ->
  Z.of_nat (length values) < 2 ^ 64 ->
  forall f σ, rtc step (Scanning values [], σ0) (f, σ) ->
    crashed σ = None
    /\ (forall d, data σ = Some d ->
          counter d = Z.of_nat (to_attach f + waiting is_dec σ)
          /\ 1 <= counter d < 2 ^ 64
          /\ callee_runs σ = O)
    /\ (data σ = None -> to_attach f = O /\ waiting is_dec σ = O)
    /\ (callee_runs σ = 1%nat -> data σ = None).
Proof.
  intros Hclean Hvalid Hshort f σ Hreach.
  assert (HI : JoinInv values (f, σ)).
  { revert Hreach. generalize (f, σ). apply rtc_ind_r.
    - apply JoinInv_start; assumption.
    - intros c c' _ Hstep HI. eapply JoinInv_step; eassumption. }
  destruct HI as [[Hlive _ _ _ _ _ _] Htoken].
  unfold JoinToken, Token in Htoken. simpl in *.
  split; [exact Hlive|].
  destruct (data σ) as [d|].
  - destruct Htoken as (Hc & Hrange & Hruns & _).
    split; [|split; [discriminate | intros Hone; lia]].
    intros d' [= <-]. auto.
  - destruct Htoken as [Hm _].
    split; [discriminate|]. split; [intros _; lia | reflexivity].
Qed.

(** The inputs of [three_inputs] after the call has returned and value 2
    has been resolved and its continuation run: the record is there with
    its counter at 1. *)
Lemma RunWhenReady_record_lifetime_witness :
  (clean three_inputs
   /\ (forall p, p ∈ [0; 1; 2]%nat -> (p < length (heap three_inputs))%nat)
   /\ Z.of_nat (length [0; 1; 2]%nat) < 2 ^ 64)
  /\ (exists σ, play_all (take 9 join_schedule) (Scanning [0; 1; 2]%nat [], three_inputs)
                = Some (Returned, σ)
        /\ data σ = Some (MkData 1) /\ waiting is_dec σ = 1%nat)
  /\ (exists σ, play_all join_schedule (Scanning [0; 1; 2]%nat [], three_inputs)
                = Some (Returned, σ)
        /\ data σ = None /\ waiting is_dec σ = O).
Proof.
  assert (Hclean : clean three_inputs) by (vm_compute; repeat split; reflexivity).
  assert (Hvalid : forall p, p ∈ [0; 1; 2]%nat -> (p < length (heap three_inputs))%nat).
  { intros p Hp. simpl.
    repeat (apply elem_of_cons in Hp as [->|Hp]; [lia|]).
    apply elem_of_nil in Hp. contradiction. }
  assert (Hshort : Z.of_nat (length [0; 1; 2]%nat) < 2 ^ 64) by (simpl; lia).
  split; [repeat split; assumption|]. split.
  - eexists. split; [vm_compute; reflexivity|]. split; reflexivity.
  - destruct (play_all join_schedule (Scanning [0; 1; 2]%nat [], three_inputs))
      as [[f σ]|] eqn:Hplay; [|vm_compute in Hplay; discriminate].
    pose proof (play_all_steps _ _ _ Hplay) as Hreach.
    destruct (RunWhenReady_record_lifetime [0; 1; 2]%nat three_inputs Hclean Hvalid Hshort
                f σ Hreach) as (_ & _ & Hgone & Hrun).
    vm_compute in Hplay. injection Hplay as <- <-.
    eexists. split; [reflexivity|].
    assert (Hnone : data (MkWorld [MkAV Error []; MkAV Error []; MkAV Concrete []]
                            None [] 1 None) = None) by reflexivity.
    split; [exact Hnone|]. exact (proj2 (Hgone Hnone)).
Defined.

End JoinRecord.

(** ** Cancellation: the first writer wins *)

Section CancelFirstWins.
Import Cancel.

(** The slot points into the heap of values. *)
Definition slot_valid (h : HostContext) : Prop :=
  match cancel_value_ h with
  | Some p => (p < length (values h))%nat
  | None => True
  end.

Lemma DropRef_length p vs : length (DropRef p vs) = length vs.
Proof. unfold DropRef. destruct (vs !! p); [apply length_insert | reflexivity]. Qed.

Lemma DropRef_other p q vs : p <> q -> DropRef p vs !! q = vs !! q.
Proof.
  intros Hne. unfold DropRef. destruct (vs !! p); [|reflexivity].
  apply list_lookup_insert_ne. exact Hne.
Qed.

Lemma DropRef_at p vs v :
  vs !! p = Some v -> DropRef p vs !! p = Some (MkError (message v) (refcount v - 1)).
Proof.
  intros Hp. unfold DropRef. rewrite Hp.
  apply list_lookup_insert_eq. eapply lookup_lt_Some, Hp.
Qed.

Lemma lookup_fresh (vs : list ErrorAsyncValue) v : (vs ++ [v]) !! length vs = Some v.
Proof. rewrite lookup_app_r by lia. rewrite Nat.sub_diag. reflexivity. Qed.

(** The two calls, run without interruption. *)
Lemma CancelExecution_eq msg h :
  CancelExecution msg h
  = match cancel_value_ h with
    | None =>
      MkHost (values h ++ [MkError msg 1]) (Some (length (values h)))
             (compare_exchange_strong memory_order_release memory_order_relaxed true
                :: accesses h)
    | Some expected_value =>
      MkHost (DropRef (length (values h)) (values h ++ [MkError msg 1]))
             (Some expected_value)
             (compare_exchange_strong memory_order_release memory_order_relaxed false
                :: accesses h)
    end.
Proof. unfold CancelExecution. simpl. destruct (cancel_value_ h); reflexivity. Qed.

Lemma Restart_eq h :
  Restart h
  = MkHost (match cancel_value_ h with Some p => DropRef p (values h) | None => values h end)
           None (exchange memory_order_acq_rel :: accesses h).
Proof. unfold Restart. simpl. destruct (cancel_value_ h); reflexivity. Qed.

(** [CancelExecution] on an empty slot installs the new error value. *)
Lemma cancel_installs msg h :
  cancel_value_ h = None ->
  let h' := CancelExecution msg h in
  cancel_value_ h' = Some (length (values h))
  /\ values h' = values h ++ [MkError msg 1]
  /\ cancel_message h' = Some msg
  /\ accesses h'
     = compare_exchange_strong memory_order_release memory_order_relaxed true :: accesses h.
Proof.
  intros Hslot. simpl. rewrite CancelExecution_eq. unfold cancel_message.
  rewrite Hslot. simpl. rewrite lookup_fresh. repeat split.
Qed.

(** [CancelExecution] on a taken slot keeps what is there and drops the
    value it has just made. *)
Lemma cancel_keeps msg h p :
  cancel_value_ h = Some p -> (p < length (values h))%nat ->
  let h' := CancelExecution msg h in
  cancel_value_ h' = Some p
  /\ values h' !! p = values h !! p
  /\ cancel_message h' = cancel_message h
  /\ values h' !! length (values h) = Some (MkError msg 0)
  /\ accesses h'
     = compare_exchange_strong memory_order_release memory_order_relaxed false :: accesses h.
Proof.
  intros Hslot Hp. simpl. rewrite CancelExecution_eq. unfold cancel_message.
  rewrite Hslot. simpl.
  assert (Hold : DropRef (length (values h)) (values h ++ [MkError msg 1]) !! p
                 = values h !! p).
  { rewrite DropRef_other by lia. apply lookup_app_l. exact Hp. }
  rewrite Hold. repeat split.
  erewrite DropRef_at by apply lookup_fresh. reflexivity.
Qed.

Lemma restart_clears h :
  let h' := Restart h in
  cancel_value_ h' = None /\ cancel_message h' = None
  /\ accesses h' = exchange memory_order_acq_rel :: accesses h
  /\ match cancel_value_ h with
     | Some p => forall v, values h !! p = Some v ->
                   values h' !! p = Some (MkError (message v) (refcount v - 1))
     | None => values h' = values h
     end.
Proof.
  simpl. rewrite Restart_eq. unfold cancel_message. simpl. repeat split.
  destruct (cancel_value_ h) as [p|]; [|reflexivity].
  intros v Hv. apply DropRef_at, Hv.
Qed.

Lemma perform_valid c h : slot_valid h -> slot_valid (perform c h).
Proof.
  unfold slot_valid. destruct c as [msg|]; simpl;
    [|rewrite Restart_eq; exact (fun _ => I)].
  rewrite CancelExecution_eq.
  destruct (cancel_value_ h) as [p|]; simpl.
  - rewrite DropRef_length, length_app. simpl. lia.
  - rewrite length_app. simpl. lia.
Qed.

Lemma perform_message c h :
  slot_valid h ->
  cancel_message (perform c h) = first_cancel [c] (cancel_message h).
Proof.
  intros Hvalid. destruct c as [msg|]; simpl.
  - unfold slot_valid in Hvalid. destruct (cancel_value_ h) as [p|] eqn:Hslot.
    + destruct (cancel_keeps msg h p Hslot Hvalid) as (_ & _ & -> & _).
      unfold cancel_message. rewrite Hslot.
      apply lookup_lt_is_Some_2 in Hvalid as [v ->]. reflexivity.
    + destruct (cancel_installs msg h Hslot) as (_ & _ & -> & _).
      unfold cancel_message. rewrite Hslot. reflexivity.
  - destruct (restart_clears h) as (_ & -> & _). reflexivity.
Qed.

Lemma first_cancel_app cs1 cs2 m :
  first_cancel (cs1 ++ cs2) m = first_cancel cs2 (first_cancel cs1 m).
Proof.
  revert m. induction cs1 as [|[msg|] cs1 IH]; intros m; simpl; [reflexivity | apply IH..].
Qed.

Lemma perform_all_message cs h :
  slot_valid h ->
  slot_valid (perform_all cs h)
  /\ cancel_message (perform_all cs h) = first_cancel cs (cancel_message h).
Proof.
  revert h. induction cs as [|c cs IH]; intros h Hvalid; [simpl; auto|].
  change (perform_all (c :: cs) h) with (perform_all cs (perform c h)).
  destruct (IH (perform c h) (perform_valid c h Hvalid)) as [Hv Hm].
  split; [exact Hv|]. rewrite Hm.
  rewrite (perform_message c h Hvalid). simpl. destruct c; reflexivity.
Qed.

(** *** Callers that race *)

(** The references a thread holds to value [p], and the one of the slot. *)
Definition holds_ref (p : nat) (f : frame) : nat :=
  match f with
  | CancelExchange q | CancelDrop q | RestartDrop q => if Nat.eqb q p then 1%nat else O
  | CancelEnter _ | RestartEnter => O
  end.

Definition slot_ref (p : nat) (h : HostContext) : nat :=
  match cancel_value_ h with
  | Some q => if Nat.eqb q p then 1%nat else O
  | None => O
  end.

Definition frame_valid (h : HostContext) (f : frame) : Prop :=
  match f with
  | CancelExchange q | CancelDrop q | RestartDrop q => (q < length (values h))%nat
  | CancelEnter _ | RestartEnter => True
  end.

(** Every value counts the references that exist to it. *)
Record Balanced (c : list frame * HostContext) : Prop := {
  bal_count : forall p v,
    values (snd c) !! p = Some v ->
    refcount v = Z.of_nat (total (holds_ref p) (fst c) + slot_ref p (snd c));
  bal_slot : slot_valid (snd c);
  bal_frames : Forall (frame_valid (snd c)) (fst c)
}.

Lemma holds_ref_fresh h ts :
  Forall (frame_valid h) ts -> total (holds_ref (length (values h))) ts = O.
Proof.
  induction 1 as [|f ts Hf _ IH]; simpl; [reflexivity|]. rewrite IH.
  destruct f as [msg|q|q| |q]; simpl in *; try reflexivity;
    destruct (Nat.eqb_spec q (length (values h))); lia.
Qed.

Lemma frame_valid_mono h h' ts :
  (length (values h) <= length (values h'))%nat ->
  Forall (frame_valid h) ts -> Forall (frame_valid h') ts.
Proof.
  intros Hlen Hall. eapply Forall_impl; [exact Hall|].
  intros [msg|q|q| |q]; simpl; lia.
Qed.

Lemma DropRef_lookup p q vs v :
  vs !! q = Some v ->
  DropRef p vs !! q
  = Some (if Nat.eqb p q then MkError (message v) (refcount v - 1) else v).
Proof.
  intros Hq. destruct (Nat.eqb_spec p q) as [->|Hne].
  - apply DropRef_at, Hq.
  - rewrite DropRef_other by exact Hne. exact Hq.
Qed.

Lemma DropRef_lookup_inv p q vs u :
  DropRef p vs !! q = Some u ->
  exists v, vs !! q = Some v
    /\ u = if Nat.eqb p q then MkError (message v) (refcount v - 1) else v.
Proof.
  intros Hq. assert (Hlt : (q < length vs)%nat).
  { apply lookup_lt_Some in Hq. rewrite DropRef_length in Hq. exact Hq. }
  apply lookup_lt_is_Some_2 in Hlt as [v Hv]. exists v. split; [exact Hv|].
  rewrite (DropRef_lookup p q vs v Hv) in Hq. congruence.
Qed.

Lemma Balanced_step c c' : Balanced c -> step c c' -> Balanced c'.
Proof.
  intros [Hcount Hslot Hframes] Hstep.
  destruct Hstep as [t1 f t2 h f' h' Hf]. simpl in *.
  apply Forall_app in Hframes as [Hfr1 Hfr2]. apply Forall_cons in Hfr2 as [Hfv Hfr2].
  assert (Hcount' : forall p v, values h !! p = Some v ->
            refcount v
            = Z.of_nat (total (holds_ref p) t1 + (holds_ref p f + total (holds_ref p) t2)
                        + slot_ref p h)).
  { intros p v Hp. rewrite (Hcount p v Hp), total_app. reflexivity. }
  clear Hcount. unfold slot_valid, slot_ref in *.
  destruct f as [msg|q|q| |q]; simpl in Hf, Hfv.
  - (* the error value is made *)
    injection Hf as <- <-. split; simpl; unfold slot_ref, slot_valid; simpl.
    + intros p v Hp. rewrite total_app. simpl.
      destruct (Nat.lt_ge_cases p (length (values h))) as [Hlt|Hge].
      * rewrite lookup_app_l in Hp by exact Hlt. rewrite (Hcount' p v Hp). simpl.
        destruct (Nat.eqb_spec (length (values h)) p); lia.
      * rewrite lookup_app_r in Hp by exact Hge.
        destruct (p - length (values h))%nat as [|k] eqn:Hk; [|destruct k; discriminate].
        injection Hp as <-. assert (p = length (values h)) as -> by lia.
        rewrite Nat.eqb_refl.
        rewrite (holds_ref_fresh h t1 Hfr1), (holds_ref_fresh h t2 Hfr2). simpl.
        destruct (cancel_value_ h) as [e|]; [|reflexivity].
        destruct (Nat.eqb_spec e (length (values h))); [lia | reflexivity].
    + unfold slot_valid. simpl. destruct (cancel_value_ h); [|exact I].
      rewrite length_app. simpl. lia.
    + apply Forall_app. split; [|constructor].
      * eapply frame_valid_mono; [|exact Hfr1]. simpl. rewrite length_app. lia.
      * simpl. rewrite length_app. simpl. lia.
      * eapply frame_valid_mono; [|exact Hfr2]. simpl. rewrite length_app. lia.
  - (* the compare-exchange *)
    destruct (cancel_value_ h) as [e|] eqn:He; injection Hf as <- <-; split; simpl; unfold slot_ref, slot_valid; simpl.
    + intros p v Hp. rewrite total_app. simpl.
      rewrite (Hcount' p v Hp). simpl. reflexivity.
    + exact Hslot.
    + apply Forall_app. split; [exact Hfr1 | constructor; [exact Hfv | exact Hfr2]].
    + intros p v Hp. rewrite total_app. simpl.
      rewrite (Hcount' p v Hp). simpl. lia.
    + exact Hfv.
    + apply Forall_app. split; assumption.
  - (* the loser drops its value *)
    injection Hf as <- <-. split; simpl; unfold slot_ref, slot_valid; simpl.
    + intros p u Hp. apply DropRef_lookup_inv in Hp as (v & Hv & ->).
      rewrite total_app. pose proof (Hcount' p v Hv) as Hc. simpl in Hc.
      destruct (Nat.eqb_spec q p); simpl; lia.
    + unfold slot_valid. simpl. rewrite DropRef_length. exact Hslot.
    + apply Forall_app. split;
        (eapply frame_valid_mono; [|eassumption]); simpl; rewrite DropRef_length; lia.
  - (* the exchange with null *)
    destruct (cancel_value_ h) as [e|] eqn:He; injection Hf as <- <-; split; simpl; unfold slot_ref, slot_valid; simpl.
    + intros p v Hp. rewrite total_app. simpl.
      rewrite (Hcount' p v Hp). simpl. lia.
    + exact I.
    + apply Forall_app. split; [exact Hfr1 | constructor; [exact Hslot | exact Hfr2]].
    + intros p v Hp. rewrite total_app. simpl.
      rewrite (Hcount' p v Hp). simpl. lia.
    + exact I.
    + apply Forall_app. split; assumption.
  - (* the reference taken out of the slot is dropped *)
    injection Hf as <- <-. split; simpl; unfold slot_ref, slot_valid; simpl.
    + intros p u Hp. apply DropRef_lookup_inv in Hp as (v & Hv & ->).
      rewrite total_app. pose proof (Hcount' p v Hv) as Hc. simpl in Hc.
      destruct (Nat.eqb_spec q p); simpl; lia.
    + unfold slot_valid. simpl. rewrite DropRef_length. exact Hslot.
    + apply Forall_app. split;
        (eapply frame_valid_mono; [|eassumption]); simpl; rewrite DropRef_length; lia.
Qed.

Definition is_restart (f : frame) : bool :=
  match f with RestartEnter | RestartDrop _ => true | _ => false end.

Definition before_exchange (f : frame) : bool :=
  match f with CancelEnter _ | CancelExchange _ => true | _ => false end.

Definition enters_with (msgs : list (list Byte.byte)) (f : frame) : Prop :=
  match f with CancelEnter m => m ∈ msgs | _ => True end.

(** Callers of [CancelExecution] only, one per message of [msgs]: as long as
    the slot is empty none of them is past its compare-exchange. *)
Record Racing (msgs : list (list Byte.byte)) (c : list frame * HostContext) : Prop := {
  race_cancel : Forall (fun f => is_restart f = false) (fst c);
  race_open :
    cancel_value_ (snd c) = None ->
    length (fst c) = length msgs /\ Forall (fun f => before_exchange f = true) (fst c);
  race_values : forall p v, values (snd c) !! p = Some v -> message v ∈ msgs;
  race_enter : Forall (enters_with msgs) (fst c)
}.

Lemma Racing_start msgs : Racing msgs (CancelEnter <$> msgs, fresh).
Proof.
  split; simpl.
  - apply Forall_fmap, Forall_forall. intros m _. reflexivity.
  - intros _. split; [apply length_fmap|].
    apply Forall_fmap, Forall_forall. intros m _. reflexivity.
  - intros p v Hp. rewrite lookup_nil in Hp. discriminate.
  - apply Forall_fmap, Forall_forall. intros m Hm. exact Hm.
Qed.

(** Without [Restart], a value in the slot stays there. *)
Lemma cancel_keeps_slot ts h c' p :
  Forall (fun f => is_restart f = false) ts ->
  step (ts, h) c' -> cancel_value_ h = Some p -> cancel_value_ (snd c') = Some p.
Proof.
  intros Hno Hstep Hp. inversion Hstep as [t1 f t2 h0 f' h' Hf Heq1 Heq2]. subst.
  apply Forall_app in Hno as [_ Hno]. apply Forall_cons in Hno as [Hf0 _].
  destruct f as [msg|q|q| |q]; simpl in Hf, Hf0; try discriminate.
  - injection Hf as <- <-. exact Hp.
  - rewrite Hp in Hf. injection Hf as <- <-. reflexivity.
  - injection Hf as <- <-. exact Hp.
Qed.

Lemma Racing_step msgs c c' : Racing msgs c -> step c c' -> Racing msgs c'.
Proof.
  intros [Hno Hopen Hvals Henter] Hstep.
  destruct Hstep as [t1 f t2 h f' h' Hf]. simpl in *.
  apply Forall_app in Hno as [Hno1 Hno2]. apply Forall_cons in Hno2 as [Hnf Hno2].
  apply Forall_app in Henter as [Hen1 Hen2]. apply Forall_cons in Hen2 as [Hef Hen2].
  destruct f as [msg|q|q| |q]; simpl in Hf, Hnf, Hef; try discriminate.
  - injection Hf as <- <-. split; simpl.
    + apply Forall_app. split; [exact Hno1 | constructor; [reflexivity | exact Hno2]].
    + intros Hnone. destruct (Hopen Hnone) as [Hlen Hall].
      rewrite length_app in *. simpl in *. split; [exact Hlen|].
      apply Forall_app in Hall as [Hall1 Hall2]. apply Forall_cons in Hall2 as [_ Hall2].
      apply Forall_app. split; [exact Hall1 | constructor; [reflexivity | exact Hall2]].
    + intros p v Hp. apply lookup_app_Some in Hp as [Hp | [_ Hp]]; [eapply Hvals, Hp|].
      destruct (p - length (values h))%nat as [|k]; [|destruct k; discriminate].
      injection Hp as <-. exact Hef.
    + apply Forall_app. split; [exact Hen1 | constructor; [exact I | exact Hen2]].
  - destruct (cancel_value_ h) as [e|] eqn:He; injection Hf as <- <-; split; simpl;
      try discriminate; try assumption.
    + apply Forall_app. split; [exact Hno1 | constructor; [reflexivity | exact Hno2]].
    + apply Forall_app. split; [exact Hen1 | constructor; [exact I | exact Hen2]].
    + apply Forall_app. split; assumption.
    + apply Forall_app. split; assumption.
  - injection Hf as <- <-. split; simpl.
    + apply Forall_app. split; assumption.
    + intros Hnone. destruct (Hopen Hnone) as [_ Hall].
      apply Forall_app in Hall as [_ Hall]. apply Forall_cons in Hall as [Habs _].
      discriminate.
    + intros p u Hp. apply DropRef_lookup_inv in Hp as (v & Hv & ->).
      pose proof (Hvals p v Hv). destruct (Nat.eqb q p); assumption.
    + apply Forall_app. split; assumption.
Qed.

(** All callers of a race have returned: one value is installed and has one
    reference; no reference is left to any other. *)
Lemma race_outcome msgs h :
  msgs <> [] ->
  rtc step (CancelEnter <$> msgs, fresh) ([], h) ->
  exists p m,
    cancel_value_ h = Some p /\ values h !! p = Some (MkError m 1) /\ m ∈ msgs
    /\ forall q v, q <> p -> values h !! q = Some v -> refcount v = 0.
Proof.
  intros Hmsgs Hreach.
  assert (HI : Balanced ([], h) /\ Racing msgs ([], h)).
  { revert Hreach. generalize ([] : list frame, h). apply rtc_ind_r.
    - split; [|apply Racing_start]. split; simpl.
      + intros p v Hp. rewrite lookup_nil in Hp. discriminate.
      + exact I.
      + apply Forall_fmap, Forall_forall. intros m _. exact I.
    - intros c c' _ Hstep [HB HR]. split.
      + eapply Balanced_step; eassumption.
      + eapply Racing_step; eassumption. }
  destruct HI as [[Hcount Hslot _] [_ Hopen Hvals _]]. simpl in *.
  unfold slot_valid, slot_ref in *.
  destruct (cancel_value_ h) as [p|] eqn:Hp.
  2:{ destruct (Hopen eq_refl) as [Hlen _]. destruct msgs; [congruence | discriminate]. }
  apply lookup_lt_is_Some_2 in Hslot as [[m r] Hv].
  pose proof (Hcount p _ Hv) as Hr. simpl in Hr. rewrite Nat.eqb_refl in Hr. subst r.
  exists p, m. split; [reflexivity|]. split; [exact Hv|]. split; [apply (Hvals p _ Hv)|].
  intros q v Hne Hq. rewrite (Hcount q v Hq). simpl.
  destruct (Nat.eqb_spec p q); [congruence | reflexivity].
Qed.

(** C5: [CancelExecution] installs an error value with a compare-exchange
    whose success ordering is release; when a value is installed already it
    stays, and the value just made is dropped (no reference is left).
    [Restart] exchanges the slot with null under acq_rel and drops the
    reference that was there.  So after any history the slot holds the first
    cancel since the last restart: after a restart the cancel value is absent
    and the next cancel installs its own value.  When several callers of
    [CancelExecution] race, interleaved at their atomic actions, the slot
    ends with the value of one of them, which has one reference, and every
    other value made has none. *)
Theorem cancel_first_writer_wins :
  (forall msg h, cancel_value_ h = None ->
     cancel_value_ (CancelExecution msg h) = Some (length (values h))
     /\ values (CancelExecution msg h) !! length (values h) = Some (MkError msg 1)
     /\ cancel_message (CancelExecution msg h) = Some msg
     /\ head (accesses (CancelExecution msg h))
        = Some (compare_exchange_strong memory_order_release memory_order_relaxed true))
  /\ (forall msg h p, cancel_value_ h = Some p -> (p < length (values h))%nat ->
       cancel_value_ (CancelExecution msg h) = Some p
       /\ values (CancelExecution msg h) !! p = values h !! p
       /\ cancel_message (CancelExecution msg h) = cancel_message h
       /\ values (CancelExecution msg h) !! length (values h) = Some (MkError msg 0)
       /\ head (accesses (CancelExecution msg h))
          = Some (compare_exchange_strong memory_order_release memory_order_relaxed false))
  /\ (forall h,
       cancel_value_ (Restart h) = None
       /\ cancel_message (Restart h) = None
       /\ head (accesses (Restart h)) = Some (exchange memory_order_acq_rel)
       /\ (forall p v, cancel_value_ h = Some p -> values h !! p = Some v ->
             values (Restart h) !! p = Some (MkError (message v) (refcount v - 1)))
       /\ (forall msg, cancel_message (CancelExecution msg (Restart h)) = Some msg))
  /\ (forall cs, cancel_message (perform_all cs fresh) = first_cancel cs None)
  /\ (forall msgs h, msgs <> [] ->
       rtc step (CancelEnter <$> msgs, fresh) ([], h) ->
       exists p m,
         cancel_value_ h = Some p /\ values h !! p = Some (MkError m 1) /\ m ∈ msgs
         /\ forall q v, q <> p -> values h !! q = Some v -> refcount v = 0).
Proof.
  split; [|split; [|split; [|split]]]; [| | | |exact race_outcome].
  - intros msg h Hslot.
    destruct (cancel_installs msg h Hslot) as (H1 & H2 & H3 & H4).
    rewrite H1, H2, H3, H4, lookup_fresh. auto.
  - intros msg h p Hslot Hp.
    destruct (cancel_keeps msg h p Hslot Hp) as (H1 & H2 & H3 & H4 & H5).
    rewrite H1, H2, H3, H4, H5. auto.
  - intros h. destruct (restart_clears h) as (H1 & H2 & H3 & H4).
    rewrite H1, H2, H3. repeat split.
    + intros p v Hslot Hv. rewrite Hslot in H4. apply H4, Hv.
    + intros msg. destruct (cancel_installs msg (Restart h) H1) as (_ & _ & Hm & _).
      exact Hm.
  - intros cs. apply (perform_all_message cs fresh). exact I.
Qed.

End CancelFirstWins.

(** ** Cancellation: every reference is accounted for *)

Section CancelBalance.
Import Cancel.

Lemma schedule_steps turns c c' : schedule turns c = Some c' -> rtc step c c'.
Proof.
  revert c. induction turns as [|i turns IH]; intros [ts h]; simpl.
  - intros [= <-]. apply rtc_refl.
  - destruct (ts !! i) as [f|] eqn:Hi; [|discriminate].
    destruct (call_step f h) as [f' h'] eqn:Hf. intros Hrest.
    eapply rtc_l; [|apply IH; exact Hrest].
    rewrite <- (take_drop_middle ts i f Hi) at 1.
    apply step_call. exact Hf.
Qed.

Lemma Balanced_entering ts :
  Forall (fun f => entering f = true) ts -> Balanced (ts, fresh).
Proof.
  intros Hall. split; simpl.
  - intros p v Hp. rewrite lookup_nil in Hp. discriminate.
  - exact I.
  - eapply Forall_impl; [exact Hall|]. intros [msg|q|q| |q]; simpl; try discriminate; auto.
Qed.

(** X11: threads calling [CancelExecution] and [Restart] in any number and
    interleaved in any way never lose or invent a reference: at every point
    the count of each error value is the number of threads that hold a
    pointer to it, plus one when it is in the slot.  When all calls have
    returned, the value in the slot (if any) has one reference and every
    other value that was made has none. *)
Theorem cancel_restart_balanced ts ts' h :
  Forall (fun f => entering f = true) ts ->
  rtc step (ts, fresh) (ts', h) ->
  slot_valid h
  /\ (forall p v, values h !! p = Some v ->
        refcount v = Z.of_nat (total (holds_ref p) ts' + slot_ref p h))
  /\ (ts' = [] -> forall p v, values h !! p = Some v ->
        refcount v = if decide (cancel_value_ h = Some p) then 1 else 0).
Proof.
  intros Hall Hreach.
  assert (HB : Balanced (ts', h)).
  { revert Hreach. generalize (ts', h). apply rtc_ind_r.
    - apply Balanced_entering, Hall.
    - intros c c' _ Hstep HB. eapply Balanced_step; eassumption. }
  destruct HB as [Hcount Hslot _]. simpl in *.
  split; [exact Hslot|]. split; [exact Hcount|].
  intros -> p v Hp. rewrite (Hcount p v Hp). simpl. unfold slot_ref.
  destruct (cancel_value_ h) as [q|].
  - destruct (Nat.eqb_spec q p) as [->|Hne].
    + rewrite decide_True by reflexivity. reflexivity.
    + rewrite decide_False by congruence. reflexivity.
  - rewrite decide_False by discriminate. reflexivity.
Qed.

(** Two cancels and a restart: the second cancel wins the slot, the first
    one drops its value, the restart empties the slot and drops the
    winner's. *)
Definition cancel_race : list frame :=
  [CancelEnter [Byte.x61]; RestartEnter; CancelEnter [Byte.x62]].

Lemma cancel_restart_balanced_witness :
  Forall (fun f => entering f = true) cancel_race
  /\ schedule [0; 2; 2; 0; 1; 0; 0]%nat (cancel_race, fresh)
     = Some ([], MkHost [MkError [Byte.x61] 0; MkError [Byte.x62] 0] None
                   [exchange memory_order_acq_rel;
                    compare_exchange_strong memory_order_release memory_order_relaxed false;
                    compare_exchange_strong memory_order_release memory_order_relaxed true])
  /\ forall p v,
       [MkError [Byte.x61] 0; MkError [Byte.x62] 0] !! p = Some v -> refcount v = 0.
Proof.
  assert (Hall : Forall (fun f => entering f = true) cancel_race)
    by (repeat constructor).
  assert (Hrun : schedule [0; 2; 2; 0; 1; 0; 0]%nat (cancel_race, fresh)
     = Some ([], MkHost [MkError [Byte.x61] 0; MkError [Byte.x62] 0] None
                   [exchange memory_order_acq_rel;
                    compare_exchange_strong memory_order_release memory_order_relaxed false;
                    compare_exchange_strong memory_order_release memory_order_relaxed true]))
    by (vm_compute; reflexivity).
  split; [exact Hall|]. split; [exact Hrun|].
  destruct (cancel_restart_balanced cancel_race [] _ Hall (schedule_steps _ _ _ Hrun))
    as (_ & _ & Hdone).
  intros p v Hp. exact (Hdone eq_refl p v Hp).
Defined.

End CancelBalance.

(** ** Shared contexts: one instance per slot *)

Section SharedOnce.
Import Cxx Shared.

Variable SharedContext : Type.
Variable Host : Type.

Abbreviation manager := (SharedContextManager SharedContext Host).
Abbreviation factory_type := (SharedContextFactory SharedContext Host).

(** How often a factory was run for slot [id]. *)
Definition runs_for (id : nat) (m : manager) : nat :=
  tally (Nat.eqb id) (factory_calls m).

(** Slot [id] holds [inst] and its flag is set. *)
Definition holds (m : manager) (id : nat) (inst : SharedContext) : Prop :=
  shared_context_instances_ m !! id = Some (MkItem SharedContext (Some inst) true).

Record SharedInv (m : manager) : Prop := {
  si_size : length (shared_context_instances_ m) = 256%nat;
  si_slots : forall id it,
    shared_context_instances_ m !! id = Some it ->
    (it = MkItem SharedContext None false /\ runs_for id m = O)
    \/ (exists inst, it = MkItem SharedContext (Some inst) true /\ runs_for id m = 1%nat);
  si_calls : forall id, (256 <= id)%nat -> runs_for id m = O
}.

Lemma SharedInv_new host : SharedInv (new_manager host).
Proof.
  split; unfold new_manager; cbn [shared_context_instances_ factory_calls].
  - apply length_replicate.
  - intros id it Hit. apply lookup_replicate in Hit as [-> _]. left. split; reflexivity.
  - reflexivity.
Qed.

Lemma int_out_of_range id :
  is_int id -> ~ (0 <= id < 256) -> 256 <= to_size_t id.
Proof.
  unfold is_int, to_size_t. intros Hint Hout.
  destruct (Z.lt_ge_cases id 0) as [Hneg|Hpos].
  - rewrite <- (Z_mod_plus_full id 1 (2 ^ 64)). rewrite Z.mod_small by lia. lia.
  - rewrite Z.mod_small by lia. lia.
Qed.

(** One call. *)
Lemma GetOrCreate_spec id (factory : factory_type) m :
  SharedInv m ->
  let '(r, m') := GetOrCreateSharedContext id factory m in
  SharedInv m'
  /\ (forall id' inst, holds m id' inst -> holds m' id' inst)
  /\ (forall id', (runs_for id' m <= runs_for id' m')%nat)
  /\ (0 <= id < 256 ->
      exists inst, r = Ref (Z.to_nat id) inst /\ holds m' (Z.to_nat id) inst
        /\ (runs_for (Z.to_nat id) m = O -> inst = factory (host_ m)))
  /\ (is_int id -> ~ (0 <= id < 256) -> r = AssertionFailed /\ m' = m)
  /\ (forall id' inst, r = Ref id' inst -> holds m' id' inst).
Proof.
  intros [Hsize Hslots Hcalls]. unfold GetOrCreateSharedContext. rewrite Hsize.
  destruct (Z.ltb_spec (to_size_t id) (Z.of_nat 256)) as [Hin|Hout]; simpl negb; cbv iota.
  2:{ split; [split; assumption|]. split; [auto|]. split; [auto|]. split; [|split].
      - intros Hid. rewrite to_size_t_small in Hout by lia. lia.
      - auto.
      - intros id' inst Habs. discriminate. }
  assert (Hsmall : is_int id -> ~ (0 <= id < 256) -> False).
  { intros Hint Hno. pose proof (int_out_of_range id Hint Hno). lia. }
  destruct (shared_context_instances_ m !! Z.to_nat id) as [it|] eqn:Hit.
  2:{ split; [split; assumption|]. split; [auto|]. split; [auto|]. split; [|split].
      - intros Hid. apply lookup_ge_None in Hit. lia.
      - intros Hint Hno. destruct (Hsmall Hint Hno).
      - intros id' inst Habs. discriminate. }
  destruct (Hslots _ _ Hit) as [[-> Hruns] | (inst & -> & Hruns)]; simpl.
  - (* the first call for this slot *)
    split; [split; simpl|]; [| | |split; [|split; [|split; [|split]]]].
    + rewrite length_insert. exact Hsize.
    + intros id' it' Hit'. unfold runs_for in *. simpl.
      destruct (decide (Z.to_nat id = id')) as [<-|Hne].
      * rewrite list_lookup_insert_eq in Hit' by (eapply lookup_lt_Some, Hit).
        injection Hit' as <-. right. eexists. split; [reflexivity|].
        rewrite Nat.eqb_refl. lia.
      * rewrite list_lookup_insert_ne in Hit' by exact Hne.
        destruct (Nat.eqb_spec id' (Z.to_nat id)) as [->|_]; [congruence|].
        apply Hslots, Hit'.
    + intros id' Hbig. unfold runs_for in *. simpl.
      apply lookup_lt_Some in Hit.
      destruct (Nat.eqb_spec id' (Z.to_nat id)) as [->|_]; [lia|].
      apply Hcalls, Hbig.
    + intros id' inst Hh. unfold holds in *. simpl.
      destruct (decide (Z.to_nat id = id')) as [<-|Hne]; [congruence|].
      rewrite list_lookup_insert_ne by exact Hne. exact Hh.
    + intros id'. unfold runs_for. simpl. lia.
    + intros Hid. eexists. split; [reflexivity|]. split; [|reflexivity].
      unfold holds. simpl. apply list_lookup_insert_eq. eapply lookup_lt_Some, Hit.
    + intros Hint Hno. destruct (Hsmall Hint Hno).
    + intros id' inst [= <- <-]. unfold holds. simpl.
      apply list_lookup_insert_eq. eapply lookup_lt_Some, Hit.
  - (* the slot is initialised *)
    split; [split; assumption|]. split; [auto|]. split; [auto|]. split; [|split].
    + intros Hid. exists inst. split; [reflexivity|]. split; [exact Hit|]. lia.
    + intros Hint Hno. destruct (Hsmall Hint Hno).
    + intros id' inst' [= <- <-]. exact Hit.
Qed.


Lemma runs_for_le_1 m id : SharedInv m -> (runs_for id m <= 1)%nat.
Proof.
  intros [Hsize Hslots Hcalls].
  destruct (Nat.lt_ge_cases id 256) as [Hlt|Hge]; [|rewrite Hcalls by exact Hge; lia].
  rewrite <- Hsize in Hlt. apply lookup_lt_is_Some_2 in Hlt as [it Hit].
  destruct (Hslots id it Hit) as [[_ ->] | (_ & _ & ->)]; lia.
Qed.

(** A history of calls. *)
Lemma call_all_spec (cs : list (Z * factory_type)) m :
  SharedInv m ->
  SharedInv (snd (call_all cs m))
  /\ (forall id inst, holds m id inst -> holds (snd (call_all cs m)) id inst)
  /\ length (fst (call_all cs m)) = length cs
  /\ (forall i id inst, fst (call_all cs m) !! i = Some (Ref id inst) ->
        holds (snd (call_all cs m)) id inst)
  /\ (forall i id factory, cs !! i = Some (id, factory) -> 0 <= id < 256 ->
        exists inst, fst (call_all cs m) !! i = Some (Ref (Z.to_nat id) inst))
  /\ (forall i id factory, cs !! i = Some (id, factory) -> is_int id ->
        ~ (0 <= id < 256) -> fst (call_all cs m) !! i = Some AssertionFailed).
Proof.
  revert m. induction cs as [|[id factory] cs IH]; intros m HI.
  - simpl. split; [exact HI|]. split; [auto|]. split; [reflexivity|].
    split; [|split]; intros i; intros; rewrite lookup_nil in *; discriminate.
  - simpl. pose proof (GetOrCreate_spec id factory m HI) as Hone.
    destruct (GetOrCreateSharedContext id factory m) as [r m1].
    destruct Hone as (HI1 & Hkeep1 & _ & Hin1 & Hout1 & Href1).
    destruct (IH m1 HI1) as (HI2 & Hkeep2 & Hlen & Href2 & Hin2 & Hout2).
    destruct (call_all cs m1) as [rs m2]. simpl in *.
    split; [exact HI2|]. split; [auto|]. split; [lia|]. split; [|split].
    + intros [|i] id' inst Hi; simpl in Hi.
      * injection Hi as ->. apply Hkeep2, (Href1 _ _ eq_refl).
      * eapply Href2, Hi.
    + intros [|i] id' factory' Hi Hid; simpl in Hi |- *.
      * injection Hi as <- <-. destruct (Hin1 Hid) as (inst & -> & _). eauto.
      * eapply Hin2; eassumption.
    + intros [|i] id' factory' Hi Hint Hno; simpl in Hi |- *.
      * injection Hi as <- <-. destruct (Hout1 Hint Hno) as [-> _]. reflexivity.
      * eapply Hout2; eassumption.
Qed.

(** C6: in any history of calls on a host context, the factory is run at
    most once for each slot; all callers of a slot get the instance stored
    there, the one the first caller's factory made; and a call whose id is
    256 or more (or negative) fails the assertion and changes nothing. *)
Theorem shared_context_once (host : Host) (cs : list (Z * factory_type)) :
  let rs := fst (call_all cs (new_manager host)) in
  let m := snd (call_all cs (new_manager host)) in
  (forall id, (runs_for id m <= 1)%nat)
  /\ (forall i j id inst1 inst2,
        rs !! i = Some (Ref id inst1) -> rs !! j = Some (Ref id inst2) -> inst1 = inst2)
  /\ (forall i id factory, cs !! i = Some (id, factory) -> 0 <= id < 256 ->
        exists inst, rs !! i = Some (Ref (Z.to_nat id) inst)
          /\ holds m (Z.to_nat id) inst
          /\ (i = O -> inst = factory host))
  /\ (forall i id factory, cs !! i = Some (id, factory) -> is_int id -> 256 <= id ->
        rs !! i = Some AssertionFailed).
Proof.
  intros rs m.
  destruct (call_all_spec cs (new_manager host) (SharedInv_new host))
    as (HI & _ & _ & Href & Hin & Hout).
  fold rs m in HI, Href, Hin, Hout.
  split; [intros id; apply runs_for_le_1, HI|]. split; [|split].
  - intros i j id inst1 inst2 Hi Hj.
    pose proof (Href i id inst1 Hi) as H1. pose proof (Href j id inst2 Hj) as H2.
    unfold holds in *. congruence.
  - intros i id factory Hi Hid. destruct (Hin i id factory Hi Hid) as [inst Hr].
    exists inst. split; [exact Hr|]. split; [eapply Href, Hr|].
    intros ->. destruct cs as [|[id0 f0] cs']; [discriminate|].
    simpl in Hi. injection Hi as -> ->.
    unfold rs in Hr. simpl in Hr.
    pose proof (GetOrCreate_spec id factory (new_manager host) (SharedInv_new host)) as Hone.
    destruct (GetOrCreateSharedContext id factory (new_manager host)) as [r m1].
    destruct Hone as (_ & _ & _ & Hin1 & _).
    destruct (Hin1 Hid) as (inst' & -> & _ & Hfirst).
    destruct (call_all cs' m1) as [rs' m2]. simpl in Hr. injection Hr as <-.
    apply Hfirst. reflexivity.
  - intros i id factory Hi Hint Hbig. apply (Hout i id factory Hi Hint). lia.
Qed.

End SharedOnce.

(** ** Shared contexts: whose factory makes the instance *)

Section SharedFirst.
Import Cxx Shared.

Variable SharedContext : Type.
Variable Host : Type.

Abbreviation manager := (SharedContextManager SharedContext Host).
Abbreviation factory_type := (SharedContextFactory SharedContext Host).

Lemma GetOrCreate_host id (factory : factory_type) (m : manager) :
  host_ (snd (GetOrCreateSharedContext id factory m)) = host_ m.
Proof.
  unfold GetOrCreateSharedContext.
  destruct (negb _); [reflexivity|].
  destruct (shared_context_instances_ m !! Z.to_nat id) as [[[inst|] []]|]; reflexivity.
Qed.

(** A call for another slot leaves the count of this one alone. *)
Lemma GetOrCreate_runs_other id0 (factory : factory_type) (m : manager) id :
  SharedInv SharedContext Host m -> is_int id0 -> 0 <= id < 256 -> id0 <> id ->
  runs_for SharedContext Host (Z.to_nat id) (snd (GetOrCreateSharedContext id0 factory m))
  = runs_for SharedContext Host (Z.to_nat id) m.
Proof.
  intros HI Hint Hid Hne.
  pose proof (GetOrCreate_spec SharedContext Host id0 factory m HI) as Hone.
  destruct (decide (0 <= id0 < 256)) as [Hin|Hout].
  - clear Hone. unfold GetOrCreateSharedContext.
    destruct (negb _); [reflexivity|].
    destruct (shared_context_instances_ m !! Z.to_nat id0) as [[[inst|] []]|];
      try reflexivity.
    unfold runs_for. simpl.
    destruct (Nat.eqb_spec (Z.to_nat id) (Z.to_nat id0)); [lia | reflexivity].
  - destruct (GetOrCreateSharedContext id0 factory m) as [r m1].
    destruct Hone as (_ & _ & _ & _ & Hfail & _).
    destruct (Hfail Hint Hout) as [_ ->]. reflexivity.
Qed.

Lemma call_all_first (cs : list (Z * factory_type)) : forall (m : manager) j i id f g,
  SharedInv SharedContext Host m ->
  Forall (fun c => is_int (fst c)) cs ->
  0 <= id < 256 ->
  runs_for SharedContext Host (Z.to_nat id) m = O ->
  cs !! j = Some (id, f) ->
  (forall j' id' f', (j' < j)%nat -> cs !! j' = Some (id', f') -> id' <> id) ->
  (j <= i)%nat -> cs !! i = Some (id, g) ->
  fst (call_all cs m) !! i = Some (Ref (Z.to_nat id) (f (host_ m))).
Proof.
  induction cs as [|[id0 f0] cs IH]; intros m j i id f g HI Hints Hid Hruns Hj Hfirst Hji Hi.
  { rewrite lookup_nil in Hj. discriminate. }
  apply Forall_cons in Hints as [Hint0 Hints]. simpl in Hint0.
  simpl.
  pose proof (GetOrCreate_spec SharedContext Host id0 f0 m HI) as Hone.
  pose proof (GetOrCreate_host id0 f0 m) as Hhost.
  pose proof (GetOrCreate_runs_other id0 f0 m id HI Hint0 Hid) as Hother.
  destruct (GetOrCreateSharedContext id0 f0 m) as [r m1]. simpl in Hhost, Hother.
  destruct Hone as (HI1 & _ & _ & Hin1 & _ & _).
  destruct j as [|j].
  - (* this is the first call for the slot *)
    simpl in Hj. injection Hj as -> ->.
    destruct (Hin1 Hid) as (inst & -> & Hholds & Hmade).
    rewrite (Hmade Hruns) in *.
    destruct (call_all_spec SharedContext Host cs m1 HI1) as (_ & Hkeep & _ & Href & Hin & _).
    destruct (call_all cs m1) as [rs m2]. simpl in *.
    destruct i as [|i]; [reflexivity|]. simpl in Hi |- *.
    destruct (Hin i id g Hi Hid) as [inst' Hr]. rewrite Hr.
    pose proof (Href i _ _ Hr) as H1. pose proof (Hkeep _ _ Hholds) as H2.
    unfold holds in *. congruence.
  - (* an earlier call, for another slot *)
    assert (Hne : id0 <> id) by (apply (Hfirst O id0 f0); [lia | reflexivity]).
    destruct i as [|i]; [lia|]. simpl in Hj, Hi.
    specialize (IH m1 j i id f g HI1 Hints Hid).
    rewrite (Hother Hne) in IH. specialize (IH Hruns Hj).
    destruct (call_all cs m1) as [rs m2]. simpl in *. rewrite <- Hhost.
    apply IH; [|lia | exact Hi].
    intros j' id' f' Hlt Hj'. apply (Hfirst (S j') id' f'); [lia | exact Hj'].
Qed.

(** X12: in a history of calls, each call for a valid slot returns what the
    factory of the first call for that slot made from the manager's host;
    the factories passed by later callers are not consulted. *)
Theorem shared_context_first_factory (host : Host) (cs : list (Z * factory_type))
        (j i : nat) (id : Z) (f g : factory_type) :
  Forall (fun c => is_int (fst c)) cs ->
  0 <= id < 256 ->
  cs !! j = Some (id, f) ->
  (forall j' id' f', (j' < j)%nat -> cs !! j' = Some (id', f') -> id' <> id) ->
  (j <= i)%nat -> cs !! i = Some (id, g) ->
  fst (call_all cs (new_manager host)) !! i = Some (Ref (Z.to_nat id) (f host)).
Proof.
  intros Hints Hid Hj Hfirst Hji Hi.
  apply (call_all_first cs (new_manager host) j i id f g); try assumption.
  - apply SharedInv_new.
  - reflexivity.
Qed.

End SharedFirst.

(** Slot 5 is asked for with a factory making 1, slot 7 with one making 2,
    slot 5 again with one making 3: the third call returns 1. *)
Lemma shared_context_first_factory_witness :
  (Forall (fun c : Z * (unit -> nat) => Cxx.is_int (fst c))
          [(5, fun _ => 1%nat); (7, fun _ => 2%nat); (5, fun _ => 3%nat)]
   /\ 0 <= 5 < 256)
  /\ fst (Shared.call_all [(5, fun _ : unit => 1%nat); (7, fun _ => 2%nat); (5, fun _ => 3%nat)]
            (Shared.new_manager tt)) !! 2%nat
     = Some (Shared.Ref 5%nat 1%nat).
Proof.
  assert (Hints : Forall (fun c : Z * (unit -> nat) => Cxx.is_int (fst c))
            [(5, fun _ => 1%nat); (7, fun _ => 2%nat); (5, fun _ => 3%nat)]).
  { repeat constructor; simpl; unfold Cxx.is_int; lia. }
  split; [split; [exact Hints | lia]|].
  apply (shared_context_first_factory nat unit tt _ 0 2 5 (fun _ => 1%nat) (fun _ => 3%nat)).
  - exact Hints.
  - lia.
  - reflexivity.
  - intros j' id' f' Hlt. lia.
  - lia.
  - reflexivity.
Defined.

Section SharedSlots.
Import Cxx Shared.

Variable SharedContext : Type.
Variable Host : Type.

Abbreviation manager := (SharedContextManager SharedContext Host).
Abbreviation factory_type := (SharedContextFactory SharedContext Host).

(** X14: after any history of calls, one more call touches no slot but its
    own; on a slot that is initialised it runs no factory and changes
    nothing at all, whatever factory it was given; and a negative id, which
    the comparison with [size()] turns into a large [size_t], fails the
    assertion like one that is too large. *)
Theorem shared_context_slots_independent (host : Host) (cs : list (Z * factory_type))
        (id : Z) (factory : factory_type) :
  let m := snd (call_all cs (new_manager host)) in
  let r := fst (GetOrCreateSharedContext id factory m) in
  let m' := snd (GetOrCreateSharedContext id factory m) in
  (forall id', id' <> Z.to_nat id ->
     shared_context_instances_ m' !! id' = shared_context_instances_ m !! id')
  /\ (forall inst, 0 <= id < 256 ->
        shared_context_instances_ m !! Z.to_nat id = Some (MkItem SharedContext (Some inst) true) ->
        r = Ref (Z.to_nat id) inst /\ m' = m)
  /\ (is_int id -> id < 0 -> r = AssertionFailed /\ m' = m).
Proof.
  intros m r m'.
  destruct (call_all_spec SharedContext Host cs (new_manager host) (SharedInv_new _ _ host))
    as (HI & _).
  fold m in HI.
  pose proof (GetOrCreate_spec SharedContext Host id factory m HI) as Hone.
  split; [|split].
  - intros id' Hne. unfold m', GetOrCreateSharedContext.
    destruct (negb _); [reflexivity|].
    destruct (shared_context_instances_ m !! Z.to_nat id) as [[[inst|] []]|];
      try reflexivity.
    simpl. apply list_lookup_insert_ne. congruence.
  - intros inst Hid Hslot. unfold r, m', GetOrCreateSharedContext.
    destruct HI as [Hsize _ _]. rewrite Hsize.
    rewrite to_size_t_small by lia.
    destruct (Z.ltb_spec id (Z.of_nat 256)) as [_|]; [|lia].
    simpl negb. cbv iota. rewrite Hslot. simpl. split; reflexivity.
  - intros Hint Hneg. unfold r, m'.
    destruct (GetOrCreateSharedContext id factory m) as [r1 m1].
    destruct Hone as (_ & _ & _ & _ & Hfail & _).
    apply Hfail; [exact Hint | lia].
Qed.

End SharedSlots.

(** ** Shared contexts: callers that race *)

Section SharedRacing.
Import Cxx SharedRace.

Variable SharedContext : Type.
Variable Host : Type.

Abbreviation manager := (SharedRace.SharedContextManager SharedContext Host).
Abbreviation thread := (SharedRace.frame SharedContext Host).
Abbreviation factory_type := (SharedRace.SharedContextFactory SharedContext Host).
Abbreviation racing := (list thread * manager)%type.

(** The calls that are made, and the host of the manager. *)
Variable cs : list (Z * factory_type).
Variable host : Host.

Definition in_callable_on (i : nat) (f : thread) : nat :=
  match f with InCallable j _ => if Nat.eqb j i then 1%nat else O | _ => O end.

Definition leaving_on (i : nat) (f : thread) : nat :=
  match f with LeavingCallOnce j => if Nat.eqb j i then 1%nat else O | _ => O end.

Definition stored (it : item SharedContext) : nat :=
  match first it with Some _ => 1%nat | None => O end.

(** How often a factory was run for slot [i]. *)
Definition factory_runs (i : nat) (m : manager) : nat :=
  tally (Nat.eqb i) (factory_calls m).

(** A slot and the threads that are in its active execution. *)
Definition slot_ok (ts : list thread) (m : manager) (i : nat) (it : item SharedContext)
  : Prop :=
  let a := total (in_callable_on i) ts in
  let l := total (leaving_on i) ts in
  match second it with
  | NotCalled => stored it = O /\ factory_runs i m = O /\ a = O /\ l = O
  | Active => (a + l = 1)%nat /\ stored it = l /\ factory_runs i m = l
  | Returned => stored it = 1%nat /\ factory_runs i m = 1%nat /\ a = O /\ l = O
  end.

Definition thread_ok (m : manager) (f : thread) : Prop :=
  match f with
  | AtAssert id factory => 0 <= id < 256 /\ (id, factory) ∈ cs
  | AtCallOnce i factory | InCallable i factory =>
    (i < 256)%nat /\ (Z.of_nat i, factory) ∈ cs
  | LeavingCallOnce i => (i < 256)%nat
  | AtReturn i =>
    exists it, shared_context_instances_ m !! i = Some it /\ second it = Returned
  end.

Record RaceInv (c : racing) : Prop := {
  rc_live : crashed (snd c) = None;
  rc_host : host_ (snd c) = host;
  rc_size : length (shared_context_instances_ (snd c)) = 256%nat;
  rc_threads : Forall (thread_ok (snd c)) (fst c);
  rc_slots : forall i it,
    shared_context_instances_ (snd c) !! i = Some it -> slot_ok (fst c) (snd c) i it;
  rc_made : forall i it inst,
    shared_context_instances_ (snd c) !! i = Some it -> first it = Some inst ->
    exists factory, (Z.of_nat i, factory) ∈ cs /\ inst = factory host;
  rc_calls : forall i, (256 <= i)%nat -> factory_runs i (snd c) = O;
  rc_returned : forall i inst,
    (i, inst) ∈ returned (snd c) ->
    shared_context_instances_ (snd c) !! i = Some (MkItem (Some inst) Returned);
  rc_count : (length (fst c) + length (returned (snd c)) = length cs)%nat
}.

Hypothesis ids_valid : Forall (fun c => 0 <= fst c < 256) cs.

Lemma RaceInv_start : RaceInv (callers cs, new_manager host).
Proof.
  split; unfold new_manager;
    cbn [fst snd SharedRace.crashed SharedRace.host_ SharedRace.shared_context_instances_
         SharedRace.factory_calls SharedRace.returned].
  - reflexivity.
  - reflexivity.
  - apply length_replicate.
  - unfold callers. apply Forall_forall. intros f Hf.
    apply list_elem_of_In, in_map_iff in Hf as ([id factory] & <- & Hin).
    apply list_elem_of_In in Hin. simpl. split; [|exact Hin].
    rewrite Forall_forall in ids_valid. apply (ids_valid _ Hin).
  - intros i it Hit. apply lookup_replicate in Hit as [-> _].
    unfold slot_ok, callers, stored, factory_runs. simpl.
    split; [reflexivity|]. split; [reflexivity|].
    clear. split; induction cs as [|c l IH]; simpl; auto.
  - intros i it inst Hit. apply lookup_replicate in Hit as [-> _]. discriminate.
  - reflexivity.
  - intros i inst Hin. apply elem_of_nil in Hin. contradiction.
  - unfold callers. rewrite length_map. simpl. lia.
Qed.

(** A slot whose flag is set is not written again. *)
Definition keeps_returned (m m' : manager) : Prop :=
  forall i it, shared_context_instances_ m !! i = Some it -> second it = Returned ->
    shared_context_instances_ m' !! i = Some it.

Lemma thread_ok_keeps m m' f : keeps_returned m m' -> thread_ok m f -> thread_ok m' f.
Proof.
  intros Hkeep. destruct f as [id fac|i fac|i fac|i|i]; simpl; auto.
  intros (it & Hit & Hflag). exists it. split; [apply Hkeep; assumption | exact Hflag].
Qed.

Lemma keeps_insert m i it it' (m' : manager) :
  shared_context_instances_ m !! i = Some it -> second it <> Returned ->
  shared_context_instances_ m' = <[i := it']> (shared_context_instances_ m) ->
  keeps_returned m m'.
Proof.
  intros Hit Hflag Heq j jt Hj Hret. rewrite Heq.
  destruct (decide (i = j)) as [<-|Hne]; [congruence|].
  rewrite list_lookup_insert_ne by exact Hne. exact Hj.
Qed.

Lemma RaceInv_step c c' : RaceInv c -> step c c' -> RaceInv c'.
Proof.
  intros [Hlive Hhost Hsize Hthreads Hslots Hmade Hcalls Hret Hcount] Hstep.
  destruct Hstep as [t1 f t2 m f' m' _ Hf]. simpl in *.
  apply Forall_app in Hthreads as [Hth1 Hth2]. apply Forall_cons in Hth2 as [Hfok Hth2].
  rewrite length_app in Hcount. simpl in Hcount.
  assert (Hslots' : forall i it, shared_context_instances_ m !! i = Some it ->
            match second it with
            | NotCalled =>
              stored it = O /\ factory_runs i m = O
              /\ (total (in_callable_on i) t1 + (in_callable_on i f + total (in_callable_on i) t2))%nat = O
              /\ (total (leaving_on i) t1 + (leaving_on i f + total (leaving_on i) t2))%nat = O
            | Active =>
              ((total (in_callable_on i) t1 + (in_callable_on i f + total (in_callable_on i) t2))
               + (total (leaving_on i) t1 + (leaving_on i f + total (leaving_on i) t2)) = 1)%nat
              /\ stored it = (total (leaving_on i) t1 + (leaving_on i f + total (leaving_on i) t2))%nat
              /\ factory_runs i m = (total (leaving_on i) t1 + (leaving_on i f + total (leaving_on i) t2))%nat
            | Returned =>
              stored it = 1%nat /\ factory_runs i m = 1%nat
              /\ (total (in_callable_on i) t1 + (in_callable_on i f + total (in_callable_on i) t2))%nat = O
              /\ (total (leaving_on i) t1 + (leaving_on i f + total (leaving_on i) t2))%nat = O
            end).
  { intros i it Hit. specialize (Hslots i it Hit). unfold slot_ok in Hslots.
    rewrite !total_app in Hslots. simpl in Hslots. exact Hslots. }
  clear Hslots.
  destruct f as [id fac|i fac|i fac|i|i]; simpl in Hf, Hfok.
  - (* the assertion *)
    destruct Hfok as [Hid Hin]. rewrite Hsize in Hf. rewrite to_size_t_small in Hf by lia.
    destruct (Z.ltb_spec id (Z.of_nat 256)) as [_|]; [|lia]. simpl in Hf.
    injection Hf as <- <-. split; simpl; try assumption.
    + apply Forall_app. split; [exact Hth1|]. constructor; [|exact Hth2].
      simpl. rewrite Z2Nat.id by lia. split; [lia | exact Hin].
    + intros i it Hit. specialize (Hslots' i it Hit). unfold slot_ok.
      rewrite !total_app. simpl in *. exact Hslots'.
    + rewrite length_app. simpl. lia.
  - (* std::call_once is reached *)
    destruct Hfok as [Hi Hin].
    assert (Hlt : (i < length (shared_context_instances_ m))%nat) by lia.
    apply lookup_lt_is_Some_2 in Hlt as [it Hit]. rewrite Hit in Hf.
    pose proof (Hslots' i it Hit) as Hslot.
    destruct (second it) eqn:Hflag; [| discriminate |].
    + (* this caller becomes the active one *)
      injection Hf as <- <-.
      assert (Hkeep : keeps_returned m (set_item SharedContext Host i (MkItem (first it) Active) m)).
      { eapply keeps_insert; [exact Hit | congruence | reflexivity]. }
      split; simpl; try assumption.
      * rewrite length_insert. exact Hsize.
      * apply Forall_app. split; [|constructor]; simpl.
        -- eapply Forall_impl; [exact Hth1|]. intros g. apply thread_ok_keeps, Hkeep.
        -- auto.
        -- eapply Forall_impl; [exact Hth2|]. intros g. apply thread_ok_keeps, Hkeep.
      * intros j jt Hj. unfold slot_ok. rewrite !total_app. simpl.
        destruct (decide (i = j)) as [<-|Hne].
        -- rewrite list_lookup_insert_eq in Hj by (eapply lookup_lt_Some, Hit).
           injection Hj as <-. simpl. rewrite Nat.eqb_refl.
           unfold stored in *. simpl in *. unfold factory_runs in *. simpl. lia.
        -- rewrite list_lookup_insert_ne in Hj by exact Hne.
           specialize (Hslots' j jt Hj). simpl in Hslots'.
           destruct (Nat.eqb_spec i j); [contradiction|]. exact Hslots'.
      * intros j jt inst Hj Hfirst.
        destruct (decide (i = j)) as [<-|Hne].
        -- rewrite list_lookup_insert_eq in Hj by (eapply lookup_lt_Some, Hit).
           injection Hj as <-. simpl in Hfirst. eapply Hmade; eassumption.
        -- rewrite list_lookup_insert_ne in Hj by exact Hne. eapply Hmade; eassumption.
      * intros j inst Hin'. apply Hkeep; [apply Hret, Hin' | reflexivity].
      * rewrite length_app. simpl. lia.
    + (* the flag is set *)
      injection Hf as <- <-. split; simpl; try assumption.
      * apply Forall_app. split; [exact Hth1|]. constructor; [|exact Hth2].
        simpl. exists it. auto.
      * intros j jt Hj. specialize (Hslots' j jt Hj). unfold slot_ok.
        rewrite !total_app. simpl in *. exact Hslots'.
      * rewrite length_app. simpl. lia.
  - (* the factory is run *)
    destruct Hfok as [Hi Hin].
    assert (Hlt : (i < length (shared_context_instances_ m))%nat) by lia.
    apply lookup_lt_is_Some_2 in Hlt as [it Hit]. rewrite Hit in Hf.
    pose proof (Hslots' i it Hit) as Hslot. simpl in Hslot. rewrite Nat.eqb_refl in Hslot.
    destruct (second it) eqn:Hflag; [lia | | lia].
    unfold stored in Hslot. destruct (first it) as [old|] eqn:Hfirst; [lia|].
    injection Hf as <- <-.
    set (m1 := MkManager SharedContext Host (host_ m)
                 (<[i := MkItem (Some (fac (host_ m))) Active]> (shared_context_instances_ m))
                 (i :: factory_calls m) (returned m) (crashed m)).
    assert (Hkeep : keeps_returned m m1).
    { eapply keeps_insert; [exact Hit | congruence | reflexivity]. }
    split; simpl; try assumption.
    + rewrite length_insert. exact Hsize.
    + apply Forall_app. split; [|constructor]; simpl.
      * eapply Forall_impl; [exact Hth1|]. intros g. apply thread_ok_keeps, Hkeep.
      * exact Hi.
      * eapply Forall_impl; [exact Hth2|]. intros g. apply thread_ok_keeps, Hkeep.
    + intros j jt Hj. unfold slot_ok. rewrite !total_app. simpl.
      unfold factory_runs. simpl.
      destruct (decide (i = j)) as [<-|Hne].
      * rewrite list_lookup_insert_eq in Hj by (eapply lookup_lt_Some, Hit).
        injection Hj as <-. simpl. rewrite Nat.eqb_refl.
        unfold stored, factory_runs in *. simpl in *. lia.
      * rewrite list_lookup_insert_ne in Hj by exact Hne.
        specialize (Hslots' j jt Hj). simpl in Hslots'.
        destruct (Nat.eqb_spec i j); [contradiction|].
        destruct (Nat.eqb_spec j i); [congruence|]. exact Hslots'.
    + intros j jt inst Hj Hfirst'.
      destruct (decide (i = j)) as [<-|Hne].
      * rewrite list_lookup_insert_eq in Hj by (eapply lookup_lt_Some, Hit).
        injection Hj as <-. simpl in Hfirst'. injection Hfirst' as <-.
        exists fac. rewrite Hhost. auto.
      * rewrite list_lookup_insert_ne in Hj by exact Hne. eapply Hmade; eassumption.
    + intros j Hj. unfold factory_runs. simpl.
      destruct (Nat.eqb_spec j i); [lia|]. apply Hcalls, Hj.
    + intros j inst Hin'. apply Hkeep; [apply Hret, Hin' | reflexivity].
    + rewrite length_app. simpl. lia.
  - (* the active execution ends *)
    assert (Hlt : (i < length (shared_context_instances_ m))%nat) by lia.
    apply lookup_lt_is_Some_2 in Hlt as [it Hit]. rewrite Hit in Hf.
    pose proof (Hslots' i it Hit) as Hslot. simpl in Hslot. rewrite Nat.eqb_refl in Hslot.
    destruct (second it) eqn:Hflag; [lia | | lia].
    injection Hf as <- <-.
    assert (Hkeep : keeps_returned m (set_item SharedContext Host i (MkItem (first it) Returned) m)).
    { eapply keeps_insert; [exact Hit | congruence | reflexivity]. }
    split; simpl; try assumption.
    + rewrite length_insert. exact Hsize.
    + apply Forall_app. split; [|constructor]; simpl.
      * eapply Forall_impl; [exact Hth1|]. intros g. apply thread_ok_keeps, Hkeep.
      * eexists. split; [apply list_lookup_insert_eq; eapply lookup_lt_Some, Hit | reflexivity].
      * eapply Forall_impl; [exact Hth2|]. intros g. apply thread_ok_keeps, Hkeep.
    + intros j jt Hj. unfold slot_ok. rewrite !total_app. simpl.
      destruct (decide (i = j)) as [<-|Hne].
      * rewrite list_lookup_insert_eq in Hj by (eapply lookup_lt_Some, Hit).
        injection Hj as <-. simpl.
        unfold stored, factory_runs in *. simpl in *. lia.
      * rewrite list_lookup_insert_ne in Hj by exact Hne.
        specialize (Hslots' j jt Hj). simpl in Hslots'.
        destruct (Nat.eqb_spec i j); [contradiction|]. exact Hslots'.
    + intros j jt inst Hj Hfirst.
      destruct (decide (i = j)) as [<-|Hne].
      * rewrite list_lookup_insert_eq in Hj by (eapply lookup_lt_Some, Hit).
        injection Hj as <-. simpl in Hfirst. eapply Hmade; eassumption.
      * rewrite list_lookup_insert_ne in Hj by exact Hne. eapply Hmade; eassumption.
    + intros j inst Hin'. apply Hkeep; [apply Hret, Hin' | reflexivity].
    + rewrite length_app. simpl. lia.
  - (* the call returns *)
    destruct Hfok as (it & Hit & Hflag). rewrite Hit in Hf.
    pose proof (Hslots' i it Hit) as Hslot. rewrite Hflag in Hslot.
    destruct it as [[inst|] flag]; simpl in Hflag; subst flag;
      [|unfold stored in Hslot; simpl in Hslot; lia].
    injection Hf as <- <-. split; simpl; try assumption.
    + apply Forall_app. split; assumption.
    + intros j jt Hj. specialize (Hslots' j jt Hj). unfold slot_ok.
      rewrite !total_app. simpl in *. exact Hslots'.
    + intros j inst' Hin'. apply elem_of_cons in Hin' as [[= -> ->]|Hin']; [exact Hit|].
      apply Hret, Hin'.
    + rewrite length_app. simpl. lia.
Qed.

Lemma RaceInv_reachable c : rtc step (callers cs, new_manager host) c -> RaceInv c.
Proof.
  revert c. apply rtc_ind_r.
  - exact RaceInv_start.
  - intros c c' _ Hstep HI. eapply RaceInv_step; eassumption.
Qed.

(** A waiting thread waits for an active execution, which can move. *)
Lemma race_progress ts m :
  RaceInv (ts, m) -> ts <> [] -> exists c', step (ts, m) c'.
Proof.
  intros [Hlive _ Hsize Hthreads Hslots _ _ _ _] Hne. simpl in *.
  destruct ts as [|f ts]; [congruence|].
  destruct (call_step f m) as [[f' m']|] eqn:Hf.
  { eexists. apply (step_call _ _ [] f ts m f' m' Hlive Hf). }
  destruct f as [id fac|i fac|i fac|i|i]; simpl in Hf.
  - destruct (negb _); discriminate.
  - destruct (shared_context_instances_ m !! i) as [it|] eqn:Hit; [|discriminate].
    destruct (second it) eqn:Hflag; try discriminate.
    pose proof (Hslots i it Hit) as Hslot. unfold slot_ok in Hslot. rewrite Hflag in Hslot.
    destruct Hslot as (Hone & _ & _).
    assert (Hact : (0 < total (fun g => in_callable_on i g + leaving_on i g)%nat
                               (AtCallOnce i fac :: ts))%nat).
    { clear - Hone. simpl in *.
      enough (total (fun g => (in_callable_on i g + leaving_on i g)%nat) ts
              = (total (in_callable_on i) ts + total (leaving_on i) ts)%nat) by lia.
      clear. induction ts as [|g ts IH]; simpl; lia. }
    apply total_pos_elem in Hact as (g & Hg & Hpos).
    apply list_elem_of_split in Hg as (t1 & t2 & Heq). rewrite Heq.
    destruct g as [id' fac'|j fac'|j fac'|j|j]; simpl in Hpos; try lia.
    + destruct (Nat.eqb_spec j i) as [->|]; [|simpl in Hpos; lia].
      rewrite Forall_forall in Hthreads.
      destruct (shared_context_instances_ m !! i) as [jt|] eqn:Hjt; [|discriminate].
      injection Hit as ->.
      pose proof (Hslots i it Hjt) as Hslot. unfold slot_ok in Hslot. rewrite Hflag in Hslot.
      destruct (call_step (InCallable i fac') m) as [[g' m']|] eqn:Hg.
      * eexists. apply (step_call _ _ t1 _ t2 m g' m' Hlive Hg).
      * simpl in Hg. rewrite Hjt in Hg. destruct (first it); discriminate.
    + destruct (Nat.eqb_spec j i) as [->|]; [|simpl in Hpos; lia].
      destruct (call_step (LeavingCallOnce i) m) as [[g' m']|] eqn:Hg.
      * eexists. apply (step_call _ _ t1 _ t2 m g' m' Hlive Hg).
      * simpl in Hg. rewrite Hit in Hg. discriminate.
  - destruct (shared_context_instances_ m !! i) as [it|]; [|discriminate].
    destruct (first it); discriminate.
  - destruct (shared_context_instances_ m !! i) as [it|]; discriminate.
  - destruct (shared_context_instances_ m !! i) as [[[inst|] flag]|]; discriminate.
Qed.

(** The actions a thread still has to perform. *)
Definition thread_work (f : thread) : nat :=
  match f with
  | AtAssert _ _ => 5
  | AtCallOnce _ _ => 4
  | InCallable _ _ => 3
  | LeavingCallOnce _ => 2
  | AtReturn _ => 1
  end.

Definition race_work (c : racing) : nat :=
  (total thread_work (fst c) + match crashed (snd c) with Some _ => 0 | None => 1 end)%nat.

Lemma race_step_work c c' : step c c' -> (race_work c' < race_work c)%nat.
Proof.
  intros [t1 f t2 m f' m' Hlive Hf]. unfold race_work. simpl. rewrite Hlive.
  rewrite !total_app. simpl.
  destruct f as [id fac|i fac|i fac|i|i]; simpl in Hf.
  - destruct (negb _); injection Hf as <- <-; simpl; rewrite ?Hlive; lia.
  - destruct (shared_context_instances_ m !! i) as [it|];
      [destruct (second it)|]; try discriminate; injection Hf as <- <-; simpl;
      rewrite ?Hlive; lia.
  - destruct (shared_context_instances_ m !! i) as [it|];
      [destruct (first it)|]; injection Hf as <- <-; simpl; rewrite ?Hlive; lia.
  - destruct (shared_context_instances_ m !! i) as [it|]; injection Hf as <- <-; simpl;
      rewrite ?Hlive; lia.
  - destruct (shared_context_instances_ m !! i) as [[[inst|] flag]|];
      injection Hf as <- <-; simpl; rewrite ?Hlive; lia.
Qed.

Lemma race_nsteps_work k c c' :
  nsteps step k c c' -> (k + race_work c' <= race_work c)%nat.
Proof.
  induction 1 as [c | k c1 c2 c3 Hstep _ IH]; [lia|].
  apply race_step_work in Hstep. lia.
Qed.

Lemma callers_work (l : list (Z * factory_type)) :
  total thread_work (callers l) = (5 * length l)%nat.
Proof. induction l as [|c l IH]; simpl in *; lia. Qed.

Lemma race_work_start : race_work (callers cs, new_manager host) = (5 * length cs + 1)%nat.
Proof. unfold race_work. simpl. rewrite callers_work. lia. Qed.

Lemma race_schedule_steps turns (c : racing) : rtc step c (schedule turns c).
Proof.
  revert c. induction turns as [|i turns IH]; intros [ts m]; simpl; [apply rtc_refl|].
  destruct (crashed m) eqn:Hlive; [apply IH|].
  destruct (ts !! i) as [f|] eqn:Hi; [|apply IH].
  destruct (call_step f m) as [[f' m']|] eqn:Hf; [|apply IH].
  eapply rtc_l; [|apply IH].
  rewrite <- (take_drop_middle ts i f Hi) at 1.
  apply step_call; assumption.
Qed.

(** X15: callers of [GetOrCreateSharedContext] that race, with valid ids,
    interleaved in any way.  No assertion fails and no null pointer is
    dereferenced; as long as a caller is inside the call some caller can
    move, and after at most five actions per caller all have returned.  The
    factory is run at most once for each slot; every caller of a slot is
    given the instance stored there, which the factory of one of the
    callers of that slot made from the manager's host. *)
Theorem GetOrCreateSharedContext_race k ts m :
  nsteps step k (callers cs, new_manager host) (ts, m) ->
  (k <= 5 * length cs)%nat
  /\ crashed m = None
  /\ (ts <> [] -> exists c', step (ts, m) c')
  /\ (forall id, (factory_runs id m <= 1)%nat)
  /\ (forall id inst, (id, inst) ∈ returned m ->
        shared_context_instances_ m !! id = Some (MkItem (Some inst) Returned)
        /\ factory_runs id m = 1%nat
        /\ exists factory, (Z.of_nat id, factory) ∈ cs /\ inst = factory host)
  /\ (forall id inst1 inst2,
        (id, inst1) ∈ returned m -> (id, inst2) ∈ returned m -> inst1 = inst2)
  /\ (length ts + length (returned m) = length cs)%nat.
Proof.
  intros Hk.
  pose proof (race_nsteps_work _ _ _ Hk) as Hwork. rewrite race_work_start in Hwork.
  assert (HI : RaceInv (ts, m)) by (apply RaceInv_reachable; eapply rtc_nsteps_2; exact Hk).
  pose proof (race_progress ts m HI) as Hprog.
  destruct HI as [Hlive Hhost Hsize Hthreads Hslots Hmade Hcalls Hret Hcount]. simpl in *.
  unfold race_work in Hwork. simpl in Hwork. rewrite Hlive in Hwork.
  split; [lia|]. split; [exact Hlive|]. split; [exact Hprog|].
  split; [|split; [|split; [|exact Hcount]]].
  - intros id. destruct (Nat.lt_ge_cases id 256) as [Hlt|Hge];
      [|rewrite Hcalls by exact Hge; lia].
    rewrite <- Hsize in Hlt. apply lookup_lt_is_Some_2 in Hlt as [it Hit].
    pose proof (Hslots id it Hit) as Hslot. unfold slot_ok in Hslot.
    destruct (second it); lia.
  - intros id inst Hin. pose proof (Hret id inst Hin) as Hit.
    split; [exact Hit|]. split.
    + pose proof (Hslots id _ Hit) as Hslot. unfold slot_ok in Hslot. simpl in Hslot. lia.
    + apply (Hmade id _ inst Hit). reflexivity.
  - intros id inst1 inst2 H1 H2.
    pose proof (Hret id inst1 H1) as E1. pose proof (Hret id inst2 H2) as E2. congruence.
Qed.

End SharedRacing.

(** Two callers of slot 5 and one of slot 7.  The second caller of slot 5
    is the first to reach [std::call_once]; the first one waits, and both
    are given what the second one's factory made. *)
Definition three_callers : list (Z * (unit -> nat)) :=
  [(5, fun _ => 1%nat); (5, fun _ => 3%nat); (7, fun _ => 2%nat)].

Definition race_turns : list nat := [0; 1; 2; 1; 0; 1; 2; 2; 2; 2; 1; 0; 0; 0]%nat.

Lemma GetOrCreateSharedContext_race_witness :
  Forall (fun c : Z * (unit -> nat) => 0 <= fst c < 256) three_callers
  /\ fst (SharedRace.schedule race_turns
            (SharedRace.callers three_callers, SharedRace.new_manager tt)) = []
  /\ SharedRace.returned
       (snd (SharedRace.schedule race_turns
               (SharedRace.callers three_callers, SharedRace.new_manager tt)))
     = [(5%nat, 3%nat); (5%nat, 3%nat); (7%nat, 2%nat)]
  /\ SharedRace.factory_calls
       (snd (SharedRace.schedule race_turns
               (SharedRace.callers three_callers, SharedRace.new_manager tt)))
     = [7%nat; 5%nat]
  /\ SharedRace.crashed
       (snd (SharedRace.schedule race_turns
               (SharedRace.callers three_callers, SharedRace.new_manager tt))) = None.
Proof.
  assert (Hids : Forall (fun c : Z * (unit -> nat) => 0 <= fst c < 256) three_callers).
  { repeat constructor; simpl; lia. }
  split; [exact Hids|]. split; [vm_compute; reflexivity|].
  split; [vm_compute; reflexivity|]. split; [vm_compute; reflexivity|].
  destruct (rtc_nsteps_1 _ _
              (race_schedule_steps nat unit race_turns
                 (SharedRace.callers three_callers, SharedRace.new_manager tt))) as [k Hk].
  destruct (SharedRace.schedule race_turns
              (SharedRace.callers three_callers, SharedRace.new_manager tt)) as [ts m].
  exact (proj1 (proj2 (GetOrCreateSharedContext_race nat unit three_callers tt Hids k ts m Hk))).
Defined.

(** ** Blocking work: what the caller gets back *)

Section BlockingResult.
Import Blocking.

(** A host whose queue takes no blocking task, and a closure. *)
Definition full_host : HostContext bounded_queue := MkHost (MkBounded 0 [] []) [].

(** C7 as stated fails: the queue rejects closure 7 and hands it back, but
    [EnqueueBlockingWork] returns only [false]; the closure is destroyed
    inside the call, it is not given back to the caller. *)
Lemma EnqueueBlockingWork_destroys_rejected :
  AddBlockingTask (MkTask 7%nat) true (work_queue_ full_host)
  = (Some (MkTask 7%nat), work_queue_ full_host)
  /\ EnqueueBlockingWork 7%nat full_host = (false, MkHost (MkBounded 0 [] []) [7%nat]).
Proof. split; reflexivity. Qed.

(** C7, amended: the result is [true] exactly when the queue takes the task.
    When the queue takes it nothing is destroyed; when the queue rejects it,
    the task it hands back is destroyed before the call returns, without
    having been run, and the caller is left with [false]. *)
Theorem EnqueueBlockingWork_result (Q : Type) (WQ : ConcurrentWorkQueue Q)
        (work : closure) (h : HostContext Q) :
  let r := AddBlockingTask (MkTask work) true (work_queue_ h) in
  (fst (EnqueueBlockingWork work h) = true <-> fst r = None)
  /\ (fst r = None ->
      EnqueueBlockingWork work h = (true, MkHost (snd r) (destroyed h)))
  /\ (forall t, fst r = Some t ->
      EnqueueBlockingWork work h = (false, MkHost (snd r) (task_work t :: destroyed h))).
Proof.
  intros r. unfold EnqueueBlockingWork. subst r.
  destruct (AddBlockingTask (MkTask work) true (work_queue_ h)) as [[t|] q]; simpl.
  - split; [split; discriminate|]. split; [discriminate|].
    intros t' [= <-]. reflexivity.
  - split; [split; reflexivity|]. split; [reflexivity|]. discriminate.
Qed.

End BlockingResult.

(** ** The table of host contexts: indices are handed out once *)

Section InstanceIndex.
Import Cxx Registry.

Variable kDummyIndex : Z.
Hypothesis table_size : 0 <= kDummyIndex < 2 ^ 31 - 1.

Abbreviation process := Registry.process.
Abbreviation state := (list HostContext * process)%type.

(** The contexts made so far carry the indices 0, 1, 2, ... in the order
    of their construction ([made] has the newest first). *)
Fixpoint numbered (made : list HostContext) : Prop :=
  match made with
  | [] => True
  | h :: made' => instance_index h = Z.of_nat (length made') /\ numbered made'
  end.

Definition is_construct (a : action) : bool :=
  match a with Construct _ => true | Destruct _ => false end.

Record RegInv (s : state) : Prop := {
  ri_table : length (all_host_contexts_ (snd s)) = Z.to_nat kDummyIndex;
  ri_numbered : numbered (fst s);
  ri_bound : Z.of_nat (length (fst s)) <= kDummyIndex;
  ri_counter :
    aborted (snd s) = false ->
    next_host_context_index (snd s) = Z.of_nat (length (fst s));
  ri_slots : forall i a,
    all_host_contexts_ (snd s) !! i = Some (Some a) ->
    exists h, h ∈ fst s /\ instance_index h = Z.of_nat i /\ this h = a
}.

Lemma RegInv_start : RegInv ([], start kDummyIndex).
Proof.
  split; simpl.
  - apply length_replicate.
  - exact I.
  - lia.
  - reflexivity.
  - intros i a Hi. apply lookup_replicate in Hi as [Habs _]. discriminate.
Qed.

(** The constructor on a running process. *)
Lemma HostContext_new_spec self p :
  0 <= next_host_context_index p < 2 ^ 31 - 1 ->
  let index := next_host_context_index p in
  (index < kDummyIndex ->
   HostContext_new kDummyIndex self p
   = (Some (MkHost self index),
      MkProcess (index + 1) (<[Z.to_nat index := Some self]> (all_host_contexts_ p))
                (aborted p)))
  /\ (kDummyIndex <= index ->
      HostContext_new kDummyIndex self p
      = (None, MkProcess (index + 1) (all_host_contexts_ p) true)).
Proof.
  intros Hidx index. unfold HostContext_new. fold index. simpl.
  rewrite to_int_small by (unfold index; lia).
  unfold instance_index. simpl.
  destruct (Z.ltb_spec index kDummyIndex); split; intros; try lia; reflexivity.
Qed.

Lemma RegInv_act a s : RegInv s -> RegInv (act kDummyIndex a s).
Proof.
  destruct s as [made p]. intros [Htable Hnum Hbound Hcounter Hslots]. simpl in *.
  destruct (aborted p) eqn:Hab; [split; simpl; try assumption; congruence|].
  specialize (Hcounter eq_refl).
  destruct a as [self|h].
  - destruct (HostContext_new_spec self p ltac:(lia)) as [Hok Hfull].
    destruct (Z.lt_ge_cases (next_host_context_index p) kDummyIndex) as [Hlt|Hge].
    + rewrite (Hok Hlt). split; simpl.
      * rewrite length_insert. exact Htable.
      * split; [unfold instance_index; simpl; exact Hcounter | exact Hnum].
      * lia.
      * intros _. lia.
      * intros i a Hi.
        destruct (decide (Z.to_nat (next_host_context_index p) = i)) as [<-|Hne].
        -- rewrite list_lookup_insert_eq in Hi by lia. injection Hi as <-.
           eexists. split; [apply elem_of_cons; left; reflexivity|].
           unfold instance_index. simpl. split; [lia | reflexivity].
        -- rewrite list_lookup_insert_ne in Hi by exact Hne.
           destruct (Hslots i a Hi) as (h & Hh & Hidx & Hthis).
           exists h. split; [apply elem_of_cons; right; exact Hh | auto].
    + rewrite (Hfull Hge). split; simpl; try assumption. discriminate.
  - split; simpl; try assumption.
    + rewrite length_insert. exact Htable.
    + rewrite Hab. intros _. exact Hcounter.
    + intros i a Hi.
      destruct (decide (Z.to_nat (instance_index h) = i)) as [<-|Hne].
      * pose proof (lookup_lt_Some _ _ _ Hi) as Hlt. rewrite length_insert in Hlt.
        rewrite list_lookup_insert_eq in Hi by exact Hlt. discriminate.
      * rewrite list_lookup_insert_ne in Hi by exact Hne. apply Hslots, Hi.
Qed.


Lemma numbered_lt made h :
  numbered made -> h ∈ made -> 0 <= instance_index h < Z.of_nat (length made).
Proof.
  induction made as [|h' made IH]; simpl; intros Hnum Hin.
  - apply elem_of_nil in Hin. contradiction.
  - destruct Hnum as [Hh Hnum]. apply elem_of_cons in Hin as [->|Hin]; [lia|].
    specialize (IH Hnum Hin). lia.
Qed.

Lemma numbered_NoDup made : numbered made -> NoDup (map instance_index made).
Proof.
  induction made as [|h made IH]; simpl; intros Hnum; [constructor|].
  destruct Hnum as [Hh Hnum]. constructor; [|apply IH, Hnum].
  intros Hin. apply list_elem_of_In, in_map_iff in Hin as (h' & Heq & Hin').
  apply list_elem_of_In in Hin'. pose proof (numbered_lt made h' Hnum Hin'). lia.
Qed.

Lemma act_all_snoc acts a (s : state) :
  act_all kDummyIndex (acts ++ [a]) s = act kDummyIndex a (act_all kDummyIndex acts s).
Proof. unfold act_all. rewrite fold_left_app. reflexivity. Qed.

(** A history: the invariant, and when the process is brought down. *)
Lemma act_all_spec acts :
  let s := act_all kDummyIndex acts ([], start kDummyIndex) in
  RegInv s
  /\ (aborted (snd s) = false -> length (fst s) = tally is_construct acts)
  /\ (aborted (snd s) = true -> kDummyIndex < Z.of_nat (tally is_construct acts)).
Proof.
  induction acts as [|a acts IH] using rev_ind.
  - simpl. split; [apply RegInv_start|]. split; [reflexivity | discriminate].
  - rewrite act_all_snoc, tally_app. simpl tally.
    destruct IH as (HI & Hrun & Hdown).
    pose proof (RegInv_act a _ HI) as HI'. split; [exact HI'|].
    destruct (act_all kDummyIndex acts ([], start kDummyIndex)) as [made p].
    destruct HI as [Htable Hnum Hbound Hcounter Hslots]. simpl in *.
    destruct (aborted p) eqn:Hab.
    { simpl. rewrite Hab. split; [discriminate|]. intros _. specialize (Hdown eq_refl). lia. }
    specialize (Hcounter eq_refl). specialize (Hrun eq_refl).
    destruct a as [self|h]; simpl.
    + destruct (HostContext_new_spec self p ltac:(lia)) as [Hok Hfull].
      destruct (Z.lt_ge_cases (next_host_context_index p) kDummyIndex) as [Hlt|Hge].
      * rewrite (Hok Hlt). simpl. rewrite Hab. split; [intros _; lia | discriminate].
      * rewrite (Hfull Hge). simpl. split; [discriminate | intros _; lia].
    + rewrite Hab. split; [intros _; lia | discriminate].
Qed.

(** C8: the instance index of a host context is the value fetched from the
    global counter, which only grows: the contexts are numbered 0, 1, 2, ...
    in the order of their construction, whatever was destroyed in between,
    so no index is handed out twice.  The constructor records the context in
    the table at its index, or aborts when the index is not below the table
    size, that is, from construction number [kDummyIndex + 1] on; the
    destructor clears the slot and leaves the counter alone. *)
Theorem instance_index_unique acts :
  let s := act_all kDummyIndex acts ([], start kDummyIndex) in
  numbered (fst s)
  /\ NoDup (map instance_index (fst s))
  /\ (forall h, h ∈ fst s -> 0 <= instance_index h < kDummyIndex)
  /\ (aborted (snd s) = true <-> kDummyIndex < Z.of_nat (tally is_construct acts))
  /\ (forall i a, all_host_contexts_ (snd s) !! i = Some (Some a) ->
        exists h, h ∈ fst s /\ instance_index h = Z.of_nat i /\ this h = a)
  /\ (aborted (snd s) = false -> forall self,
        let s1 := act kDummyIndex (Construct self) s in
        (Z.of_nat (length (fst s)) < kDummyIndex ->
         fst s1 = MkHost self (Z.of_nat (length (fst s))) :: fst s
         /\ all_host_contexts_ (snd s1) !! length (fst s) = Some (Some self)
         /\ next_host_context_index (snd s1) = Z.of_nat (length (fst s)) + 1
         /\ aborted (snd s1) = false)
        /\ (kDummyIndex <= Z.of_nat (length (fst s)) ->
            fst s1 = fst s /\ aborted (snd s1) = true))
  /\ (aborted (snd s) = false -> forall h, h ∈ fst s ->
        let s2 := act kDummyIndex (Destruct h) s in
        all_host_contexts_ (snd s2) !! Z.to_nat (instance_index h) = Some None
        /\ fst s2 = fst s
        /\ next_host_context_index (snd s2) = next_host_context_index (snd s)).
Proof.
  intros s. destruct (act_all_spec acts) as (HI & Hrun & Hdown). fold s in HI, Hrun, Hdown.
  destruct HI as [Htable Hnum Hbound Hcounter Hslots].
  split; [exact Hnum|]. split; [apply numbered_NoDup, Hnum|]. split; [|split; [|split; [|split]]].
  - intros h Hh. pose proof (numbered_lt _ h Hnum Hh). lia.
  - split; [exact Hdown|]. intros Hmany.
    destruct (aborted (snd s)) eqn:Hab; [reflexivity|]. specialize (Hrun eq_refl). lia.
  - exact Hslots.
  - intros Hab self s1. specialize (Hcounter Hab).
    destruct s as [made p]. simpl in *. unfold s1. simpl. rewrite Hab.
    destruct (HostContext_new_spec self p ltac:(lia)) as [Hok Hfull].
    split; intros Hcmp.
    + rewrite Hok by lia. simpl. rewrite Hcounter, Nat2Z.id.
      repeat split; try assumption.
      apply list_lookup_insert_eq. lia.
    + rewrite Hfull by lia. simpl. split; reflexivity.
  - intros Hab h Hh s2.
    pose proof (numbered_lt _ h Hnum Hh) as Hidx.
    destruct s as [made p]. simpl in *. unfold s2. simpl. rewrite Hab. simpl.
    repeat split. apply list_lookup_insert_eq. lia.
Qed.

End InstanceIndex.

(** The table of 255 slots: three constructions with a destruction in
    between get the indices 0, 1 and 2. *)
Lemma instance_index_unique_witness :
  0 <= 255 < 2 ^ 31 - 1
  /\ map Registry.instance_index
         (fst (Registry.act_all 255
                 [Registry.Construct 10%nat; Registry.Construct 11%nat;
                  Registry.Destruct (Registry.MkHost 10%nat 0); Registry.Construct 12%nat]
                 ([], Registry.start 255)))
     = [2; 1; 0]
  /\ NoDup (map Registry.instance_index
              (fst (Registry.act_all 255
                      [Registry.Construct 10%nat; Registry.Construct 11%nat;
                       Registry.Destruct (Registry.MkHost 10%nat 0); Registry.Construct 12%nat]
                      ([], Registry.start 255)))).
Proof.
  split; [lia|]. split; [vm_compute; reflexivity|].
  exact (proj1 (proj2 (instance_index_unique 255 ltac:(lia) _))).
Defined.

(** ** The table of host contexts: what a lookup finds *)

Section LiveContexts.
Import Cxx Registry.

Variable kDummyIndex : Z.
Hypothesis table_size : 0 <= kDummyIndex < 2 ^ 31 - 1.

Abbreviation state := (list HostContext * Registry.process)%type.

(** The history the process has when it starts from the empty table. *)
Definition after (acts : list action) : state :=
  act_all kDummyIndex acts ([], start kDummyIndex).

(** A destructor runs on a context that has been constructed. *)
Definition destroys_constructed (acts : list action) : Prop :=
  forall pre h post, acts = pre ++ Destruct h :: post -> h ∈ fst (after pre).

Lemma destroys_constructed_prefix acts a :
  destroys_constructed (acts ++ [a]) -> destroys_constructed acts.
Proof.
  intros Hwf pre h post ->. apply (Hwf pre h (post ++ [a])).
  rewrite <- app_assoc. reflexivity.
Qed.

Lemma numbered_inj made h h' :
  numbered made -> h ∈ made -> h' ∈ made ->
  instance_index h = instance_index h' -> h = h'.
Proof.
  induction made as [|x made IH]; simpl; intros Hnum Hh Hh' Heq.
  - apply elem_of_nil in Hh. contradiction.
  - destruct Hnum as [Hx Hnum].
    apply elem_of_cons in Hh as [->|Hh]; apply elem_of_cons in Hh' as [->|Hh'].
    + reflexivity.
    + pose proof (numbered_lt made h' Hnum Hh'). lia.
    + pose proof (numbered_lt made h Hnum Hh). lia.
    + apply IH; assumption.
Qed.

Lemma act_keeps a (s : state) h : h ∈ fst s -> h ∈ fst (act kDummyIndex a s).
Proof.
  destruct s as [made p]. simpl. intros Hh.
  destruct (aborted p); [exact Hh|].
  destruct a as [self|h0]; [|exact Hh].
  destruct (HostContext_new kDummyIndex self p) as [[h1|] p']; simpl;
    [apply elem_of_cons; right; exact Hh | exact Hh].
Qed.

Lemma destroyed_was_constructed acts :
  destroys_constructed acts -> forall h, Destruct h ∈ acts -> h ∈ fst (after acts).
Proof.
  induction acts as [|a acts IH] using rev_ind; intros Hwf h Hin.
  { apply elem_of_nil in Hin. contradiction. }
  unfold after. rewrite act_all_snoc. apply act_keeps.
  apply elem_of_app in Hin as [Hin|Hin].
  - apply IH; [eapply destroys_constructed_prefix; exact Hwf | exact Hin].
  - apply list_elem_of_singleton in Hin. subst a. apply (Hwf acts h []). reflexivity.
Qed.

(** Each constructed context is in the table at its index until it is
    destroyed, and its slot is null from then on. *)
Lemma table_tracks acts :
  destroys_constructed acts ->
  aborted (snd (after acts)) = false ->
  forall h, h ∈ fst (after acts) ->
    ((Destruct h ∈ acts)
     /\ all_host_contexts_ (snd (after acts)) !! Z.to_nat (instance_index h) = Some None)
    \/ ((Destruct h ∉ acts)
        /\ all_host_contexts_ (snd (after acts)) !! Z.to_nat (instance_index h)
           = Some (Some (this h))).
Proof.
  induction acts as [|a acts IH] using rev_ind; intros Hwf.
  { intros _ h Hh. apply elem_of_nil in Hh. contradiction. }
  specialize (IH (destroys_constructed_prefix acts a Hwf)).
  pose proof (destroyed_was_constructed acts (destroys_constructed_prefix acts a Hwf)) as Hdes.
  assert (Hpre : forall h, a = Destruct h -> h ∈ fst (after acts)).
  { intros h ->. apply (Hwf acts h []). reflexivity. }
  destruct (act_all_spec kDummyIndex table_size acts) as (HI & _ & _).
  fold (after acts) in HI.
  unfold after in *. rewrite act_all_snoc.
  destruct (act_all kDummyIndex acts ([], start kDummyIndex)) as [made p].
  destruct HI as [Htable Hnum Hbound Hcounter Hslots]. simpl in *.
  destruct (aborted p) eqn:Hab; [simpl; congruence|].
  specialize (IH eq_refl). specialize (Hcounter eq_refl).
  destruct a as [self|h0]; simpl.
  - destruct (HostContext_new_spec kDummyIndex self p ltac:(lia)) as [Hok Hfull].
    destruct (Z.lt_ge_cases (next_host_context_index p) kDummyIndex) as [Hlt|Hge].
    2:{ rewrite (Hfull Hge). simpl. discriminate. }
    rewrite (Hok Hlt). simpl. intros _ h Hh.
    apply elem_of_cons in Hh as [->|Hh].
    + right. unfold instance_index. simpl. split.
      * intros Hin. apply elem_of_app in Hin as [Hin|Hin].
        -- pose proof (numbered_lt _ _ Hnum (Hdes _ Hin)) as Hidx.
           unfold instance_index in Hidx. simpl in Hidx. lia.
        -- apply list_elem_of_singleton in Hin. discriminate.
      * apply list_lookup_insert_eq. lia.
    + pose proof (numbered_lt _ _ Hnum Hh) as Hidx.
      rewrite list_lookup_insert_ne by lia.
      destruct (IH h Hh) as [[Hd Hs] | [Hd Hs]].
      * left. split; [apply elem_of_app; left; exact Hd | exact Hs].
      * right. split; [|exact Hs].
        intros Hin. apply elem_of_app in Hin as [Hin|Hin]; [contradiction|].
        apply list_elem_of_singleton in Hin. discriminate.
  - rewrite Hab. intros _ h Hh.
    specialize (Hpre h0 eq_refl).
    pose proof (numbered_lt _ _ Hnum Hh) as Hidx.
    pose proof (numbered_lt _ _ Hnum Hpre) as Hidx0.
    destruct (decide (instance_index h0 = instance_index h)) as [Heq|Hne].
    + assert (h0 = h) as -> by (apply (numbered_inj made); assumption).
      left. split; [apply elem_of_app; right; apply list_elem_of_singleton; reflexivity|].
      apply list_lookup_insert_eq. lia.
    + rewrite list_lookup_insert_ne by lia.
      destruct (IH h Hh) as [[Hd Hs] | [Hd Hs]].
      * left. split; [apply elem_of_app; left; exact Hd | exact Hs].
      * right. split; [|exact Hs].
        intros Hin. apply elem_of_app in Hin as [Hin|Hin]; [contradiction|].
        apply list_elem_of_singleton in Hin. injection Hin as ->. congruence.
Qed.

(** X13: as long as the process has not been brought down, the table holds
    exactly the contexts that have been constructed and not destroyed, each
    at its index; the slot of a destroyed context stays null whatever is
    constructed later. *)
Theorem table_holds_live acts :
  destroys_constructed acts ->
  aborted (snd (after acts)) = false ->
  forall i a,
    all_host_contexts_ (snd (after acts)) !! i = Some (Some a)
    <-> exists h, h ∈ fst (after acts) /\ (Destruct h ∉ acts)
          /\ instance_index h = Z.of_nat i /\ this h = a.
Proof.
  intros Hwf Hab i a.
  pose proof (table_tracks acts Hwf Hab) as Htrack.
  destruct (act_all_spec kDummyIndex table_size acts) as ([_ _ _ _ Hslots] & _ & _).
  fold (after acts) in Hslots. split.
  - intros Hi. destruct (Hslots i a Hi) as (h & Hh & Hidx & Hthis).
    exists h. split; [exact Hh|]. split; [|split; assumption].
    destruct (Htrack h Hh) as [[_ Hs] | [Hd _]]; [|exact Hd].
    rewrite Hidx, Nat2Z.id in Hs. congruence.
  - intros (h & Hh & Hd & Hidx & Hthis).
    destruct (Htrack h Hh) as [[Hd' _] | [_ Hs]]; [contradiction|].
    rewrite Hidx, Nat2Z.id, Hthis in Hs. exact Hs.
Qed.

End LiveContexts.

(** The table of 255 slots: contexts are constructed at the addresses 10, 11
    and 12 and the first one is destroyed in between; the table holds the
    other two at 1 and 2 and null at 0. *)
Definition three_contexts : list Registry.action :=
  [Registry.Construct 10%nat; Registry.Construct 11%nat;
   Registry.Destruct (Registry.MkHost 10%nat 0); Registry.Construct 12%nat].

Lemma table_holds_live_witness :
  (0 <= 255 < 2 ^ 31 - 1
   /\ destroys_constructed 255 three_contexts
   /\ Registry.aborted (snd (after 255 three_contexts)) = false)
  /\ take 3 (Registry.all_host_contexts_ (snd (after 255 three_contexts)))
     = [None; Some 11%nat; Some 12%nat]
  /\ exists h, h ∈ fst (after 255 three_contexts)
       /\ (Registry.Destruct h ∉ three_contexts)
       /\ Registry.instance_index h = Z.of_nat 2 /\ Registry.this h = 12%nat.
Proof.
  assert (Hwf : destroys_constructed 255 three_contexts).
  { intros pre h post Heq. unfold three_contexts in Heq.
    destruct pre as [|a0 [|a1 [|a2 [|a3 [|a4 pre]]]]]; try discriminate Heq;
      try (destruct pre; discriminate Heq).
    injection Heq as <- <- <- _. vm_compute.
    apply elem_of_cons. right. apply elem_of_cons. left. reflexivity. }
  assert (Hab : Registry.aborted (snd (after 255 three_contexts)) = false)
    by (vm_compute; reflexivity).
  split; [split; [lia | split; assumption]|]. split; [vm_compute; reflexivity|].
  apply (table_holds_live 255 ltac:(lia) three_contexts Hwf Hab 2%nat 12%nat).
  vm_compute. reflexivity.
Defined.

(** ** The table of host contexts: constructors that race *)

Section ConstructorsRace.
Import Cxx Registry RegistryRace.

Variable kDummyIndex : Z.
Hypothesis table_size : 0 <= kDummyIndex < 2 ^ 31 - 1.

(** The contexts to construct; the table has room for all of them. *)
Variable cs : list (address * bool).
Hypothesis room : Z.of_nat (length cs) <= kDummyIndex.

Abbreviation racing := (list frame * world)%type.
Abbreviation step := (RegistryRace.step kDummyIndex).
Abbreviation thread_step := (RegistryRace.thread_step kDummyIndex).

Definition ctx_has (i : Z) (h : HostContext) : nat :=
  if instance_index h =? i then 1%nat else O.

Definition ctx_is (i : Z) (a : address) (h : HostContext) : nat :=
  if (instance_index h =? i) && Nat.eqb (this h) a then 1%nat else O.

(** The index [i] is held by a thread that is past the [fetch_add]. *)
Definition frame_has (i : Z) (f : frame) : nat :=
  match f with
  | AtFetchAdd _ _ => O
  | AtAssert h _ | AtStore h _ | AtClear h => ctx_has i h
  end.

Definition clear_has (i : Z) (f : frame) : nat :=
  match f with AtClear h => ctx_has i h | _ => O end.

Definition clear_is (i : Z) (a : address) (f : frame) : nat :=
  match f with AtClear h => ctx_is i a h | _ => O end.

Definition fetching (f : frame) : nat :=
  match f with AtFetchAdd _ _ => 1%nat | _ => O end.

Definition owners (i : Z) (c : racing) : nat :=
  (total (frame_has i) (fst c) + total (ctx_has i) (kept (snd c))
   + total (ctx_has i) (destroyed (snd c)))%nat.

Record CtorInv (c : racing) : Prop := {
  ci_live : aborted (proc (snd c)) = false;
  ci_table : length (all_host_contexts_ (proc (snd c))) = Z.to_nat kDummyIndex;
  ci_counter :
    0 <= next_host_context_index (proc (snd c))
    /\ next_host_context_index (proc (snd c)) + Z.of_nat (total fetching (fst c))
       = Z.of_nat (length cs);
  ci_owners : forall i,
    owners i c = if (0 <=? i) && (i <? next_host_context_index (proc (snd c)))
                 then 1%nat else O;
  ci_slots : forall i x,
    all_host_contexts_ (proc (snd c)) !! i = Some x ->
    match x with
    | Some a =>
      (total (ctx_is (Z.of_nat i) a) (kept (snd c))
       + total (clear_is (Z.of_nat i) a) (fst c) = 1)%nat
    | None =>
      (total (ctx_has (Z.of_nat i)) (kept (snd c))
       + total (clear_has (Z.of_nat i)) (fst c) = 0)%nat
    end;
  ci_done :
    (length (fst c) + length (kept (snd c)) + length (destroyed (snd c)) = length cs)%nat
}.

Lemma ctx_is_le i a h : (ctx_is i a h <= ctx_has i h)%nat.
Proof.
  unfold ctx_is, ctx_has. destruct (instance_index h =? i); simpl; [|lia].
  destruct (Nat.eqb (this h) a); lia.
Qed.

Lemma clear_is_le i a f : (clear_is i a f <= clear_has i f)%nat.
Proof. destruct f; simpl; try lia. apply ctx_is_le. Qed.

Lemma clear_has_le i f : (clear_has i f <= frame_has i f)%nat.
Proof. destruct f; simpl; lia. Qed.

Lemma constructors_fetching (l : list (address * bool)) :
  total fetching (constructors l) = length l
  /\ (forall i, total (frame_has i) (constructors l) = O)
  /\ (forall i, total (clear_has i) (constructors l) = O)
  /\ (forall i a, total (clear_is i a) (constructors l) = O).
Proof.
  induction l as [|c l (IH1 & IH2 & IH3 & IH4)]; simpl; [auto|].
  rewrite IH1. repeat split; auto.
Qed.

Lemma CtorInv_start : CtorInv (constructors cs, begin kDummyIndex).
Proof.
  destruct (constructors_fetching cs) as (Hf & Hh & Hc & Hi).
  split; unfold begin, start, owners;
    cbn [fst snd proc kept destroyed aborted all_host_contexts_ next_host_context_index].
  - reflexivity.
  - apply length_replicate.
  - rewrite Hf. lia.
  - intros i. rewrite Hh. simpl.
    destruct (Z.leb_spec 0 i), (Z.ltb_spec i 0); simpl; try reflexivity. lia.
  - intros i x Hx. apply lookup_replicate in Hx as [-> _]. simpl. rewrite Hc. reflexivity.
  - unfold constructors. rewrite length_map. simpl. lia.
Qed.

Lemma CtorInv_step c c' : CtorInv c -> step c c' -> CtorInv c'.
Proof.
  intros [_ Htable Hcounter Howners Hslots Hdone] Hstep.
  destruct Hstep as [t1 f t2 w f' w' Hlive Hf]. simpl in *.
  unfold owners in Howners. simpl in Howners.
  set (n := next_host_context_index (proc w)) in *.
  assert (Ho : forall i,
    (total (frame_has i) t1 + (frame_has i f + total (frame_has i) t2)
     + total (ctx_has i) (kept w) + total (ctx_has i) (destroyed w))%nat
    = if (0 <=? i) && (i <? n) then 1%nat else O).
  { intros i. rewrite <- (Howners i), total_app. reflexivity. }
  assert (Hs : forall i x, all_host_contexts_ (proc w) !! i = Some x ->
    match x with
    | Some a =>
      (total (ctx_is (Z.of_nat i) a) (kept w)
       + (total (clear_is (Z.of_nat i) a) t1
          + (clear_is (Z.of_nat i) a f + total (clear_is (Z.of_nat i) a) t2)) = 1)%nat
    | None =>
      (total (ctx_has (Z.of_nat i)) (kept w)
       + (total (clear_has (Z.of_nat i)) t1
          + (clear_has (Z.of_nat i) f + total (clear_has (Z.of_nat i)) t2)) = 0)%nat
    end).
  { intros i x Hx. specialize (Hslots i x Hx).
    destruct x as [a|]; rewrite !total_app in Hslots; exact Hslots. }
  rewrite total_app in Hcounter. simpl in Hcounter.
  rewrite length_app in Hdone. simpl in Hdone.
  clear Howners Hslots.
  (* what holding an index means *)
  assert (Hheld : forall h, frame_has (instance_index h) f = 1%nat ->
    0 <= instance_index h < n
    /\ total (frame_has (instance_index h)) t1 = O
    /\ total (frame_has (instance_index h)) t2 = O
    /\ total (ctx_has (instance_index h)) (kept w) = O
    /\ total (ctx_has (instance_index h)) (destroyed w) = O).
  { intros h Hh. specialize (Ho (instance_index h)). rewrite Hh in Ho.
    destruct (Z.leb_spec 0 (instance_index h)), (Z.ltb_spec (instance_index h) n);
      simpl in Ho; lia. }
  assert (Hself : forall h, ctx_has (instance_index h) h = 1%nat).
  { intros h. unfold ctx_has. rewrite Z.eqb_refl. reflexivity. }
  assert (Hself2 : forall h, ctx_is (instance_index h) (this h) h = 1%nat).
  { intros h. unfold ctx_is. rewrite Z.eqb_refl, Nat.eqb_refl. reflexivity. }
  assert (Helse : forall h j, j <> Z.to_nat (instance_index h) -> 0 <= instance_index h ->
    ctx_has (Z.of_nat j) h = O /\ forall a, ctx_is (Z.of_nat j) a h = O).
  { intros h j Hj Hpos. unfold ctx_is, ctx_has.
    destruct (Z.eqb_spec (instance_index h) (Z.of_nat j)) as [Heq|_]; [|auto].
    rewrite Heq, Nat2Z.id in Hj. congruence. }
  destruct f as [self d|h d|h d|h]; simpl in Hf.
  - (* fetch_add *)
    injection Hf as <- <-. fold n. rewrite to_int_small by lia.
    split; cbn [fst snd proc kept destroyed aborted all_host_contexts_ next_host_context_index].
    + exact Hlive.
    + exact Htable.
    + rewrite total_app. simpl in *. lia.
    + intros i. unfold owners. simpl. rewrite total_app. simpl.
      specialize (Ho i). simpl in Ho.
      change (ctx_has i (MkHost self n)) with (if n =? i then 1%nat else O).
      destruct (Z.eqb_spec n i), (Z.leb_spec 0 i), (Z.ltb_spec i n), (Z.ltb_spec i (n + 1));
        simpl in *; lia.
    + intros i x Hx. specialize (Hs i x Hx).
      destruct x as [a|]; rewrite !total_app; simpl in *; exact Hs.
    + rewrite length_app. simpl. lia.
  - (* the assertion holds *)
    destruct (Hheld h (Hself h)) as (Hidx & _).
    destruct (Z.ltb_spec (instance_index h) kDummyIndex) as [_|]; [|lia]. simpl in Hf.
    injection Hf as <- <-.
    split; cbn [fst snd].
    + exact Hlive.
    + exact Htable.
    + rewrite total_app. simpl in *. exact Hcounter.
    + intros i. unfold owners. simpl. rewrite total_app. simpl. apply Ho.
    + intros i x Hx. specialize (Hs i x Hx).
      destruct x as [a|]; rewrite !total_app; simpl in *; exact Hs.
    + rewrite length_app. simpl. lia.
  - (* the context is put into the table *)
    destruct (Hheld h (Hself h)) as (Hidx & Hz1 & Hz2 & Hz3 & Hz4).
    assert (Hlt : (Z.to_nat (instance_index h) < length (all_host_contexts_ (proc w)))%nat)
      by lia.
    pose proof (fun a => total_le _ _ t1 (clear_is_le (instance_index h) a)) as Hc1.
    pose proof (fun a => total_le _ _ t2 (clear_is_le (instance_index h) a)) as Hc2.
    pose proof (total_le _ _ t1 (clear_has_le (instance_index h))) as Hd1.
    pose proof (total_le _ _ t2 (clear_has_le (instance_index h))) as Hd2.
    pose proof (fun a => total_le _ _ (kept w) (ctx_is_le (instance_index h) a)) as Hk.
    destruct d; injection Hf as <- <-;
      split; cbn [fst snd proc kept destroyed aborted all_host_contexts_ next_host_context_index].
    + exact Hlive.
    + rewrite length_insert. exact Htable.
    + rewrite total_app. simpl in *. exact Hcounter.
    + intros i. unfold owners. simpl. rewrite total_app. simpl. apply Ho.
    + intros j x Hx.
      destruct (decide (Z.to_nat (instance_index h) = j)) as [<-|Hne].
      * rewrite list_lookup_insert_eq in Hx by exact Hlt. injection Hx as <-.
        rewrite !total_app. simpl.
        rewrite Z2Nat.id by lia. rewrite Hself2.
        specialize (Hc1 (this h)). specialize (Hc2 (this h)). specialize (Hk (this h)). lia.
      * rewrite list_lookup_insert_ne in Hx by exact Hne.
        specialize (Hs j x Hx). simpl in Hs.
        destruct (Helse h j ltac:(congruence) ltac:(lia)) as [He1 He2].
        destruct x as [a|]; rewrite !total_app; simpl; [rewrite He2 | rewrite He1]; exact Hs.
    + rewrite length_app. simpl. lia.
    + exact Hlive.
    + rewrite length_insert. exact Htable.
    + rewrite total_app. simpl in *. exact Hcounter.
    + intros i. unfold owners. cbn [fst snd kept destroyed total frame_has].
      rewrite total_app. cbn [total frame_has resume]. fold n.
      specialize (Ho i). cbn [frame_has] in Ho. lia.
    + intros j x Hx.
      destruct (decide (Z.to_nat (instance_index h) = j)) as [<-|Hne].
      * rewrite list_lookup_insert_eq in Hx by exact Hlt. injection Hx as <-.
        rewrite !total_app. simpl.
        rewrite Z2Nat.id by lia. rewrite Hself2.
        specialize (Hc1 (this h)). specialize (Hc2 (this h)). specialize (Hk (this h)). lia.
      * rewrite list_lookup_insert_ne in Hx by exact Hne.
        specialize (Hs j x Hx). simpl in Hs.
        destruct (Helse h j ltac:(congruence) ltac:(lia)) as [He1 He2].
        destruct x as [a|]; rewrite !total_app; simpl; [rewrite He2 | rewrite He1]; simpl; lia.
    + rewrite length_app. simpl. lia.
  - (* the destructor clears the slot *)
    destruct (Hheld h (Hself h)) as (Hidx & Hz1 & Hz2 & Hz3 & Hz4).
    assert (Hlt : (Z.to_nat (instance_index h) < length (all_host_contexts_ (proc w)))%nat)
      by lia.
    pose proof (total_le _ _ t1 (clear_has_le (instance_index h))) as Hd1.
    pose proof (total_le _ _ t2 (clear_has_le (instance_index h))) as Hd2.
    injection Hf as <- <-. unfold HostContext_delete.
    split; cbn [fst snd proc kept destroyed aborted all_host_contexts_ next_host_context_index].
    + exact Hlive.
    + rewrite length_insert. exact Htable.
    + rewrite total_app. simpl in *. exact Hcounter.
    + intros i. unfold owners. cbn [fst snd kept destroyed total frame_has].
      rewrite total_app. cbn [total frame_has resume]. fold n.
      specialize (Ho i). cbn [frame_has] in Ho. lia.
    + intros j x Hx.
      destruct (decide (Z.to_nat (instance_index h) = j)) as [<-|Hne].
      * rewrite list_lookup_insert_eq in Hx by exact Hlt. injection Hx as <-.
        rewrite !total_app. rewrite Z2Nat.id by lia. cbn [resume]. lia.
      * rewrite list_lookup_insert_ne in Hx by exact Hne.
        specialize (Hs j x Hx). simpl in Hs.
        destruct (Helse h j ltac:(congruence) ltac:(lia)) as [He1 He2].
        destruct x as [a|]; rewrite !total_app; cbn [resume];
          [rewrite He2 in Hs | rewrite He1 in Hs]; simpl in Hs; lia.
    + rewrite length_app. simpl. lia.
Qed.

Lemma CtorInv_reachable c : rtc step (constructors cs, begin kDummyIndex) c -> CtorInv c.
Proof.
  revert c. apply rtc_ind_r.
  - exact CtorInv_start.
  - intros c c' _ Hstep HI. eapply CtorInv_step; eassumption.
Qed.

(** The actions a thread still has to perform. *)
Definition ctor_work (f : frame) : nat :=
  match f with
  | AtFetchAdd _ destroy => if destroy then 4 else 3
  | AtAssert _ destroy => if destroy then 3 else 2
  | AtStore _ destroy => if destroy then 2 else 1
  | AtClear _ => 1
  end.

Definition ctors_work (c : racing) : nat :=
  (total ctor_work (fst c) + if aborted (proc (snd c)) then 0 else 1)%nat.

Lemma ctors_step_work c c' : step c c' -> (ctors_work c' < ctors_work c)%nat.
Proof.
  intros [t1 f t2 w f' w' Hlive Hf]. unfold ctors_work. simpl. rewrite Hlive.
  rewrite !total_app. simpl.
  destruct f as [self d|h d|h d|h]; simpl in Hf.
  - injection Hf as <- <-. simpl. rewrite Hlive. destruct d; lia.
  - destruct (negb _); injection Hf as <- <-; simpl; rewrite ?Hlive; destruct d; lia.
  - destruct d; injection Hf as <- <-; simpl; rewrite Hlive; lia.
  - injection Hf as <- <-. simpl. rewrite Hlive. lia.
Qed.

Lemma ctors_nsteps_work k c c' :
  nsteps step k c c' -> (k + ctors_work c' <= ctors_work c)%nat.
Proof.
  induction 1 as [c | k c1 c2 c3 Hstep _ IH]; [lia|].
  apply ctors_step_work in Hstep. lia.
Qed.

Lemma constructors_work (l : list (address * bool)) :
  (total ctor_work (constructors l) <= 4 * length l)%nat.
Proof. induction l as [|[a []] l IH]; simpl in *; lia. Qed.

Lemma total_ctx_app i (l1 l2 : list HostContext) :
  total (ctx_has i) (l1 ++ l2) = (total (ctx_has i) l1 + total (ctx_has i) l2)%nat.
Proof. apply total_app. Qed.

Lemma indices_NoDup (l : list HostContext) :
  (forall i, (total (ctx_has i) l <= 1)%nat) -> NoDup (map instance_index l).
Proof.
  induction l as [|h l IH]; intros Hone; simpl; [constructor|].
  constructor.
  - intros Hin. apply list_elem_of_In, in_map_iff in Hin as (h' & Heq & Hin).
    apply list_elem_of_In in Hin.
    pose proof (total_elem (ctx_has (instance_index h)) l h' Hin) as Hle.
    specialize (Hone (instance_index h)). cbn [total] in Hone.
    assert (E1 : ctx_has (instance_index h) h = 1%nat)
      by (unfold ctx_has; rewrite Z.eqb_refl; reflexivity).
    assert (E2 : ctx_has (instance_index h) h' = 1%nat)
      by (unfold ctx_has; rewrite Heq, Z.eqb_refl; reflexivity).
    rewrite E1 in Hone. rewrite E2 in Hle. lia.
  - apply IH. intros i. specialize (Hone i). cbn [total] in Hone. lia.
Qed.

Lemma ctx_is_apart i a a' h : a <> a' -> (ctx_is i a h + ctx_is i a' h <= ctx_has i h)%nat.
Proof.
  intros Hne. unfold ctx_is, ctx_has. destruct (instance_index h =? i); simpl; [|lia].
  destruct (Nat.eqb_spec (this h) a), (Nat.eqb_spec (this h) a'); try lia; congruence.
Qed.

(** X16: contexts that are constructed by threads that race, some of which
    destroy their context afterwards, with room for all in the table.  The
    assertion holds for each of them, and all threads come to their end.
    Whatever the interleaving, no two contexts are given the same index, and
    when all threads are done the counter stands at the number of contexts
    and the table holds exactly the contexts that were not destroyed, each
    at its index. *)
Theorem constructors_race k ts w :
  nsteps step k (constructors cs, begin kDummyIndex) (ts, w) ->
  aborted (proc w) = false
  /\ (k <= 4 * length cs)%nat
  /\ (ts <> [] -> exists c', step (ts, w) c')
  /\ NoDup (map instance_index (kept w ++ destroyed w))
  /\ (forall h, h ∈ kept w ++ destroyed w ->
        0 <= instance_index h < next_host_context_index (proc w))
  /\ (ts = [] ->
      next_host_context_index (proc w) = Z.of_nat (length cs)
      /\ (length (kept w) + length (destroyed w) = length cs)%nat
      /\ forall i a,
           all_host_contexts_ (proc w) !! i = Some (Some a)
           <-> exists h, h ∈ kept w /\ instance_index h = Z.of_nat i /\ this h = a).
Proof.
  intros Hk.
  pose proof (ctors_nsteps_work _ _ _ Hk) as Hwork.
  pose proof (constructors_work cs) as Hstart.
  assert (HI : CtorInv (ts, w)) by (apply CtorInv_reachable; eapply rtc_nsteps_2; exact Hk).
  destruct HI as [Hlive Htable Hcounter Howners Hslots Hdone]. simpl in *.
  unfold ctors_work in Hwork. simpl in Hwork. rewrite Hlive in Hwork.
  unfold owners in Howners. simpl in Howners.
  assert (Hone : forall i, (total (ctx_has i) (kept w ++ destroyed w) <= 1)%nat).
  { intros i. rewrite total_ctx_app. specialize (Howners i).
    destruct ((0 <=? i) && (i <? next_host_context_index (proc w))); lia. }
  split; [exact Hlive|]. split; [lia|]. split; [|split; [|split]].
  - intros Hne. destruct ts as [|f ts']; [congruence|].
    destruct (thread_step f w) as [f' w'] eqn:Hf. eexists.
    apply (step_thread kDummyIndex [] f ts' w f' w' Hlive Hf).
  - apply indices_NoDup, Hone.
  - intros h Hh.
    pose proof (total_elem (ctx_has (instance_index h)) _ h Hh) as Hle.
    assert (E : ctx_has (instance_index h) h = 1%nat)
      by (unfold ctx_has; rewrite Z.eqb_refl; reflexivity).
    rewrite E in Hle. rewrite total_ctx_app in Hle. specialize (Howners (instance_index h)).
    destruct (Z.leb_spec 0 (instance_index h)),
      (Z.ltb_spec (instance_index h) (next_host_context_index (proc w)));
      simpl in Howners; lia.
  - intros ->. simpl in *. split; [lia|]. split; [lia|].
    intros i a. split.
    + intros Hi. specialize (Hslots i _ Hi). simpl in Hslots.
      destruct (total_pos_elem (ctx_is (Z.of_nat i) a) (kept w) ltac:(lia))
        as (h & Hh & Hpos).
      exists h. split; [exact Hh|]. unfold ctx_is in Hpos.
      destruct (Z.eqb_spec (instance_index h) (Z.of_nat i)); simpl in Hpos; [|lia].
      destruct (Nat.eqb_spec (this h) a); [auto | lia].
    + intros (h & Hh & Hidx & Hthis).
      pose proof (total_elem (ctx_has (Z.of_nat i)) _ h Hh) as Hhas.
      assert (E1 : ctx_has (Z.of_nat i) h = 1%nat)
        by (unfold ctx_has; rewrite Hidx, Z.eqb_refl; reflexivity).
      pose proof (total_elem (ctx_is (Z.of_nat i) a) _ h Hh) as His.
      assert (E2 : ctx_is (Z.of_nat i) a h = 1%nat)
        by (unfold ctx_is; rewrite Hidx, Hthis, Z.eqb_refl, Nat.eqb_refl; reflexivity).
      rewrite E1 in Hhas. rewrite E2 in His.
      pose proof (Howners (Z.of_nat i)) as Ho.
      assert (Hlt : (i < length (all_host_contexts_ (proc w)))%nat).
      { destruct (Z.leb_spec 0 (Z.of_nat i)),
          (Z.ltb_spec (Z.of_nat i) (next_host_context_index (proc w)));
          simpl in Ho; lia. }
      apply lookup_lt_is_Some_2 in Hlt as [x Hx]. rewrite Hx.
      pose proof (Hslots i x Hx) as Hslot.
      destruct x as [a'|]; simpl in Hslot; [|lia].
      destruct (decide (a = a')) as [->|Hne]; [reflexivity|].
      pose proof (total_le _ _ (kept w) (fun h' => ctx_is_apart (Z.of_nat i) a a' h' Hne))
        as Hsum.
      rewrite total_plus in Hsum.
      destruct ((0 <=? Z.of_nat i) && (Z.of_nat i <? next_host_context_index (proc w)));
        lia.
Qed.

Lemma ctors_schedule_steps turns (c : racing) :
  rtc step c (RegistryRace.schedule kDummyIndex turns c).
Proof.
  revert c. induction turns as [|i turns IH]; intros [ts w]; simpl; [apply rtc_refl|].
  destruct (aborted (proc w)) eqn:Hlive; [apply IH|].
  destruct (ts !! i) as [f|] eqn:Hi; [|apply IH].
  destruct (thread_step f w) as [f' w'] eqn:Hf.
  eapply rtc_l; [|apply IH].
  rewrite <- (take_drop_middle ts i f Hi) at 1.
  apply step_thread; assumption.
Qed.

End ConstructorsRace.

(** Three threads construct contexts at the addresses 10, 11 and 12; the
    second one is the first at the counter, and destroys its context in the
    end.  The contexts at 10 and 12 get the indices 1 and 2. *)
Definition three_constructors : list (Registry.address * bool) :=
  [(10%nat, false); (11%nat, true); (12%nat, false)].

Definition ctor_turns : list nat := [1; 0; 2; 2; 0; 1; 2; 1; 0; 0]%nat.

Lemma constructors_race_witness :
  (0 <= 255 < 2 ^ 31 - 1 /\ Z.of_nat (length three_constructors) <= 255)
  /\ fst (RegistryRace.schedule 255 ctor_turns
            (RegistryRace.constructors three_constructors, RegistryRace.begin 255)) = []
  /\ RegistryRace.kept
       (snd (RegistryRace.schedule 255 ctor_turns
               (RegistryRace.constructors three_constructors, RegistryRace.begin 255)))
     = [Registry.MkHost 10%nat 1; Registry.MkHost 12%nat 2]
  /\ take 3 (Registry.all_host_contexts_
               (RegistryRace.proc
                  (snd (RegistryRace.schedule 255 ctor_turns
                          (RegistryRace.constructors three_constructors,
                           RegistryRace.begin 255)))))
     = [None; Some 10%nat; Some 12%nat]
  /\ NoDup (map Registry.instance_index
              (RegistryRace.kept
                 (snd (RegistryRace.schedule 255 ctor_turns
                         (RegistryRace.constructors three_constructors,
                          RegistryRace.begin 255)))
               ++ RegistryRace.destroyed
                    (snd (RegistryRace.schedule 255 ctor_turns
                            (RegistryRace.constructors three_constructors,
                             RegistryRace.begin 255))))).
Proof.
  split; [simpl; lia|]. split; [vm_compute; reflexivity|].
  split; [vm_compute; reflexivity|]. split; [vm_compute; reflexivity|].
  destruct (rtc_nsteps_1 _ _
              (ctors_schedule_steps 255 ctor_turns
                 (RegistryRace.constructors three_constructors, RegistryRace.begin 255)))
    as [k Hk].
  destruct (RegistryRace.schedule 255 ctor_turns
              (RegistryRace.constructors three_constructors, RegistryRace.begin 255))
    as [ts w].
  exact (proj1 (proj2 (proj2 (proj2
           (constructors_race 255 ltac:(lia) three_constructors ltac:(simpl; lia) k ts w Hk))))).
Defined.
